(** * komm: finite-state machines, Viterbi decoding and terminations

    A shallow embedding of [komm._finite_state_machine.FiniteStateMachine],
    [komm._error_control_convolutional.ConvolutionalStreamDecoder] and
    [komm._error_control_convolutional.terminations.TailBiting].

    NumPy integer arrays are lists of [Z]; a 2-D array is a list of rows.
    [float64] values are [spec_float] at precision 53 and [emax] 1024, with
    the IEEE-754 addition and comparison of the Standard Library.  Python
    exceptions are the [Raise] results of a small error monad.  The last
    part embeds [FiniteStateMachine.forward_backward], with [np.exp],
    [np.log], [np.logaddexp] and [np.sum] as variables of which only named
    properties are used. *)

From Stdlib Require Import ZArith Lia Bool.
From Stdlib Require Import Floats.SpecFloat.
From stdpp Require Import base tactics option list.

Local Open Scope Z_scope.

(** ** Exceptions *)

Inductive exn := IndexError | ValueError.

Inductive result (A : Type) : Type :=
| Ok (a : A)
| Raise (e : exn).
Arguments Ok {A} a.
Arguments Raise {A} e.

Definition bind {A B} (m : result A) (k : A -> result B) : result B :=
  match m with
  | Ok a => k a
  | Raise e => Raise e
  end.

Declare Scope result_scope.
Delimit Scope result_scope with result.
Notation "'do' x <- m ; k" := (bind m (fun x => k))
  (at level 10, x name, m at level 100, k at level 200) : result_scope.
Notation "'do' ' p <- m ; k" := (bind m (fun x => match x with p => k end))
  (at level 10, p strict pattern, m at level 100, k at level 200)
  : result_scope.
Local Open Scope result_scope.

Definition raises {A} (m : result A) : Prop := exists e, m = Raise e.

(** A [for] loop whose body may raise. *)
Fixpoint for_each {A B} (body : B -> A -> result B) (l : list A) (b : B)
  : result B :=
  match l with
  | [] => Ok b
  | a :: l' => do b' <- body b a; for_each body l' b'
  end.

(** ** NumPy indexing *)

(** An index [i] into an axis of size [n]: negative indices count from the
    end, anything outside [-n, n) is an [IndexError]. *)
Definition np_index (n : nat) (i : Z) : result nat :=
  if decide (0 <= i < Z.of_nat n) then Ok (Z.to_nat i)
  else if decide (- Z.of_nat n <= i < 0) then Ok (Z.to_nat (i + Z.of_nat n))
  else Raise IndexError.

Definition item {A} (l : list A) (i : nat) : result A :=
  match l !! i with
  | Some a => Ok a
  | None => Raise IndexError
  end.

(** [a[i]] on a 1-D array. *)
Definition get1 {A} (a : list A) (i : Z) : result A :=
  do k <- np_index (length a) i; item a k.

(** [a[i] = v] on a 1-D array. *)
Definition set1 {A} (a : list A) (i : Z) (v : A) : result (list A) :=
  do k <- np_index (length a) i; Ok (<[k:=v]> a).

(** [a[i, j]] on a 2-D array. *)
Definition get2 {A} (a : list (list A)) (i j : Z) : result A :=
  do row <- get1 a i; get1 row j.

(** [a[i, j] = v] on a 2-D array. *)
Definition set2 {A} (a : list (list A)) (i j : Z) (v : A)
  : result (list (list A)) :=
  do k <- np_index (length a) i;
  do row <- item a k;
  do row' <- set1 row j v;
  Ok (<[k:=row']> a).

(** The length of axis 1. *)
Definition shape1 {A} (a : list (list A)) : nat :=
  match a with
  | [] => 0%nat
  | row :: _ => length row
  end.

Definition rectangular {A} (a : list (list A)) : Prop :=
  Forall (fun row => length row = shape1 a) a.

Global Instance rectangular_dec {A} (a : list (list A)) :
  Decision (rectangular a).
Proof. unfold rectangular. apply _. Defined.

(** [np.asarray] on a nested list of integers: a ragged list has no shape. *)
Definition asarray (a : list (list Z)) : result (list (list Z)) :=
  if decide (rectangular a) then Ok a else Raise ValueError.

(** [np.full((n, m), fill_value)]. *)
Definition full {A} (n m : nat) (fill_value : A) : list (list A) :=
  replicate n (replicate m fill_value).

(** [np.amax] of a 2-D array; the empty array has no maximum. *)
Definition amax (a : list (list Z)) : result Z :=
  match concat a with
  | [] => Raise ValueError
  | v :: vs => Ok (foldl Z.max v vs)
  end.

(** ** The finite-state machine *)

Record FiniteStateMachine := {
  next_states : list (list Z);
  outputs : list (list Z);
  _input_edges : list (list Z);
  _output_edges : list (list Z)
}.

Definition num_states (fsm : FiniteStateMachine) : nat :=
  length (next_states fsm).

Definition num_input_symbols (fsm : FiniteStateMachine) : nat :=
  shape1 (next_states fsm).

Definition num_output_symbols (fsm : FiniteStateMachine) : result Z :=
  amax (outputs fsm).

Definition input_edges := _input_edges.
Definition output_edges := _output_edges.

(** A value that fits a cell of an [int64] array. *)
Definition fits_int64 (v : Z) : Prop := - 2 ^ 63 <= v < 2 ^ 63.

Global Instance fits_int64_dec v : Decision (fits_int64 v).
Proof. unfold fits_int64. apply _. Defined.

(** The body of the inner loop of [__attrs_post_init__].  The two tables
    are [int64] arrays; the cells are modelled as [Z], which is what they
    hold for outputs that fit [int64] (see [fits_int64]): an output beyond
    that range does not reach its cell in NumPy. *)
Definition post_init_edge (outs : list (list Z)) (state_from : nat)
    (edges : list (list Z) * list (list Z)) (e : nat * Z)
  : result (list (list Z) * list (list Z)) :=
  let '(x, state_to) := e in
  let '(ie, oe) := edges in
  do ie' <- set2 ie (Z.of_nat state_from) state_to (Z.of_nat x);
  do y <- get2 outs (Z.of_nat state_from) (Z.of_nat x);
  do oe' <- set2 oe (Z.of_nat state_from) state_to y;
  Ok (ie', oe').

Definition enumerate {A} (l : list A) : list (nat * A) :=
  zip (seq 0 (length l)) l.

Definition post_init_row (ns outs : list (list Z))
    (edges : list (list Z) * list (list Z)) (state_from : nat)
  : result (list (list Z) * list (list Z)) :=
  do row <- item ns state_from;
  for_each (post_init_edge outs state_from) (enumerate row) edges.

Definition attrs_post_init (ns outs : list (list Z))
  : result (list (list Z) * list (list Z)) :=
  let n := length ns in
  for_each (post_init_row ns outs) (seq 0 n) (full n n (-1), full n n (-1)).

(** [FiniteStateMachine(next_states=..., outputs=...)]: the two converters,
    then [__attrs_post_init__]. *)
Definition new_FiniteStateMachine (next_states outputs : list (list Z))
  : result FiniteStateMachine :=
  do ns <- asarray next_states;
  do outs <- asarray outputs;
  do '(ie, oe) <- attrs_post_init ns outs;
  Ok {| next_states := ns; outputs := outs;
        _input_edges := ie; _output_edges := oe |}.

(** [process]: the loop over [np.ndenumerate(input_sequence)]. *)
Fixpoint process_from (fsm : FiniteStateMachine) (input_sequence : list Z)
    (s : Z) : result (list Z * Z) :=
  match input_sequence with
  | [] => Ok ([], s)
  | x :: xs =>
      do y <- get2 (outputs fsm) s x;
      do s' <- get2 (next_states fsm) s x;
      do '(ys, final_state) <- process_from fsm xs s';
      Ok (y :: ys, final_state)
  end.

Definition process (fsm : FiniteStateMachine) (input_sequence : list Z)
    (initial_state : Z) : result (list Z * Z) :=
  process_from fsm input_sequence initial_state.

(** The machine of the class docstring. *)
Definition example_next_states : list (list Z) :=
  [[0; 1]; [2; 3]; [0; 1]; [2; 3]].
Definition example_outputs : list (list Z) :=
  [[0; 3]; [1; 2]; [3; 0]; [2; 1]].

Definition example_fsm : FiniteStateMachine :=
  {| next_states := example_next_states;
     outputs := example_outputs;
     _input_edges := [[0; 1; -1; -1]; [-1; -1; 0; 1];
                      [0; 1; -1; -1]; [-1; -1; 0; 1]];
     _output_edges := [[0; 3; -1; -1]; [-1; -1; 1; 2];
                       [3; 0; -1; -1]; [-1; -1; 2; 1]] |}.

Lemma example_fsm_constructed :
  new_FiniteStateMachine example_next_states example_outputs = Ok example_fsm.
Proof. vm_compute. reflexivity. Qed.

(** C9: the docstring example of [process]. *)
Theorem process_example :
  process example_fsm [1; 1; 0; 1; 0] 0 = Ok ([3; 2; 2; 0; 1], 2).
Proof. vm_compute. reflexivity. Qed.

(** ** Indexing lemmas *)

Lemma bind_Ok {A B} (m : result A) (k : A -> result B) b :
  bind m k = Ok b -> exists a, m = Ok a /\ k a = Ok b.
Proof. destruct m; simpl; [eauto | discriminate]. Qed.

Lemma bind_raises_l {A B} (m : result A) (k : A -> result B) :
  raises m -> raises (bind m k).
Proof. intros [e ->]. exists e. reflexivity. Qed.

Lemma raises_or_Ok {A} (m : result A) : raises m \/ exists a, m = Ok a.
Proof. destruct m; [right | left]; eexists; reflexivity. Qed.

Lemma not_raises_Ok {A} (a : A) : ~ raises (Ok a).
Proof. intros [e He]. discriminate. Qed.

Lemma np_index_Ok n i k :
  np_index n i = Ok k ->
  (k < n)%nat /\
  ((0 <= i /\ k = Z.to_nat i) \/ (i < 0 /\ k = Z.to_nat (i + Z.of_nat n))) /\
  - Z.of_nat n <= i < Z.of_nat n.
Proof.
  unfold np_index. repeat case_decide; intros [= <-]; lia.
Qed.

Lemma np_index_in_range n i :
  0 <= i < Z.of_nat n -> np_index n i = Ok (Z.to_nat i).
Proof. intros. unfold np_index. case_decide; [done | lia]. Qed.

Lemma np_index_nat n (k : nat) :
  (k < n)%nat -> np_index n (Z.of_nat k) = Ok k.
Proof.
  intros. rewrite np_index_in_range by lia. by rewrite Nat2Z.id.
Qed.

Lemma np_index_outside n i :
  i < - Z.of_nat n \/ Z.of_nat n <= i -> np_index n i = Raise IndexError.
Proof. intros. unfold np_index. repeat case_decide; first [lia | done]. Qed.

Lemma item_Ok {A} (l : list A) i a : item l i = Ok a <-> l !! i = Some a.
Proof. unfold item. destruct (l !! i); split; congruence. Qed.

Lemma item_lt {A} (l : list A) i :
  (i < length l)%nat -> exists a, item l i = Ok a /\ l !! i = Some a.
Proof.
  intros H. destruct (lookup_lt_is_Some_2 l i H) as [a Ha].
  exists a. split; [by apply item_Ok | done].
Qed.

Lemma get1_Ok {A} (l : list A) i a :
  get1 l i = Ok a ->
  exists k, np_index (length l) i = Ok k /\ l !! k = Some a.
Proof.
  unfold get1. intros (k & Hk & Ha)%bind_Ok. exists k.
  by rewrite <- item_Ok.
Qed.

Lemma get1_nat {A} (l : list A) (k : nat) a :
  l !! k = Some a -> get1 l (Z.of_nat k) = Ok a.
Proof.
  intros H. unfold get1.
  rewrite np_index_nat by (by eapply lookup_lt_Some).
  simpl. by apply item_Ok.
Qed.

Lemma get1_outside {A} (l : list A) i :
  i < - Z.of_nat (length l) \/ Z.of_nat (length l) <= i ->
  get1 l i = Raise IndexError.
Proof. intros. unfold get1. by rewrite np_index_outside. Qed.

Lemma get2_Ok {A} (a : list (list A)) i j v :
  get2 a i j = Ok v ->
  exists ki row kj,
    np_index (length a) i = Ok ki /\ a !! ki = Some row /\
    np_index (length row) j = Ok kj /\ row !! kj = Some v.
Proof.
  unfold get2. intros (row & (ki & Hki & Hrow)%get1_Ok & Hv)%bind_Ok.
  apply get1_Ok in Hv as (kj & Hkj & Hv). eauto 8.
Qed.

Lemma get2_nat {A} (a : list (list A)) (i j : nat) row v :
  a !! i = Some row -> row !! j = Some v ->
  get2 a (Z.of_nat i) (Z.of_nat j) = Ok v.
Proof.
  intros Hrow Hv. unfold get2. rewrite (get1_nat _ _ _ Hrow). simpl.
  by apply get1_nat.
Qed.

Lemma rectangular_lookup {A} (a : list (list A)) k row :
  rectangular a -> a !! k = Some row -> length row = shape1 a.
Proof.
  unfold rectangular. rewrite Forall_lookup. intros H Hk. exact (H _ _ Hk).
Qed.

Lemma get2_column_range {A} (a : list (list A)) i j v :
  rectangular a -> get2 a i j = Ok v ->
  - Z.of_nat (shape1 a) <= j < Z.of_nat (shape1 a).
Proof.
  intros Hrect (ki & row & kj & _ & Hrow & Hkj & _)%get2_Ok.
  rewrite <- (rectangular_lookup _ _ _ Hrect Hrow).
  by apply np_index_Ok in Hkj as (_ & _ & ?).
Qed.

(** A loop raises as soon as one element makes its body raise, whatever
    was accumulated before. *)
Lemma for_each_raises {A B} (I : B -> Prop) (body : B -> A -> result B) l b :
  I b ->
  (forall b a b', I b -> body b a = Ok b' -> I b') ->
  Exists (fun a => forall b, I b -> raises (body b a)) l ->
  raises (for_each body l b).
Proof.
  intros Hb Hpres Hex. revert b Hb.
  induction Hex as [a l Ha | a l _ IH]; intros b Hb; simpl.
  - by apply bind_raises_l, Ha.
  - destruct (raises_or_Ok (body b a)) as [Hr | [b' Hb']].
    + by apply bind_raises_l.
    + rewrite Hb'. simpl. eauto.
Qed.

(** ** [process] *)

Definition symbol_outside (fsm : FiniteStateMachine) (x : Z) : Prop :=
  x < - Z.of_nat (num_input_symbols fsm) \/
  Z.of_nat (num_input_symbols fsm) <= x.

Lemma process_from_outside fsm xs s :
  rectangular (next_states fsm) ->
  Exists (symbol_outside fsm) xs ->
  raises (process_from fsm xs s).
Proof.
  intros Hrect Hex. revert s.
  induction Hex as [x xs Hx | x xs _ IH]; intros s; simpl.
  - destruct (raises_or_Ok (get2 (outputs fsm) s x)) as [Hr | [y ->]];
      [by apply bind_raises_l |]. simpl.
    apply bind_raises_l.
    destruct (raises_or_Ok (get2 (next_states fsm) s x)) as [Hr | [s' Hs']];
      [done |].
    apply (get2_column_range _ _ _ _ Hrect) in Hs'.
    unfold symbol_outside, num_input_symbols in Hx. lia.
  - destruct (get2 (outputs fsm) s x) as [y | e]; simpl; [| by eexists].
    destruct (get2 (next_states fsm) s x) as [s' | e]; simpl; [| by eexists].
    by apply bind_raises_l.
Qed.

(** ** Construction *)

Definition square (n : nat) (a : list (list Z)) : Prop :=
  length a = n /\ Forall (fun row => length row = n) a.

Lemma square_full n v : square n (full n n v).
Proof.
  split; [apply length_replicate |].
  apply Forall_replicate, length_replicate.
Qed.

Lemma set2_Ok (a : list (list Z)) i j v a' :
  set2 a i j v = Ok a' ->
  exists ki row kj,
    np_index (length a) i = Ok ki /\ a !! ki = Some row /\
    np_index (length row) j = Ok kj /\ a' = <[ki:=<[kj:=v]> row]> a.
Proof.
  unfold set2. intros (ki & Hki & (row & Hrow%item_Ok & H)%bind_Ok)%bind_Ok.
  apply bind_Ok in H as (row' & Hset & [= <-]).
  unfold set1 in Hset. apply bind_Ok in Hset as (kj & Hkj & [= <-]).
  eauto 8.
Qed.

Lemma set2_square n a i j v a' :
  square n a -> set2 a i j v = Ok a' -> square n a'.
Proof.
  intros [Hlen Hrows] (ki & row & kj & _ & Hrow & _ & ->)%set2_Ok.
  split; [by rewrite length_insert |].
  apply Forall_insert; [done |]. rewrite length_insert.
  rewrite Forall_lookup in Hrows. eauto.
Qed.

Lemma set2_outside n a i j v :
  square n a ->
  j < - Z.of_nat n \/ Z.of_nat n <= j ->
  raises (set2 a i j v).
Proof.
  intros [Hlen Hrows] Hj.
  destruct (raises_or_Ok (set2 a i j v)) as [Hr | [a' Ha']]; [done |].
  apply set2_Ok in Ha' as (ki & row & kj & _ & Hrow & Hkj & _).
  rewrite Forall_lookup in Hrows. rewrite (Hrows _ _ Hrow) in Hkj.
  apply np_index_Ok in Hkj. lia.
Qed.

Definition state_outside (n : nat) (s : Z) : Prop :=
  s < - Z.of_nat n \/ Z.of_nat n <= s.

Definition edges_square (n : nat) (edges : list (list Z) * list (list Z))
  : Prop :=
  square n edges.1 /\ square n edges.2.

Lemma post_init_edge_square n outs state_from edges e edges' :
  edges_square n edges ->
  post_init_edge outs state_from edges e = Ok edges' ->
  edges_square n edges'.
Proof.
  destruct e as [x state_to], edges as [ie oe]. intros [Hie Hoe]. simpl.
  intros (ie' & Hie' & (y & _ & (oe' & Hoe' & [= <-])%bind_Ok)%bind_Ok)%bind_Ok.
  split; simpl; eauto using set2_square.
Qed.

Lemma post_init_edge_outside n outs state_from edges x state_to :
  edges_square n edges -> state_outside n state_to ->
  raises (post_init_edge outs state_from edges (x, state_to)).
Proof.
  destruct edges as [ie oe]. intros [Hie _] Hout. simpl.
  by apply bind_raises_l, (set2_outside n).
Qed.

Lemma for_each_square {A} n (body : _ -> A -> _) l edges edges' :
  (forall b a b', edges_square n b -> body b a = Ok b' -> edges_square n b') ->
  edges_square n edges ->
  for_each body l edges = Ok edges' ->
  edges_square n edges'.
Proof.
  intros Hbody. revert edges.
  induction l as [| a l IH]; simpl; intros edges Hsq.
  - by intros [= <-].
  - intros (b' & Hb' & Hrest)%bind_Ok. eauto.
Qed.

Lemma post_init_row_square n ns outs edges state_from edges' :
  edges_square n edges ->
  post_init_row ns outs edges state_from = Ok edges' ->
  edges_square n edges'.
Proof.
  intros Hsq (row & _ & Hloop)%bind_Ok.
  eapply for_each_square; [| exact Hsq | exact Hloop].
  intros b a b'. apply post_init_edge_square.
Qed.

Lemma Exists_enumerate {A} (P : A -> Prop) (l : list A) :
  Exists P l -> Exists (fun e => P e.2) (enumerate l).
Proof.
  unfold enumerate. generalize 0%nat.
  induction l as [| a l IH]; intros k; [by rewrite Exists_nil |].
  rewrite Exists_cons. simpl. rewrite Exists_cons. intros [Ha | Hl]; eauto.
Qed.

Lemma attrs_post_init_outside ns outs :
  Exists (Exists (state_outside (length ns))) ns ->
  raises (attrs_post_init ns outs).
Proof.
  intros Hex. unfold attrs_post_init. set (n := length ns).
  apply (for_each_raises (edges_square n)).
  - split; apply square_full.
  - intros b a b'. apply post_init_row_square.
  - apply Exists_exists in Hex as (row & Hrow & Hbad).
    apply list_elem_of_lookup in Hrow as [k Hk].
    apply Exists_exists. exists k. split.
    + apply elem_of_seq. apply lookup_lt_Some in Hk. lia.
    + intros b Hb. unfold post_init_row.
      replace (item ns k) with (Ok row) by (symmetry; by apply item_Ok).
      simpl. apply (for_each_raises (edges_square n)); [done | |].
      * intros ? ? ?. apply post_init_edge_square.
      * eapply Exists_impl; [apply Exists_enumerate, Hbad |].
        intros [x st] Hst b0 Hb0. by eapply post_init_edge_outside.
Qed.

(** C6, as amended: a symbol beyond the last column, or below minus the
    number of columns, makes [process] raise; nothing is returned. *)
Theorem process_out_of_range fsm input_sequence initial_state :
  rectangular (next_states fsm) ->
  Exists (symbol_outside fsm) input_sequence ->
  raises (process fsm input_sequence initial_state).
Proof. apply process_from_outside. Qed.

Lemma process_out_of_range_witness :
  raises (process example_fsm [1; 0; 2; 1] 0).
Proof.
  apply process_out_of_range.
  - unfold rectangular. simpl. repeat constructor.
  - do 2 apply Exists_cons_tl. apply Exists_cons_hd.
    unfold symbol_outside, num_input_symbols. simpl. lia.
Defined.

(** C6 as stated fails: the symbol [-1] lies outside [[0, 2)], yet
    [process] runs to the end, reading the last column. *)
Lemma process_negative_symbol_accepted :
  ~ (0 <= -1 < Z.of_nat (num_input_symbols example_fsm)) /\
  process example_fsm [1; -1; 0] 0 = Ok ([3; 2; 2], 2) /\
  ~ raises (process example_fsm [1; -1; 0] 0).
Proof.
  split; [simpl; lia |]. split; [vm_compute; reflexivity |].
  apply not_raises_Ok.
Qed.

(** C7, as amended: ragged tables, and a next state at or beyond
    [num_states] or below [- num_states], make the constructor raise. *)
Theorem construction_rejects next_states outputs :
  ~ rectangular next_states \/ ~ rectangular outputs \/
  Exists (Exists (state_outside (length next_states))) next_states ->
  raises (new_FiniteStateMachine next_states outputs).
Proof.
  intros H. unfold new_FiniteStateMachine, asarray.
  destruct (decide (rectangular next_states)) as [Hns | Hns];
    [| eexists; reflexivity]. simpl.
  destruct (decide (rectangular outputs)) as [Hos | Hos];
    [| eexists; reflexivity]. simpl.
  destruct H as [H | [H | H]]; [done | done |].
  by apply bind_raises_l, attrs_post_init_outside.
Qed.

Lemma construction_rejects_witness :
  raises (new_FiniteStateMachine [[0; 1]; [2; 0]] [[0; 1]; [1; 0]]).
Proof.
  apply construction_rejects. right. right.
  apply Exists_cons_tl, Exists_cons_hd, Exists_cons_hd.
  unfold state_outside. simpl. lia.
Defined.

(** C7 as stated fails: the entries [-1] and [-2] lie outside
    [[0, num_states)], yet the machine is built; they address states from
    the end. *)
Lemma construction_accepts_negative_state :
  new_FiniteStateMachine [[0; -1]; [-2; 1]] [[0; 1]; [1; 0]] =
  Ok {| next_states := [[0; -1]; [-2; 1]];
        outputs := [[0; 1]; [1; 0]];
        _input_edges := [[0; 1]; [0; 1]];
        _output_edges := [[0; 1]; [1; 0]] |}.
Proof. vm_compute. reflexivity. Qed.

(** C5: [num_output_symbols] is the largest output, not one more; on the
    docstring machine it is [3] although the output [3] is used. *)
Theorem num_output_symbols_example :
  num_output_symbols example_fsm = Ok 3 /\
  3 ∈ concat (outputs example_fsm) /\
  ~ (forall y, y ∈ concat (outputs example_fsm) -> 0 <= y < 3).
Proof.
  split; [vm_compute; reflexivity |].
  assert (H : 3 ∈ concat (outputs example_fsm)).
  { simpl. rewrite !elem_of_cons. auto. }
  split; [done |]. intros Hall. apply Hall in H. lia.
Qed.

(** ** [float64] *)

Abbreviation float := spec_float (only parsing).

Definition prec : Z := 53.
Definition emax : Z := 1024.

Definition fadd : float -> float -> float := SFadd prec emax.
Definition flt : float -> float -> bool := SFltb.
Definition feq : float -> float -> bool := SFeqb.
Definition finf : float := S754_infinity false.
Definition fzero : float := S754_zero false.
Definition fone : float := Eval vm_compute in SFone prec emax.
Definition is_nan (a : float) : bool :=
  match a with S754_nan => true | _ => false end.

(** A value a Python [float] can hold. *)
Definition is_float64 (a : float) : Prop := valid_binary prec emax a = true.

(** *** The order *)

Ltac compare_cases :=
  repeat match goal with
    | |- context [PosDef.Pos.compare_cont Eq ?p ?q] =>
        change (PosDef.Pos.compare_cont Eq p q) with (Pos.compare p q)
    end;
  repeat match goal with
    | |- context [(?a ?= ?b)%Z] => destruct (Z.compare_spec a b)
    | |- context [(?a ?= ?b)%positive] => destruct (Pos.compare_spec a b)
    end.

Lemma flt_irrefl a : flt a a = false.
Proof.
  unfold flt, SFltb.
  destruct a as [[] | [] | | [] m e]; simpl; try reflexivity;
    compare_cases; simpl; done || lia.
Qed.

Lemma flt_trans a b c : flt a b = true -> flt b c = true -> flt a c = true.
Proof.
  unfold flt, SFltb.
  destruct a as [[] | [] | | [] ma ea], b as [[] | [] | | [] mb eb],
    c as [[] | [] | | [] mc ec]; simpl; try done;
    compare_cases; simpl; try done; lia.
Qed.

Lemma feq_flt_trans a b c : feq a b = true -> flt b c = true -> flt a c = true.
Proof.
  unfold feq, flt, SFeqb, SFltb.
  destruct a as [[] | [] | | [] ma ea], b as [[] | [] | | [] mb eb],
    c as [[] | [] | | [] mc ec]; simpl; try done;
    compare_cases; simpl; try done; lia.
Qed.

Lemma flt_not_nan a b : flt a b = true -> is_nan a = false /\ is_nan b = false.
Proof. destruct a as [[] | [] | |], b as [[] | [] | |]; done. Qed.

(** [m'] is what a stored metric [m] can become: itself, or something
    strictly smaller. *)
Definition lowered (m' m : float) : Prop := m' = m \/ flt m' m = true.

Lemma lowered_refl m : lowered m m.
Proof. by left. Qed.

Lemma lowered_trans a b c : lowered a b -> lowered b c -> lowered a c.
Proof.
  intros [-> | Hab] [-> | Hbc]; unfold lowered; eauto using flt_trans.
Qed.

Lemma not_flt_lowered c m' m :
  flt c m = false -> lowered m' m -> flt c m' = false.
Proof.
  intros Hc [-> | Hm]; [done |].
  destruct (flt c m') eqn:E; [| done].
  by rewrite (flt_trans _ _ _ E Hm) in Hc.
Qed.

(** *** Sums of non-negative values *)

Lemma digits2_pos_size m : digits2_pos m = Pos.size m.
Proof. induction m; simpl; congruence. Qed.

Lemma shr_1_m r : 0 <= shr_m r -> shr_m (shr_1 r) = Z.div2 (shr_m r).
Proof. destruct r as [[| [p | p |] | p] ? ?]; simpl; done || lia. Qed.

Lemma iter_shr_1_m p r :
  0 <= shr_m r -> shr_m (SpecFloat.iter_pos shr_1 p r) = Z.shiftr (shr_m r) (Z.pos p).
Proof.
  revert r. induction p as [p IH | p IH |]; intros r Hr; simpl.
  - assert (H1 : 0 <= shr_m (shr_1 r)).
    { rewrite shr_1_m by done. by apply Z.div2_nonneg. }
    assert (H2 : 0 <= shr_m (SpecFloat.iter_pos shr_1 p (shr_1 r))).
    { rewrite IH by done. by apply Z.shiftr_nonneg. }
    rewrite IH, IH, shr_1_m by done.
    rewrite Z.div2_spec, !Z.shiftr_shiftr by lia. f_equal. lia.
  - assert (H2 : 0 <= shr_m (SpecFloat.iter_pos shr_1 p r)).
    { rewrite IH by done. by apply Z.shiftr_nonneg. }
    rewrite IH, IH by done. rewrite Z.shiftr_shiftr by lia. f_equal. lia.
  - rewrite shr_1_m by done. apply Z.div2_spec.
Qed.

Lemma shiftr_pos_digits m n :
  0 <= n < Z.pos (Pos.size m) -> 0 < Z.shiftr (Z.pos m) n.
Proof.
  intros Hn. rewrite Z.shiftr_div_pow2 by lia.
  apply Z.div_str_pos. split; [lia |].
  pose proof (Pos.size_le m) as Hle.
  assert (H2 : 2 ^ Z.pos (Pos.size m) <= 2 * Z.pos m).
  { change (2 * Z.pos m) with (Z.pos m~0).
    rewrite <- Pos2Z.inj_pow. by apply Pos2Z.pos_le_pos. }
  assert (2 ^ n * 2 <= 2 ^ Z.pos (Pos.size m)); [| lia].
  replace (2 ^ n * 2) with (2 ^ (n + 1)) by (rewrite Z.pow_add_r; lia).
  apply Z.pow_le_mono_r; lia.
Qed.

Lemma shr_fexp_pos m e l :
  emin prec emax <= e ->
  0 < shr_m (shr_fexp prec emax (Z.pos m) e l).1 /\
  emin prec emax <= (shr_fexp prec emax (Z.pos m) e l).2.
Proof.
  intros He. unfold shr_fexp, shr, fexp. simpl Zdigits2.
  assert (Hm : shr_m (shr_record_of_loc (Z.pos m) l) = Z.pos m)
    by (by destruct l as [| []]).
  destruct (Z.max (Z.pos (digits2_pos m) + e - prec) (emin prec emax) - e)
    as [| p | p] eqn:E; simpl; rewrite ?Hm; try lia.
  rewrite iter_shr_1_m by (rewrite Hm; lia). rewrite Hm.
  split; [| lia]. apply shiftr_pos_digits.
  rewrite <- digits2_pos_size. unfold prec in *. lia.
Qed.

(** A stored path metric, when every cost is non-negative. *)
Definition path_metric (a : float) : Prop :=
  match a with
  | S754_zero s => s = false
  | S754_infinity s => s = false
  | S754_nan => False
  | S754_finite s m e => s = false /\ emin prec emax <= e
  end.

(** A non-negative cost. *)
Definition cost (b : float) : Prop :=
  match b with
  | S754_zero s => True
  | S754_infinity s => s = false
  | S754_nan => False
  | S754_finite s m e => s = false /\ emin prec emax <= e
  end.

Definition positive_metric (a : float) : Prop :=
  match a with
  | S754_infinity s => s = false
  | S754_finite s m e => s = false /\ emin prec emax <= e
  | _ => False
  end.

Lemma binary_round_aux_pos m e :
  emin prec emax <= e ->
  positive_metric (binary_round_aux prec emax false (Z.pos m) e loc_Exact).
Proof.
  intros He. unfold binary_round_aux.
  pose proof (shr_fexp_pos m e loc_Exact He) as [Hm1 He1].
  destruct (shr_fexp prec emax (Z.pos m) e loc_Exact) as [r1 e1].
  simpl in Hm1, He1.
  assert (Hr : 0 < round_nearest_even (shr_m r1) (loc_of_shr_record r1)).
  { unfold round_nearest_even.
    destruct (loc_of_shr_record r1) as [| []]; try lia.
    destruct (Z.even (shr_m r1)); lia. }
  destruct (round_nearest_even (shr_m r1) (loc_of_shr_record r1))
    as [| m2 | m2]; try lia.
  pose proof (shr_fexp_pos m2 e1 loc_Exact He1) as [Hm2 He2].
  destruct (shr_fexp prec emax (Z.pos m2) e1 loc_Exact) as [r2 e2].
  simpl in Hm2, He2.
  destruct (shr_m r2) as [| m3 | m3]; try lia.
  destruct (e2 <=? emax - prec); simpl; auto.
Qed.

Lemma binary_round_pos m e :
  emin prec emax <= e ->
  positive_metric (binary_round prec emax false m e).
Proof.
  intros He. unfold binary_round, shl_align.
  set (e' := fexp prec emax (Z.pos (digits2_pos m) + e)).
  assert (emin prec emax <= e') by (unfold e', fexp; lia).
  destruct (e' - e); by apply binary_round_aux_pos.
Qed.

Lemma fadd_finite_pos mx ex my ey :
  emin prec emax <= ex -> emin prec emax <= ey ->
  positive_metric (fadd (S754_finite false mx ex) (S754_finite false my ey)).
Proof.
  intros Hx Hy. unfold fadd, SFadd. simpl.
  apply binary_round_pos. lia.
Qed.

Lemma positive_path_metric a : positive_metric a -> path_metric a.
Proof. by destruct a. Qed.

Lemma positive_flt a : positive_metric a -> flt fzero a = true.
Proof.
  destruct a as [s | s | | s m e]; simpl; try done;
    [intros -> | intros [-> _]]; done.
Qed.

Ltac float_case a := destruct a as [[] | [] | | [] ? ?].
Ltac float_trivial :=
  simpl; intros;
  repeat match goal with H : _ /\ _ |- _ => destruct H end;
  try done.

Lemma fadd_path_metric a b : path_metric a -> cost b -> path_metric (fadd a b).
Proof.
  float_case a; float_case b; try (float_trivial; fail).
  intros [_ Ha] [_ Hb]. by apply positive_path_metric, fadd_finite_pos.
Qed.

Lemma fadd_positive a b :
  path_metric a -> cost b -> flt fzero b = true -> positive_metric (fadd a b).
Proof.
  float_case a; float_case b; try (float_trivial; fail).
  intros [_ Ha] [_ Hb] _. by apply fadd_finite_pos.
Qed.

Lemma fadd_zero_cost a b : path_metric a -> feq b fzero = true -> fadd a b = a.
Proof. float_case a; float_case b; float_trivial. Qed.

Lemma path_metric_not_below_zero a :
  path_metric a -> flt fzero a = false -> a = fzero.
Proof. float_case a; float_trivial. Qed.

Lemma float64_cost b :
  is_float64 b -> feq b fzero = true \/ flt fzero b = true -> cost b.
Proof.
  unfold is_float64.
  float_case b; simpl; try done; try (by intros _ [|]).
  unfold bounded, canonical_mantissa, fexp.
  intros [Hc _]%andb_prop _. apply Z.eqb_eq in Hc.
  split; [done | lia].
Qed.

(** ** Decoding *)

Fixpoint mapM {A B} (f : A -> result B) (l : list A) : result (list B) :=
  match l with
  | [] => Ok []
  | a :: l' => do b <- f a; do bs <- mapM f l'; Ok (b :: bs)
  end.

(** The array of [MetricMemory], a [TypedDict] with the keys ["paths"] and
    ["metrics"]. *)
Record MetricMemory := {
  paths : list (list Z);
  metrics : list (list float)
}.

(** [np.roll(row, shift=-1)]. *)
Definition roll_left {A} (row : list A) : list A :=
  match row with
  | [] => []
  | a :: row' => row' ++ [a]
  end.

(** [a[:, -1] = column], with NumPy's broadcasting of a single value. *)
Definition set_last_column {A} (a : list (list A)) (column : list A)
  : result (list (list A)) :=
  if decide (length column = length a) then
    mapM (fun rv => set1 rv.1 (-1) rv.2) (zip a column)
  else
    match column with
    | [v] => mapM (fun row => set1 row (-1) v) a
    | _ => Raise ValueError
    end.

(** [np.argmin]: the first index of the least value; a NaN counts as
    least. *)
Fixpoint argmin_from (best : nat) (least : float) (i : nat) (a : list float)
  : nat :=
  match a with
  | [] => best
  | v :: a' =>
      if negb (is_nan least) && (flt v least || is_nan v)
      then argmin_from i v (S i) a'
      else argmin_from best least (S i) a'
  end.

Definition argmin (a : list float) : result nat :=
  match a with
  | [] => Raise ValueError
  | v :: a' => Ok (argmin_from 0 v 1 a')
  end.

Section Decoding.
Context {Obs : Type}.
Variable fsm : FiniteStateMachine.
Variable metric_function : Z -> Obs -> float.

(** The body of the innermost loop of [viterbi] and [viterbi_streaming]:
    [metric_of s0] reads [metrics[t, s0]], respectively
    [memory["metrics"][s0, -1]]; [new] is [metrics[t + 1, :]],
    respectively [new_metrics]. *)
Definition relax_edge (metric_of : nat -> result float) (z : Obs)
    (s0 : nat) (st : list float * list Z) (e : Z * Z)
  : result (list float * list Z) :=
  let '(s1, y) := e in
  let '(new, choices) := st in
  do m0 <- metric_of s0;
  let candidate_metric := fadd m0 (metric_function y z) in
  do m1 <- get1 new s1;
  if flt candidate_metric m1 then
    do new' <- set1 new s1 candidate_metric;
    do choices' <- set1 choices s1 (Z.of_nat s0);
    Ok (new', choices')
  else Ok st.

(** [for s1, y in zip(self.next_states[s0], self.outputs[s0])]. *)
Definition relax_state (metric_of : nat -> result float) (z : Obs)
    (st : list float * list Z) (s0 : nat)
  : result (list float * list Z) :=
  do row_next <- item (next_states fsm) s0;
  do row_out <- item (outputs fsm) s0;
  for_each (relax_edge metric_of z s0) (zip row_next row_out) st.

(** [for s0 in range(num_states)]. *)
Definition relax_all (metric_of : nat -> result float) (z : Obs)
    (new : list float) (choices : list Z)
  : result (list float * list Z) :=
  for_each (relax_state metric_of z) (seq 0 (num_states fsm)) (new, choices).

(** *** Block decoding *)

(** [metrics[0, :] = ...]. *)
Definition initial_row (initial_metrics : option (list float))
  : result (list float) :=
  match initial_metrics with
  | None => Ok (replicate (num_states fsm) fzero)
  | Some im =>
      if decide (length im = num_states fsm) then Ok im
      else match im with
           | [v] => Ok (replicate (num_states fsm) v)
           | _ => Raise ValueError
           end
  end.

(** The forward pass.  Iteration [t] reads row [t] of [metrics] and writes
    row [t + 1], which [np.full] filled with [inf], and row [t] of
    [choices], which [np.empty] left with whatever [empty_int] holds. *)
Fixpoint viterbi_forward (empty_int : nat -> nat -> Z) (t : nat)
    (observed_sequence : list Obs) (metrics_t : list float)
  : result (list (list Z) * list float) :=
  match observed_sequence with
  | [] => Ok ([], metrics_t)
  | z :: zs =>
      do '(metrics_t1, choices_t) <-
        relax_all (item metrics_t) z
          (replicate (num_states fsm) finf)
          (map (empty_int t) (seq 0 (num_states fsm)));
      do '(choices, metrics_L) <- viterbi_forward empty_int (S t) zs metrics_t1;
      Ok (choices_t :: choices, metrics_L)
  end.

(** The backtracking of one final state, over the rows of [choices] from
    the last to the first; the result is in time order. *)
Fixpoint backtrack (choices_rev : list (list Z)) (s1 : Z)
  : result (list Z) :=
  match choices_rev with
  | [] => Ok []
  | row :: rest =>
      do s0 <- get1 row s1;
      do x <- get2 (input_edges fsm) s0 s1;
      do xs <- backtrack rest s0;
      Ok (xs ++ [x])
  end.

(** The array whose column [s] is [columns[s]]. *)
Definition from_columns (L : nat) (columns : list (list Z))
  : list (list Z) :=
  map (fun t => map (fun col => default 0 (col !! t)) columns) (seq 0 L).

Definition viterbi (empty_int : nat -> nat -> Z)
    (observed_sequence : list Obs) (initial_metrics : option (list float))
  : result (list (list Z) * list float) :=
  do metrics_0 <- initial_row initial_metrics;
  do '(choices, metrics_L) <-
    viterbi_forward empty_int 0 observed_sequence metrics_0;
  do columns <-
    mapM (fun final_state =>
            backtrack (reverse choices) (Z.of_nat final_state))
      (seq 0 (num_states fsm));
  Ok (from_columns (length observed_sequence) columns, metrics_L).

(** *** Streaming decoding *)

(** [s0, s1 = memory["paths"][s_star, :2]]. *)
Definition first_two (row : list Z) : result (Z * Z) :=
  match row with
  | [] | [_] => Raise ValueError
  | s0 :: s1 :: _ => Ok (s0, s1)
  end.

(** The body of [for s1, s0 in enumerate(choices)]; rows of one array have
    one length, so the two slices [[:-1]] have the same shape. *)
Definition extend_path (paths_copy : list (list Z))
    (paths : list (list Z)) (e : nat * Z) : result (list (list Z)) :=
  let '(s1, s0) := e in
  do source <- get1 paths_copy s0;
  do target <- item paths s1;
  do target' <- set1 (removelast source ++ drop (length target - 1) target)
                  (-1) (Z.of_nat s1);
  Ok (<[s1:=target']> paths).

Definition streaming_step (memory : MetricMemory) (z : Obs)
  : result (Z * MetricMemory) :=
  do '(new_metrics, choices) <-
    relax_all (fun s0 => get2 (metrics memory) (Z.of_nat s0) (-1)) z
      (replicate (num_states fsm) finf) (replicate (num_states fsm) 0);
  do s_star <- argmin new_metrics;
  do row <- item (paths memory) s_star;
  do '(s0, s1) <- first_two row;
  do x <- get2 (input_edges fsm) s0 s1;
  do metrics' <- set_last_column (map roll_left (metrics memory)) new_metrics;
  let rolled := map roll_left (paths memory) in
  do paths' <- for_each (extend_path rolled) (enumerate choices) rolled;
  Ok (x, {| paths := paths'; metrics := metrics' |}).

(** [viterbi_streaming] returns the decisions; the updated [memory] is what
    the caller's dictionary holds afterwards. *)
Fixpoint viterbi_streaming (observed_sequence : list Obs)
    (memory : MetricMemory) : result (list Z * MetricMemory) :=
  match observed_sequence with
  | [] => Ok ([], memory)
  | z :: zs =>
      do '(x, memory') <- streaming_step memory z;
      do '(xs, memory'') <- viterbi_streaming zs memory';
      Ok (x :: xs, memory'')
  end.
End Decoding.

(** ** [ConvolutionalStreamDecoder] *)

(** [__attrs_post_init__], for a code whose machine has [num_states]
    states. *)
Definition stream_decoder_memory (num_states : nat) (traceback_length : Z)
    (state : Z) : result MetricMemory :=
  if decide (traceback_length + 1 < 0) then Raise ValueError
  else
    let width := Z.to_nat (traceback_length + 1) in
    do metrics' <- set2 (full num_states width finf) state (-1) fzero;
    Ok {| paths := full num_states width 0; metrics := metrics' |}.

(** The Hamming-like cost on output symbols: zero on the observed symbol,
    one elsewhere. *)
Definition exact_metric (y z : Z) : float :=
  if decide (y = z) then fzero else fone.

(** ** Loop invariants *)

(** An invariant indexed by the number of iterations done; the body never
    raises while it holds. *)
Lemma for_each_invariant {A B} (I : nat -> B -> Prop)
    (body : B -> A -> result B) l b :
  I 0%nat b ->
  (forall n a b, l !! n = Some a -> I n b ->
     exists b', body b a = Ok b' /\ I (S n) b') ->
  exists r, for_each body l b = Ok r /\ I (length l) r.
Proof.
  revert I b. induction l as [| a l IH]; intros I b H0 Hstep; simpl.
  - eauto.
  - destruct (Hstep 0%nat a b eq_refl H0) as (b' & -> & Hb'). simpl.
    apply (IH (fun n => I (S n))); [done |].
    intros n a' b0 Ha'. by apply (Hstep (S n)).
Qed.

(** ** Well-formed machines *)

Record well_formed (fsm : FiniteStateMachine) : Prop := {
  wf_next_shape :
    Forall (fun row => length row = num_input_symbols fsm) (next_states fsm);
  wf_next_range :
    Forall (Forall (fun s => 0 <= s < Z.of_nat (num_states fsm)))
      (next_states fsm);
  wf_out_rows : length (outputs fsm) = num_states fsm;
  wf_out_shape :
    Forall (fun row => length row = num_input_symbols fsm) (outputs fsm)
}.

(** The transition function [T], by table lookup. *)
Definition next_state (fsm : FiniteStateMachine) (s x : nat) : nat :=
  Z.to_nat (default 0 (next_states fsm !! s ≫= fun row => row !! x)).
Definition output (fsm : FiniteStateMachine) (s x : nat) : Z :=
  default 0 (outputs fsm !! s ≫= fun row => row !! x).

Section WellFormed.
Variable fsm : FiniteStateMachine.
Hypothesis Hwf : well_formed fsm.

Lemma next_states_lookup s x :
  (s < num_states fsm)%nat -> (x < num_input_symbols fsm)%nat ->
  exists row, next_states fsm !! s = Some row /\
    length row = num_input_symbols fsm /\
    row !! x = Some (Z.of_nat (next_state fsm s x)) /\
    (next_state fsm s x < num_states fsm)%nat.
Proof.
  intros Hs Hx. destruct Hwf as [Hshape Hrange _ _].
  destruct (lookup_lt_is_Some_2 (next_states fsm) s Hs) as [row Hrow].
  rewrite Forall_lookup in Hshape. specialize (Hshape _ _ Hrow).
  rewrite Forall_lookup in Hrange. specialize (Hrange _ _ Hrow).
  destruct (lookup_lt_is_Some_2 row x) as [v Hv]; [lia |].
  rewrite Forall_lookup in Hrange. specialize (Hrange _ _ Hv).
  exists row. unfold next_state. rewrite Hrow. simpl. rewrite Hv. simpl.
  rewrite Z2Nat.id by lia. repeat split; [done .. | lia].
Qed.

Lemma outputs_lookup s x :
  (s < num_states fsm)%nat -> (x < num_input_symbols fsm)%nat ->
  exists row, outputs fsm !! s = Some row /\
    length row = num_input_symbols fsm /\
    row !! x = Some (output fsm s x).
Proof.
  intros Hs Hx. destruct Hwf as [_ _ Hrows Hshape].
  destruct (lookup_lt_is_Some_2 (outputs fsm) s) as [row Hrow]; [lia |].
  rewrite Forall_lookup in Hshape. specialize (Hshape _ _ Hrow).
  destruct (lookup_lt_is_Some_2 row x) as [v Hv]; [lia |].
  exists row. unfold output. rewrite Hrow. simpl. rewrite Hv. done.
Qed.

Lemma get2_next_states s x :
  (s < num_states fsm)%nat -> (x < num_input_symbols fsm)%nat ->
  get2 (next_states fsm) (Z.of_nat s) (Z.of_nat x) =
    Ok (Z.of_nat (next_state fsm s x)).
Proof.
  intros Hs Hx.
  destruct (next_states_lookup s x Hs Hx) as (row & Hrow & _ & Hv & _).
  by eapply get2_nat.
Qed.

Lemma get2_outputs s x :
  (s < num_states fsm)%nat -> (x < num_input_symbols fsm)%nat ->
  get2 (outputs fsm) (Z.of_nat s) (Z.of_nat x) = Ok (output fsm s x).
Proof.
  intros Hs Hx.
  destruct (outputs_lookup s x Hs Hx) as (row & Hrow & _ & Hv).
  by eapply get2_nat.
Qed.
End WellFormed.

Lemma set1_nat {A} (a : list A) (k : nat) v :
  (k < length a)%nat -> set1 a (Z.of_nat k) v = Ok (<[k:=v]> a).
Proof. intros H. unfold set1. by rewrite np_index_nat. Qed.

(** ** One time step of the forward pass *)

Section Relax.
Context {Obs : Type}.
Variable fsm : FiniteStateMachine.
Hypothesis Hwf : well_formed fsm.
Variable metric_function : Z -> Obs -> float.
Variable metric_of : nat -> result float.
Variable prev : nat -> float.
Hypothesis Hprev :
  forall s0, (s0 < num_states fsm)%nat -> metric_of s0 = Ok (prev s0).
Variable z : Obs.
Variable choices0 : list Z.
Hypothesis Hchoices0 : length choices0 = num_states fsm.

(** The candidate metric of the edge that leaves [s0] on input [x]. *)
Definition candidate (s0 x : nat) : float :=
  fadd (prev s0) (metric_function (output fsm s0 x) z).

(** The edge [(s0, x)] leads to [j]. *)
Definition edge_into (j s0 x : nat) : Prop :=
  (s0 < num_states fsm)%nat /\ (x < num_input_symbols fsm)%nat /\
  next_state fsm s0 x = j.

(** The edge [(s0, x)] is enumerated before the edge [(k, i)]. *)
Definition enumerated_before (k i s0 x : nat) : Prop :=
  (s0 < k)%nat \/ (s0 = k /\ (x < i)%nat).

(** What slot [j] of the new metrics and of the choices holds once the
    edges before [(k, i)] are done. *)
Definition slot_ok (k i j : nat) (m : float) (c : Z) : Prop :=
  (forall s0 x, enumerated_before k i s0 x -> edge_into j s0 x ->
     flt (candidate s0 x) m = false) /\
  ((m = finf /\ choices0 !! j = Some c) \/
   exists s0 x, enumerated_before k i s0 x /\ edge_into j s0 x /\
     m = candidate s0 x /\ c = Z.of_nat s0 /\ flt m finf = true /\
     forall s0' x', enumerated_before k i s0' x' -> edge_into j s0' x' ->
       feq (candidate s0' x') m = true -> (s0 <= s0')%nat).

Definition relax_inv (k i : nat) (st : list float * list Z) : Prop :=
  length st.1 = num_states fsm /\ length st.2 = num_states fsm /\
  forall j, (j < num_states fsm)%nat ->
    exists m c, st.1 !! j = Some m /\ st.2 !! j = Some c /\ slot_ok k i j m c.

Lemma slot_ok_same_edges k i k' i' j m c :
  (forall s0 x, edge_into j s0 x ->
     enumerated_before k i s0 x <-> enumerated_before k' i' s0 x) ->
  slot_ok k i j m c -> slot_ok k' i' j m c.
Proof.
  intros Heq [Hmin Hwin]. split.
  - intros s0 x Hb He. apply Hmin; [by apply Heq | done].
  - destruct Hwin as [? | (s0 & x & Hb & He & -> & -> & Hlt & Hfirst)];
      [by left | right].
    exists s0, x. split_and!; try done; [by apply Heq |].
    intros s0' x' Hb' He'. apply Hfirst; [by apply Heq | done].
Qed.

Lemma enumerated_before_next k i s0 x :
  enumerated_before k (S i) s0 x <->
  enumerated_before k i s0 x \/ (s0 = k /\ x = i).
Proof. unfold enumerated_before. lia. Qed.

Lemma slot_ok_other k i j m c :
  (k < num_states fsm)%nat -> next_state fsm k i <> j ->
  slot_ok k i j m c -> slot_ok k (S i) j m c.
Proof.
  intros Hk Hne. apply slot_ok_same_edges.
  intros s0 x (_ & _ & He). rewrite enumerated_before_next.
  split; [by left |]. intros [? | [-> ->]]; done.
Qed.

Lemma slot_ok_kept k i j m c :
  edge_into j k i -> flt (candidate k i) m = false ->
  slot_ok k i j m c -> slot_ok k (S i) j m c.
Proof.
  intros He Hno [Hmin Hwin]. split.
  - intros s0 x [Hb | [-> ->]]%enumerated_before_next He'; auto.
  - destruct Hwin as [? | (s0 & x & Hb & He0 & -> & -> & Hlt & Hfirst)];
      [by left | right].
    exists s0, x. split_and!; try done.
    { apply enumerated_before_next. by left. }
    intros s0' x' [Hb' | [-> ->]]%enumerated_before_next He' Htie;
      [by eapply Hfirst |].
    unfold enumerated_before in Hb. lia.
Qed.

Lemma slot_ok_replaced k i j m c :
  edge_into j k i -> flt (candidate k i) m = true ->
  slot_ok k i j m c ->
  slot_ok k (S i) j (candidate k i) (Z.of_nat k).
Proof.
  intros He Hlt [Hmin Hwin].
  assert (Hlow : lowered (candidate k i) m) by (by right).
  split.
  - intros s0 x [Hb | [-> ->]]%enumerated_before_next He'.
    + eapply not_flt_lowered; eauto.
    + apply flt_irrefl.
  - right. exists k, i. split_and!; try done.
    + apply enumerated_before_next. by right.
    + destruct Hwin as [[-> _] | (s0 & x & _ & _ & _ & _ & Hm & _)];
        [done | by eapply flt_trans].
    + intros s0' x' [Hb' | [-> ->]]%enumerated_before_next He' Htie;
        [| done].
      pose proof (feq_flt_trans _ _ _ Htie Hlt) as Hcontra.
      by rewrite (Hmin _ _ Hb' He') in Hcontra.
Qed.

Lemma relax_edge_inv k i st :
  (k < num_states fsm)%nat -> (i < num_input_symbols fsm)%nat ->
  relax_inv k i st ->
  exists st',
    relax_edge metric_function metric_of z k st
      (Z.of_nat (next_state fsm k i), output fsm k i) = Ok st' /\
    relax_inv k (S i) st'.
Proof.
  intros Hk Hi (Hlen1 & Hlen2 & Hslots). destruct st as [new choices].
  simpl in *.
  destruct (next_states_lookup fsm Hwf k i Hk Hi) as (_ & _ & _ & _ & Hj0).
  set (j0 := next_state fsm k i) in *.
  assert (He : edge_into j0 k i) by done.
  destruct (Hslots j0 Hj0) as (m1 & c1 & Hm1 & Hc1 & Hslot).
  rewrite (Hprev k Hk). simpl.
  rewrite (get1_nat _ _ _ Hm1). simpl.
  fold (candidate k i).
  destruct (flt (candidate k i) m1) eqn:Hcmp.
  - rewrite !set1_nat by lia. simpl. eexists. split; [done |].
    unfold relax_inv. simpl. rewrite !length_insert.
    split_and!; try done.
    intros j Hj. destruct (decide (j = j0)) as [-> | Hne].
    + exists (candidate k i), (Z.of_nat k).
      rewrite !list_lookup_insert_eq by lia.
      split_and!; try done. by eapply slot_ok_replaced.
    + destruct (Hslots j Hj) as (m & c & Hm & Hc & Hs).
      exists m, c. rewrite !list_lookup_insert_ne by done.
      split_and!; try done. apply slot_ok_other; [done | | done].
      fold j0. congruence.
  - eexists. split; [done |]. unfold relax_inv. simpl.
    split_and!; try done.
    intros j Hj. destruct (decide (j = j0)) as [-> | Hne].
    + exists m1, c1. split_and!; try done. by apply slot_ok_kept.
    + destruct (Hslots j Hj) as (m & c & Hm & Hc & Hs).
      exists m, c. split_and!; try done.
      apply slot_ok_other; [done | | done]. fold j0. congruence.
Qed.

Lemma relax_inv_next_state k st :
  relax_inv k (num_input_symbols fsm) st -> relax_inv (S k) 0 st.
Proof.
  intros (Hlen1 & Hlen2 & Hslots). split_and!; try done.
  intros j Hj. destruct (Hslots j Hj) as (m & c & Hm & Hc & Hs).
  exists m, c. split_and!; try done.
  revert Hs. apply slot_ok_same_edges.
  intros s0 x (_ & Hx & _). unfold enumerated_before. lia.
Qed.

Lemma relax_state_inv k st :
  (k < num_states fsm)%nat -> relax_inv k 0 st ->
  exists st',
    relax_state fsm metric_function metric_of z st k = Ok st' /\
    relax_inv (S k) 0 st'.
Proof.
  intros Hk Hinv. unfold relax_state.
  destruct (lookup_lt_is_Some_2 (next_states fsm) k Hk) as [rn Hrn].
  destruct (lookup_lt_is_Some_2 (outputs fsm) k) as [ro Hro];
    [by rewrite (wf_out_rows _ Hwf) |].
  assert (Hlenn : length rn = num_input_symbols fsm).
  { pose proof (wf_next_shape _ Hwf) as H.
    rewrite Forall_lookup in H. eauto. }
  assert (Hleno : length ro = num_input_symbols fsm).
  { pose proof (wf_out_shape _ Hwf) as H.
    rewrite Forall_lookup in H. eauto. }
  replace (item (next_states fsm) k) with (Ok rn)
    by (symmetry; by apply item_Ok).
  replace (item (outputs fsm) k) with (Ok ro)
    by (symmetry; by apply item_Ok).
  simpl.
  destruct (for_each_invariant (relax_inv k)
              (relax_edge metric_function metric_of z k) (zip rn ro) st)
    as (st' & Hst' & Hinv'); [done | |].
  - intros n [s1 y] b Hn Hb.
    apply lookup_zip_with_Some in Hn as (s1' & y' & [= <- <-] & Hs1 & Hy).
    assert (Hnx : (n < num_input_symbols fsm)%nat)
      by (rewrite <- Hlenn; by eapply lookup_lt_Some).
    destruct (next_states_lookup fsm Hwf k n Hk Hnx)
      as (rn' & Hrn' & _ & Hv & _).
    destruct (outputs_lookup fsm Hwf k n Hk Hnx) as (ro' & Hro' & _ & Hw).
    assert (rn' = rn) as -> by congruence.
    assert (ro' = ro) as -> by congruence.
    assert (s1 = Z.of_nat (next_state fsm k n)) as -> by congruence.
    assert (y = output fsm k n) as -> by congruence.
    by apply relax_edge_inv.
  - exists st'. split; [done |]. apply relax_inv_next_state.
    rewrite length_zip_with, Hlenn, Hleno, Nat.min_id in Hinv'. done.
Qed.

Lemma relax_all_inv :
  exists st,
    relax_all fsm metric_function metric_of z
      (replicate (num_states fsm) finf) choices0 = Ok st /\
    relax_inv (num_states fsm) 0 st.
Proof.
  unfold relax_all.
  destruct (for_each_invariant (fun k => relax_inv k 0)
              (relax_state fsm metric_function metric_of z)
              (seq 0 (num_states fsm))
              (replicate (num_states fsm) finf, choices0))
    as (st & Hst & Hinv).
  - split; [apply length_replicate |]. split; [done |]. simpl.
    intros j Hj.
    destruct (lookup_lt_is_Some_2 choices0 j) as [c Hc]; [lia |].
    exists finf, c. rewrite lookup_replicate_2 by done.
    split_and!; try done. split; [| by left].
    intros s0 x Hb. unfold enumerated_before in Hb. lia.
  - intros n a b [-> Hn]%lookup_seq Hb. by apply relax_state_inv.
  - rewrite length_seq in Hinv. eauto.
Qed.
End Relax.

(** [metrics[t, s0]], as a total function of [s0]. *)
Definition metric_at (row : list float) (s0 : nat) : float :=
  default S754_nan (row !! s0).

Lemma item_metric_at (row : list float) s0 :
  (s0 < length row)%nat -> item row s0 = Ok (metric_at row s0).
Proof.
  intros H. destruct (lookup_lt_is_Some_2 row s0 H) as [m Hm].
  unfold item, metric_at. by rewrite Hm.
Qed.

Lemma feq_flt_exclusive a b : feq a b = true -> flt a b = false.
Proof.
  unfold feq, flt, SFeqb, SFltb. by destruct (SFcompare a b) as [[] |].
Qed.

(** The machine [s' = s xor x] whose output is the input, and a cost that
    never tells two outputs apart: every candidate ties. *)
Definition tie_fsm : FiniteStateMachine :=
  {| next_states := [[1; 0]; [0; 1]];
     outputs := [[0; 1]; [0; 1]];
     _input_edges := [[1; 0]; [0; 1]];
     _output_edges := [[1; 0]; [0; 1]] |}.

Lemma tie_fsm_constructed :
  new_FiniteStateMachine [[1; 0]; [0; 1]] [[0; 1]; [0; 1]] = Ok tie_fsm.
Proof. vm_compute. reflexivity. Qed.

Definition constant_metric (y : Z) (z : unit) : float := fone.

(** C8 as stated fails: into state [0] the edges [(s0 = 0, x = 1)] and
    [(s0 = 1, x = 0)] tie; the lower source state wins, and the decoded
    symbol is [1], not the lowest tied symbol [0]. *)
Lemma viterbi_tie_not_lowest_symbol :
  viterbi tie_fsm constant_metric (fun _ _ => 0) [()] None =
    Ok ([[1; 0]], [fone; fone]) /\
  edge_into tie_fsm 0 0 1 /\ edge_into tie_fsm 0 1 0 /\
  candidate tie_fsm constant_metric (metric_at [fzero; fzero]) () 1 0 =
    candidate tie_fsm constant_metric (metric_at [fzero; fzero]) () 0 1.
Proof.
  split; [vm_compute; reflexivity |].
  unfold edge_into, num_states, num_input_symbols, next_state. simpl.
  split_and!; first [lia | reflexivity].
Qed.

(** C8, as amended: in one time step of the forward pass no candidate is
    below the stored metric, and a candidate below [inf] that ties with the
    stored metric comes from a source state at or after the stored
    predecessor, whose own candidate is the stored metric. *)
Theorem viterbi_tie_break {Obs} (fsm : FiniteStateMachine)
    (metric_function : Z -> Obs -> float) (metrics_t : list float) (z : Obs)
    (choices_t : list Z) :
  well_formed fsm ->
  length metrics_t = num_states fsm ->
  length choices_t = num_states fsm ->
  exists metrics_t1 choices_t',
    relax_all fsm metric_function (item metrics_t) z
      (replicate (num_states fsm) finf) choices_t =
      Ok (metrics_t1, choices_t') /\
    forall s1 s0 x, edge_into fsm s1 s0 x ->
      let c := candidate fsm metric_function (metric_at metrics_t) z s0 x in
      exists m p,
        metrics_t1 !! s1 = Some m /\ choices_t' !! s1 = Some p /\
        flt c m = false /\
        (feq c m = true -> flt c finf = true ->
         exists s0' x',
           p = Z.of_nat s0' /\ (s0' <= s0)%nat /\ edge_into fsm s1 s0' x' /\
           m = candidate fsm metric_function (metric_at metrics_t) z s0' x').
Proof.
  intros Hwf Hlen Hch.
  destruct (relax_all_inv fsm Hwf metric_function (item metrics_t)
              (metric_at metrics_t)
              (fun s0 H => item_metric_at metrics_t s0
                             (eq_ind_r (fun n => (s0 < n)%nat) H Hlen))
              z choices_t Hch)
    as ([new ch] & Hrun & _ & _ & Hslots).
  exists new, ch. split; [done |].
  intros s1 s0 x He c. pose proof He as (Hs0 & Hx & Hs1).
  assert (Hj : (s1 < num_states fsm)%nat).
  { destruct (next_states_lookup fsm Hwf s0 x Hs0 Hx) as (_ & _ & _ & _ & H).
    by rewrite Hs1 in H. }
  destruct (Hslots s1 Hj) as (m & p & Hm & Hp & Hmin & Hwin).
  simpl in Hm, Hp. exists m, p.
  assert (Hb : enumerated_before (num_states fsm) 0 s0 x) by (by left).
  split_and!; try done; [by apply Hmin |].
  intros Htie Hfin.
  destruct Hwin as [[-> _] | (s0' & x' & _ & He' & Hm' & -> & _ & Hfirst)].
  - apply feq_flt_exclusive in Htie. fold c in Htie. congruence.
  - exists s0', x'. split_and!; try done. by eapply Hfirst.
Qed.

Ltac solve_well_formed :=
  constructor; unfold num_states, num_input_symbols; simpl;
  repeat (constructor; simpl; try lia); try reflexivity.

Lemma example_fsm_well_formed : well_formed example_fsm.
Proof. solve_well_formed. Qed.

Lemma tie_fsm_well_formed : well_formed tie_fsm.
Proof. solve_well_formed. Qed.

Lemma viterbi_tie_break_witness :
  exists metrics_t1 choices_t',
    relax_all tie_fsm constant_metric (item [fzero; fzero]) ()
      (replicate (num_states tie_fsm) finf) [0; 0] =
      Ok (metrics_t1, choices_t') /\
    forall s1 s0 x, edge_into tie_fsm s1 s0 x ->
      let c := candidate tie_fsm constant_metric
                 (metric_at [fzero; fzero]) () s0 x in
      exists m p,
        metrics_t1 !! s1 = Some m /\ choices_t' !! s1 = Some p /\
        flt c m = false /\
        (feq c m = true -> flt c finf = true ->
         exists s0' x',
           p = Z.of_nat s0' /\ (s0' <= s0)%nat /\
           edge_into tie_fsm s1 s0' x' /\
           m = candidate tie_fsm constant_metric
                 (metric_at [fzero; fzero]) () s0' x').
Proof.
  apply (viterbi_tie_break tie_fsm constant_metric [fzero; fzero] () [0; 0]).
  - exact tie_fsm_well_formed.
  - reflexivity.
  - reflexivity.
Defined.

(** ** The initial memory of the stream decoder *)

Lemma fadd_inf_not_below cost : flt (fadd finf cost) finf = false.
Proof. by destruct cost as [[] | [] | | [] m e]. Qed.

Lemma lookup_full {A} (n m : nat) (v : A) s j :
  (s < n)%nat -> (j < m)%nat -> full n m v !! s ≫= (fun row => row !! j) = Some v.
Proof.
  intros Hs Hj. unfold full. rewrite lookup_replicate_2 by done. simpl.
  by rewrite lookup_replicate_2.
Qed.

Lemma length_full {A} (n m : nat) (v : A) : length (full n m v) = n.
Proof. apply length_replicate. Qed.



(** ** The edge tables of a well-formed machine *)

(** The derived tables are those [__attrs_post_init__] computes. *)
Definition constructed (fsm : FiniteStateMachine) : Prop :=
  attrs_post_init (next_states fsm) (outputs fsm) =
    Ok (_input_edges fsm, _output_edges fsm).

(** No two inputs take a state to the same next state, and two edges into
    one state that leave different states carry different outputs. *)
Definition unambiguous (fsm : FiniteStateMachine) : Prop :=
  forall s x s' x',
    (s < num_states fsm)%nat -> (x < num_input_symbols fsm)%nat ->
    (s' < num_states fsm)%nat -> (x' < num_input_symbols fsm)%nat ->
    next_state fsm s x = next_state fsm s' x' ->
    (s = s' -> x = x') /\ (output fsm s x = output fsm s' x' -> s = s').

Lemma set2_nat (a : list (list Z)) (i j : nat) row v :
  a !! i = Some row -> (j < length row)%nat ->
  set2 a (Z.of_nat i) (Z.of_nat j) v = Ok (<[i:=<[j:=v]> row]> a).
Proof.
  intros Hrow Hj. unfold set2.
  rewrite np_index_nat by (by eapply lookup_lt_Some). simpl.
  replace (item a i) with (Ok row) by (symmetry; by apply item_Ok).
  simpl. by rewrite set1_nat.
Qed.

Lemma lookup_enumerate {A} (l : list A) n e :
  enumerate l !! n = Some e -> e.1 = n /\ l !! n = Some e.2.
Proof.
  unfold enumerate. intros (k & a & -> & Hk & Ha)%lookup_zip_with_Some.
  apply lookup_seq in Hk as [-> _]. done.
Qed.

Section EdgeTables.
Variable fsm : FiniteStateMachine.
Hypothesis Hwf : well_formed fsm.
Hypothesis Hunamb : unambiguous fsm.

Definition edge_tables_inv (k i : nat)
    (edges : list (list Z) * list (list Z)) : Prop :=
  edges_square (num_states fsm) edges /\
  forall s x, enumerated_before k i s x ->
    (s < num_states fsm)%nat -> (x < num_input_symbols fsm)%nat ->
    edges.1 !! s ≫= (fun row => row !! next_state fsm s x) =
      Some (Z.of_nat x).

Lemma post_init_edge_inv k i edges :
  (k < num_states fsm)%nat -> (i < num_input_symbols fsm)%nat ->
  edge_tables_inv k i edges ->
  exists edges',
    post_init_edge (outputs fsm) k edges
      (i, Z.of_nat (next_state fsm k i)) = Ok edges' /\
    edge_tables_inv k (S i) edges'.
Proof.
  intros Hk Hi [[Hie Hoe] Hinv]. destruct edges as [ie oe]. simpl in *.
  destruct (next_states_lookup fsm Hwf k i Hk Hi) as (_ & _ & _ & _ & Hj).
  set (j := next_state fsm k i) in *.
  destruct Hie as [Hiel Hier], Hoe as [Hoel Hoer].
  destruct (lookup_lt_is_Some_2 ie k) as [ri Hri]; [lia |].
  destruct (lookup_lt_is_Some_2 oe k) as [ro Hro]; [lia |].
  assert (Hril : length ri = num_states fsm)
    by (rewrite Forall_lookup in Hier; eauto).
  assert (Hrol : length ro = num_states fsm)
    by (rewrite Forall_lookup in Hoer; eauto).
  rewrite (set2_nat _ _ _ _ _ Hri) by lia. simpl.
  rewrite (get2_outputs fsm Hwf k i Hk Hi). simpl.
  rewrite (set2_nat _ _ _ _ _ Hro) by lia. simpl.
  eexists. split; [reflexivity |]. split.
  - split; simpl; (split; [by rewrite length_insert |]);
      (apply Forall_insert; [done | by rewrite length_insert]).
  - simpl. intros s x Hb Hs Hx.
    destruct (decide (s = k)) as [-> | Hne].
    + rewrite list_lookup_insert_eq by lia. simpl.
      destruct (decide (x = i)) as [-> | Hxi].
      * fold j. by rewrite list_lookup_insert_eq by lia.
      * assert (Hjx : next_state fsm k x <> j).
        { intros Heq. destruct (Hunamb k x k i Hk Hx Hk Hi Heq) as [H _].
          by apply Hxi, H. }
        rewrite list_lookup_insert_ne by done.
        assert (Hb' : enumerated_before k i k x)
          by (unfold enumerated_before in *; lia).
        specialize (Hinv k x Hb' Hs Hx). by rewrite Hri in Hinv.
    + rewrite list_lookup_insert_ne by done. apply Hinv; [| done | done].
      unfold enumerated_before in *. lia.
Qed.

Lemma post_init_row_inv k edges :
  (k < num_states fsm)%nat ->
  edge_tables_inv k 0 edges ->
  exists edges',
    post_init_row (next_states fsm) (outputs fsm) edges k = Ok edges' /\
    edge_tables_inv (S k) 0 edges'.
Proof.
  intros Hk Hinv. unfold post_init_row.
  destruct (lookup_lt_is_Some_2 (next_states fsm) k Hk) as [rn Hrn].
  assert (Hlenn : length rn = num_input_symbols fsm).
  { pose proof (wf_next_shape _ Hwf) as H.
    rewrite Forall_lookup in H. eauto. }
  replace (item (next_states fsm) k) with (Ok rn)
    by (symmetry; by apply item_Ok).
  simpl.
  destruct (for_each_invariant (edge_tables_inv k)
              (post_init_edge (outputs fsm) k) (enumerate rn) edges)
    as (edges' & Hrun & Hinv'); [done | |].
  - intros n [x st] b [Hx Hst]%lookup_enumerate Hb. simpl in Hx, Hst.
    subst x.
    assert (Hnx : (n < num_input_symbols fsm)%nat)
      by (rewrite <- Hlenn; by eapply lookup_lt_Some).
    destruct (next_states_lookup fsm Hwf k n Hk Hnx)
      as (rn' & Hrn' & _ & Hv & _).
    assert (rn' = rn) as -> by congruence.
    assert (st = Z.of_nat (next_state fsm k n)) as -> by congruence.
    by apply post_init_edge_inv.
  - exists edges'. split; [done |].
    unfold enumerate in Hinv'.
    rewrite length_zip_with, length_seq, Nat.min_id, Hlenn in Hinv'.
    destruct Hinv' as [Hsq Hinv']. split; [done |].
    intros s x Hb Hs Hx. apply Hinv'; [| done | done].
    unfold enumerated_before in *. lia.
Qed.

Lemma attrs_post_init_inv :
  exists edges,
    attrs_post_init (next_states fsm) (outputs fsm) = Ok edges /\
    edge_tables_inv (num_states fsm) 0 edges.
Proof.
  unfold attrs_post_init. fold (num_states fsm).
  destruct (for_each_invariant (fun k => edge_tables_inv k 0)
              (post_init_row (next_states fsm) (outputs fsm))
              (seq 0 (num_states fsm))
              (full (num_states fsm) (num_states fsm) (-1),
               full (num_states fsm) (num_states fsm) (-1)))
    as (edges & Hrun & Hinv).
  - split; [split; apply square_full |].
    intros s x Hb. unfold enumerated_before in Hb. lia.
  - intros n a b [-> Hn]%lookup_seq Hb. by apply post_init_row_inv.
  - rewrite length_seq in Hinv. eauto.
Qed.

Hypothesis Hcons : constructed fsm.

Lemma input_edges_square : square (num_states fsm) (input_edges fsm).
Proof.
  destruct attrs_post_init_inv as (edges & Hrun & [[Hsq _] _]).
  unfold constructed in Hcons. rewrite Hcons in Hrun.
  injection Hrun as <-. exact Hsq.
Qed.

Lemma input_edges_edge s x :
  (s < num_states fsm)%nat -> (x < num_input_symbols fsm)%nat ->
  get2 (input_edges fsm) (Z.of_nat s) (Z.of_nat (next_state fsm s x)) =
    Ok (Z.of_nat x).
Proof.
  intros Hs Hx.
  destruct attrs_post_init_inv as (edges & Hrun & [_ Hinv]).
  unfold constructed in Hcons. rewrite Hcons in Hrun.
  injection Hrun as <-. simpl in Hinv.
  assert (Hb : enumerated_before (num_states fsm) 0 s x) by (by left).
  specialize (Hinv s x Hb Hs Hx).
  unfold input_edges.
  destruct (_input_edges fsm !! s) as [row |] eqn:Hrow; [| done].
  simpl in Hinv. by eapply get2_nat.
Qed.
End EdgeTables.

(** ** Columns of the decoded array *)

(** Column [s] of a 2-D array. *)
Definition column (a : list (list Z)) (s : nat) : list Z :=
  map (fun row => default 0 (row !! s)) a.

Lemma column_from_columns L columns s col :
  columns !! s = Some col -> length col = L ->
  column (from_columns L columns) s = col.
Proof.
  intros Hcol Hlen. unfold column, from_columns. rewrite map_map.
  apply list_eq. intros t. rewrite list_lookup_fmap.
  destruct (decide (t < L)%nat) as [Ht | Ht].
  - rewrite lookup_seq_lt by done. simpl.
    rewrite list_lookup_fmap, Hcol. simpl.
    destruct (lookup_lt_is_Some_2 col t) as [v Hv]; [lia |].
    by rewrite Hv.
  - rewrite lookup_seq_ge by lia. simpl. symmetry.
    apply lookup_ge_None. lia.
Qed.

Lemma mapM_Ok {A B} (f : A -> result B) l r :
  mapM f l = Ok r ->
  length r = length l /\
  forall i a, l !! i = Some a -> exists b, r !! i = Some b /\ f a = Ok b.
Proof.
  revert r. induction l as [| a l IH]; simpl; intros r.
  - intros [= <-]. split; [done |]. intros i a Hi. done.
  - intros (b & Hb & (bs & Hbs & [= <-])%bind_Ok)%bind_Ok.
    destruct (IH bs Hbs) as [Hlen Hall]. split; [simpl; lia |].
    intros [| i] a'; simpl; [intros [= <-]; eauto |]. apply Hall.
Qed.

Lemma mapM_total {A B} (f : A -> result B) l :
  Forall (fun a => exists b, f a = Ok b) l -> exists r, mapM f l = Ok r.
Proof.
  induction 1 as [| a l [b Hb] _ [r Hr]]; simpl; [eauto |].
  rewrite Hb. simpl. rewrite Hr. simpl. eauto.
Qed.

(** ** Decoding a noiseless observation *)

Definition valid_states (n : nat) (row : list Z) : Prop :=
  length row = n /\ Forall (fun s => 0 <= s < Z.of_nat n) row.

Section Noiseless.
Variable fsm : FiniteStateMachine.
Hypothesis Hwf : well_formed fsm.
Hypothesis Hcons : constructed fsm.
Hypothesis Hunamb : unambiguous fsm.
Variable metric_function : Z -> Z -> float.
Hypothesis Hfloat : forall y z, is_float64 (metric_function y z).
Hypothesis Hzero : forall y, feq (metric_function y y) fzero = true.
Hypothesis Hpos :
  forall y z, y <> z -> flt fzero (metric_function y z) = true.

Lemma metric_function_cost y z : cost (metric_function y z).
Proof.
  apply float64_cost; [done |].
  destruct (decide (y = z)) as [-> | Hne]; [left | right]; eauto.
Qed.

Definition metrics_row (row : list float) : Prop :=
  length row = num_states fsm /\ Forall path_metric row.

Lemma metric_at_path_metric row s :
  metrics_row row -> (s < num_states fsm)%nat -> path_metric (metric_at row s).
Proof.
  intros [Hlen Hall] Hs. unfold metric_at.
  destruct (lookup_lt_is_Some_2 row s) as [m Hm]; [lia |].
  rewrite Hm. simpl. rewrite Forall_lookup in Hall. eauto.
Qed.

Lemma candidate_path_metric row z s0 x :
  metrics_row row -> (s0 < num_states fsm)%nat ->
  path_metric (candidate fsm metric_function (metric_at row) z s0 x).
Proof.
  intros Hrow Hs0. apply fadd_path_metric;
    [by apply metric_at_path_metric | apply metric_function_cost].
Qed.

(** One step along the true path: the state reached keeps the metric zero
    and records the state it was reached from. *)
Lemma noiseless_step row z choices0 s x :
  metrics_row row -> length choices0 = num_states fsm ->
  (s < num_states fsm)%nat -> (x < num_input_symbols fsm)%nat ->
  row !! s = Some fzero -> z = output fsm s x ->
  exists row' choices,
    relax_all fsm metric_function (item row) z
      (replicate (num_states fsm) finf) choices0 = Ok (row', choices) /\
    metrics_row row' /\ length choices = num_states fsm /\
    row' !! next_state fsm s x = Some fzero /\
    choices !! next_state fsm s x = Some (Z.of_nat s) /\
    (Forall (fun c => 0 <= c < Z.of_nat (num_states fsm)) choices0 ->
     Forall (fun c => 0 <= c < Z.of_nat (num_states fsm)) choices).
Proof.
  intros Hrow Hch Hs Hx Hzero_s Hz. pose proof Hrow as [Hlen _].
  destruct (relax_all_inv fsm Hwf metric_function (item row) (metric_at row)
              (fun s0 H => item_metric_at row s0
                             (eq_ind_r (fun n => (s0 < n)%nat) H Hlen))
              z choices0 Hch)
    as ([row' choices] & Hrun & Hl1 & Hl2 & Hslots).
  simpl in Hl1, Hl2, Hslots.
  exists row', choices. split; [done |].
  assert (Hrow' : metrics_row row').
  { split; [done |]. apply Forall_lookup. intros j m Hm.
    destruct (Hslots j) as (m' & c & Hm' & _ & _ & Hwin);
      [by rewrite <- Hl1; eapply lookup_lt_Some |].
    assert (m' = m) as -> by congruence.
    destruct Hwin as [[-> _] | (s0 & x0 & _ & (Hs0 & _) & -> & _)];
      [done | by apply candidate_path_metric]. }
  destruct (next_states_lookup fsm Hwf s x Hs Hx) as (_ & _ & _ & _ & Hj).
  set (j := next_state fsm s x) in *.
  destruct (Hslots j Hj) as (m & c & Hm & Hc & Hmin & Hwin).
  assert (Htrue : candidate fsm metric_function (metric_at row) z s x = fzero).
  { unfold candidate, metric_at. rewrite Hzero_s. subst z.
    apply (fadd_zero_cost fzero); [done | apply Hzero]. }
  assert (Hm0 : m = fzero).
  { apply path_metric_not_below_zero.
    - destruct Hrow' as [_ Hall]. rewrite Forall_lookup in Hall. eauto.
    - rewrite <- Htrue. apply Hmin; [by left | done]. }
  subst m. split_and!; try done.
  - destruct Hwin as [[Hcontra _] | (s0 & x0 & _ & He & Hm0 & -> & _)];
      [done |].
    destruct He as (Hs0 & Hx0 & Hnext).
    destruct (decide (output fsm s0 x0 = z)) as [Hout | Hout].
    + destruct (Hunamb s0 x0 s x Hs0 Hx0 Hs Hx Hnext) as [_ Hsame].
      rewrite Hsame in Hc by congruence. done.
    + exfalso. apply Hpos in Hout.
      pose proof (fadd_positive _ _
                    (metric_at_path_metric row s0 Hrow Hs0)
                    (metric_function_cost (output fsm s0 x0) z) Hout) as Hp.
      apply positive_flt in Hp. fold (candidate fsm metric_function
        (metric_at row) z s0 x0) in Hp.
      rewrite <- Hm0 in Hp. by rewrite flt_irrefl in Hp.
  - intros Hgarbage. apply Forall_lookup. intros i ci Hci.
    destruct (Hslots i) as (mi & ci' & _ & Hci' & _ & Hwin');
      [by rewrite <- Hl2; eapply lookup_lt_Some |].
    assert (ci' = ci) as -> by congruence.
    destruct Hwin' as [[_ H0] | (s0 & x0 & _ & (Hs0 & _) & _ & -> & _)].
    + rewrite Forall_lookup in Hgarbage. eauto.
    + lia.
Qed.

Lemma process_from_cons xs s x :
  (s < num_states fsm)%nat -> (x < num_input_symbols fsm)%nat ->
  process_from fsm (Z.of_nat x :: xs) (Z.of_nat s) =
    (do '(ys, final_state) <-
       process_from fsm xs (Z.of_nat (next_state fsm s x));
     Ok (output fsm s x :: ys, final_state)).
Proof.
  intros Hs Hx. simpl.
  rewrite (get2_outputs fsm Hwf s x Hs Hx). simpl.
  by rewrite (get2_next_states fsm Hwf s x Hs Hx).
Qed.

Lemma backtrack_length choices_rev s col :
  backtrack fsm choices_rev s = Ok col -> length col = length choices_rev.
Proof.
  revert s col. induction choices_rev as [| row rest IH]; simpl; intros s col.
  - by intros [= <-].
  - intros (s0 & _ & (x & _ & (xs & Hxs & [= <-])%bind_Ok)%bind_Ok)%bind_Ok.
    rewrite length_app. simpl. rewrite (IH _ _ Hxs). lia.
Qed.

Lemma get2_square n (a : list (list Z)) i j :
  square n a -> 0 <= i < Z.of_nat n -> 0 <= j < Z.of_nat n ->
  exists v, get2 a i j = Ok v.
Proof.
  intros [Hlen Hrows] Hi Hj.
  destruct (lookup_lt_is_Some_2 a (Z.to_nat i)) as [row Hrow]; [lia |].
  assert (Hl : length row = n) by (rewrite Forall_lookup in Hrows; eauto).
  destruct (lookup_lt_is_Some_2 row (Z.to_nat j)) as [v Hv]; [lia |].
  exists v. rewrite <- (Z2Nat.id i), <- (Z2Nat.id j) by lia.
  by eapply get2_nat.
Qed.

Lemma backtrack_total choices_rev s :
  Forall (valid_states (num_states fsm)) choices_rev ->
  0 <= s < Z.of_nat (num_states fsm) ->
  exists col, backtrack fsm choices_rev s = Ok col.
Proof.
  intros Hall. revert s.
  induction Hall as [| row rest [Hlen Hrow] _ IH]; intros s Hs; simpl.
  - eauto.
  - destruct (lookup_lt_is_Some_2 row (Z.to_nat s)) as [s0 Hs0]; [lia |].
    assert (Hr : 0 <= s0 < Z.of_nat (num_states fsm))
      by (rewrite Forall_lookup in Hrow; eauto).
    assert (Hg : get1 row s = Ok s0).
    { rewrite <- (Z2Nat.id s) by lia. by apply get1_nat. }
    rewrite Hg. simpl.
    destruct (get2_square _ _ s0 s (input_edges_square fsm Hwf Hunamb Hcons)
                Hr Hs) as [x ->].
    simpl. destruct (IH s0 Hr) as [xs ->]. simpl. eauto.
Qed.

Variable empty_int : nat -> nat -> Z.

Definition harmless : Prop :=
  forall t s, 0 <= empty_int t s < Z.of_nat (num_states fsm).

Lemma noiseless_forward input_sequence :
  forall s row t output_sequence final_state,
    (s < num_states fsm)%nat ->
    Forall (fun x => 0 <= x < Z.of_nat (num_input_symbols fsm))
      input_sequence ->
    metrics_row row -> row !! s = Some fzero ->
    process_from fsm input_sequence (Z.of_nat s) =
      Ok (output_sequence, final_state) ->
    exists choices row_L,
      viterbi_forward fsm metric_function empty_int t output_sequence row =
        Ok (choices, row_L) /\
      0 <= final_state < Z.of_nat (num_states fsm) /\
      row_L !! Z.to_nat final_state = Some fzero /\
      length choices = length input_sequence /\
      (harmless -> Forall (valid_states (num_states fsm)) choices) /\
      forall rest,
        backtrack fsm (reverse choices ++ rest) final_state =
          (do pre <- backtrack fsm rest (Z.of_nat s);
           Ok (pre ++ input_sequence)).
Proof.
  induction input_sequence as [| x xs IH];
    intros s row t ys sf Hs Hxs Hrow Hzero_s Hrun.
  - simpl in Hrun. injection Hrun as <- <-. exists [], row. simpl.
    rewrite Nat2Z.id. split_and!; try done; try lia.
    intros rest. destruct (backtrack fsm rest (Z.of_nat s)); simpl; [| done].
    by rewrite app_nil_r.
  - apply Forall_cons in Hxs as [Hx Hxs].
    rewrite <- (Z2Nat.id x) in Hrun by lia.
    set (x' := Z.to_nat x) in *.
    assert (Hx' : (x' < num_input_symbols fsm)%nat) by lia.
    rewrite (process_from_cons xs s x' Hs Hx') in Hrun.
    apply bind_Ok in Hrun as ([ys' sf'] & Hrun' & [= <- <-]).
    destruct (next_states_lookup fsm Hwf s x' Hs Hx') as (_ & _ & _ & _ & Hs').
    set (choices0 := map (empty_int t) (seq 0 (num_states fsm))).
    assert (Hch0 : length choices0 = num_states fsm)
      by (unfold choices0; by rewrite length_map, length_seq).
    destruct (noiseless_step row (output fsm s x') choices0 s x'
                Hrow Hch0 Hs Hx' Hzero_s eq_refl)
      as (row' & ch & Hstep & Hrow' & Hchl & Hz' & Hpred & Hvalid).
    destruct (IH (next_state fsm s x') row' (S t) ys' sf' Hs' Hxs Hrow' Hz'
                Hrun')
      as (cs & row_L & Hfwd & Hsf & HzL & Hlen & Hharm & Hback).
    exists (ch :: cs), row_L. simpl. fold choices0. rewrite Hstep. simpl.
    rewrite Hfwd. simpl. split_and!; try done; try lia.
    + intros Hh. constructor; [| by apply Hharm]. split; [done |].
      apply Hvalid. unfold choices0. apply Forall_map, Forall_forall.
      intros s0 _. apply Hh.
    + intros rest. rewrite reverse_cons, <- app_assoc. simpl.
      rewrite Hback. simpl.
      rewrite (get1_nat _ _ _ Hpred). simpl.
      rewrite (input_edges_edge fsm Hwf Hunamb Hcons s x' Hs Hx'). simpl.
      destruct (backtrack fsm rest (Z.of_nat s)); simpl; [| done].
      rewrite <- app_assoc. simpl. unfold x'. by rewrite Z2Nat.id by lia.
Qed.
End Noiseless.

Lemma process_from_length fsm xs s ys final_state :
  process_from fsm xs s = Ok (ys, final_state) -> length ys = length xs.
Proof.
  revert s ys final_state.
  induction xs as [| x xs IH]; simpl; intros s ys final_state.
  - by intros [= <- _].
  - intros (y & _ & (s' & _ & ([ys' f] & Hrun & [= <- _])%bind_Ok)%bind_Ok)%bind_Ok.
    simpl. by rewrite (IH _ _ _ Hrun).
Qed.

(** The accumulator [s' = s xor x] whose output is the state reached. *)
Definition accumulator_fsm : FiniteStateMachine :=
  {| next_states := [[0; 1]; [1; 0]];
     outputs := [[0; 1]; [1; 0]];
     _input_edges := [[0; 1]; [1; 0]];
     _output_edges := [[0; 1]; [0; 1]] |}.

Lemma accumulator_fsm_constructed :
  new_FiniteStateMachine [[0; 1]; [1; 0]] [[0; 1]; [1; 0]] =
    Ok accumulator_fsm.
Proof. vm_compute. reflexivity. Qed.

Lemma exact_metric_float64 y z : is_float64 (exact_metric y z).
Proof. unfold exact_metric. by case_decide. Qed.

Lemma exact_metric_zero y : feq (exact_metric y y) fzero = true.
Proof. unfold exact_metric. by case_decide. Qed.

Lemma exact_metric_positive y z :
  y <> z -> flt fzero (exact_metric y z) = true.
Proof. intros. unfold exact_metric. by case_decide. Qed.

(** C1 as stated fails: from state [1] the input [[1]] gives the output
    [[0]] and ends in state [0]; decoding [[0]] gives, for the final state
    [0], the input [[0]]: the edge that leaves state [0] ties and comes
    first. *)
Lemma viterbi_noiseless_other_input :
  process accumulator_fsm [1] 1 = Ok ([0], 0) /\
  viterbi accumulator_fsm exact_metric (fun _ _ => 0) [0] None =
    Ok ([[0; 1]], [fzero; fone]) /\
  column [[0; 1]] 0 <> [1].
Proof. split_and!; [vm_compute; reflexivity .. | discriminate]. Qed.

(** C1, as amended: on a machine whose edges into a state are told apart
    by their source and output, decoding the output of [process] gives back
    the input in the column of the final state, with final metric zero,
    whenever [viterbi] returns; and it returns when the cells that
    [np.empty] left in [choices] are states. *)
Theorem viterbi_noiseless (fsm : FiniteStateMachine)
    (metric_function : Z -> Z -> float) (empty_int : nat -> nat -> Z)
    (input_sequence output_sequence : list Z)
    (initial_state final_state : Z) :
  well_formed fsm -> constructed fsm -> unambiguous fsm ->
  (forall y z, is_float64 (metric_function y z)) ->
  (forall y, feq (metric_function y y) fzero = true) ->
  (forall y z, y <> z -> flt fzero (metric_function y z) = true) ->
  0 <= initial_state < Z.of_nat (num_states fsm) ->
  Forall (fun x => 0 <= x < Z.of_nat (num_input_symbols fsm))
    input_sequence ->
  process fsm input_sequence initial_state =
    Ok (output_sequence, final_state) ->
  (harmless fsm empty_int ->
   exists r, viterbi fsm metric_function empty_int output_sequence None = Ok r)
  /\
  forall input_sequences_hat final_metrics,
    viterbi fsm metric_function empty_int output_sequence None =
      Ok (input_sequences_hat, final_metrics) ->
    column input_sequences_hat (Z.to_nat final_state) = input_sequence /\
    final_metrics !! Z.to_nat final_state = Some fzero.
Proof.
  intros Hwf Hcons Hunamb Hfloat Hzero Hpos Hs Hxs Hrun.
  unfold process in Hrun. rewrite <- (Z2Nat.id initial_state) in Hrun by lia.
  assert (Hrow : metrics_row fsm (replicate (num_states fsm) fzero)).
  { split; [apply length_replicate | by apply Forall_replicate]. }
  destruct (noiseless_forward fsm Hwf Hcons Hunamb metric_function
              Hfloat Hzero Hpos empty_int input_sequence
              (Z.to_nat initial_state) (replicate (num_states fsm) fzero)
              0%nat output_sequence final_state)
    as (cs & row_L & Hfwd & Hsf & HzL & Hlen & Hharm & Hback);
    [lia | done | done | by rewrite lookup_replicate_2 by lia | done |].
  unfold viterbi. simpl. rewrite Hfwd. simpl. split.
  - intros Hh.
    destruct (mapM_total
                (fun final_state =>
                   backtrack fsm (reverse cs) (Z.of_nat final_state))
                (seq 0 (num_states fsm))) as [cols Hcols].
    { apply Forall_forall. intros s Hin%elem_of_seq.
      apply backtrack_total; try done; [| lia].
      by apply Forall_reverse, Hharm. }
    rewrite Hcols. simpl. eauto.
  - intros hat fm (cols & Hcols & [= <- <-])%bind_Ok. split; [| done].
    apply mapM_Ok in Hcols as [_ Hcols].
    destruct (Hcols (Z.to_nat final_state) (Z.to_nat final_state))
      as (col & Hcol & Hbt).
    { apply lookup_seq. lia. }
    rewrite Z2Nat.id in Hbt by lia.
    specialize (Hback []). rewrite app_nil_r in Hback. simpl in Hback.
    assert (col = input_sequence) as -> by congruence.
    apply column_from_columns; [done |].
    by apply process_from_length in Hrun.
Qed.

Lemma example_fsm_unambiguous : unambiguous example_fsm.
Proof.
  unfold unambiguous, num_states, num_input_symbols. simpl.
  intros s x s' x' Hs Hx Hs' Hx'.
  assert (Hs4 : (s = 0 \/ s = 1 \/ s = 2 \/ s = 3)%nat) by lia.
  assert (Hs4' : (s' = 0 \/ s' = 1 \/ s' = 2 \/ s' = 3)%nat) by lia.
  assert (Hx2 : (x = 0 \/ x = 1)%nat) by lia.
  assert (Hx2' : (x' = 0 \/ x' = 1)%nat) by lia.
  destruct_or!; subst; vm_compute; intros Hnext;
    first [discriminate | split; intros; first [reflexivity | discriminate]].
Qed.

Lemma viterbi_noiseless_witness :
  (harmless example_fsm (fun _ _ => 0) ->
   exists r,
     viterbi example_fsm exact_metric (fun _ _ => 0) [3; 2; 2; 0; 1] None =
       Ok r) /\
  forall input_sequences_hat final_metrics,
    viterbi example_fsm exact_metric (fun _ _ => 0) [3; 2; 2; 0; 1] None =
      Ok (input_sequences_hat, final_metrics) ->
    column input_sequences_hat (Z.to_nat 2) = [1; 1; 0; 1; 0] /\
    final_metrics !! Z.to_nat 2 = Some fzero.
Proof.
  apply (viterbi_noiseless example_fsm exact_metric (fun _ _ => 0)
           [1; 1; 0; 1; 0] [3; 2; 2; 0; 1] 0 2).
  - exact example_fsm_well_formed.
  - vm_compute. reflexivity.
  - exact example_fsm_unambiguous.
  - exact exact_metric_float64.
  - exact exact_metric_zero.
  - exact exact_metric_positive.
  - unfold num_states. simpl. lia.
  - unfold num_input_symbols. simpl. repeat constructor; lia.
  - vm_compute. reflexivity.
Defined.

(** ** Streaming against block decoding *)

Lemma for_each_ext {A B} (f g : B -> A -> result B) l b :
  (forall a b, a ∈ l -> f b a = g b a) -> for_each f l b = for_each g l b.
Proof.
  revert b. induction l as [| a l IH]; intros b Hfg; simpl; [done |].
  rewrite (Hfg a b) by apply list_elem_of_here.
  destruct (g b a); simpl; [| done].
  apply IH. intros a' b' Ha'. apply Hfg. by apply list_elem_of_further.
Qed.

Lemma for_each_rel {A B1 B2} (R : B1 -> B2 -> Prop)
    (body1 : B1 -> A -> result B1) (body2 : B2 -> A -> result B2) l :
  (forall a b1 b2 r1 r2, R b1 b2 ->
     body1 b1 a = Ok r1 -> body2 b2 a = Ok r2 -> R r1 r2) ->
  forall b1 b2 r1 r2, R b1 b2 ->
    for_each body1 l b1 = Ok r1 -> for_each body2 l b2 = Ok r2 -> R r1 r2.
Proof.
  intros Hstep. induction l as [| a l IH]; simpl; intros b1 b2 r1 r2 HR.
  - by intros [= <-] [= <-].
  - intros (b1' & Hb1 & Hr1)%bind_Ok (b2' & Hb2 & Hr2)%bind_Ok. eauto.
Qed.

Lemma for_each_app {A B} (body : B -> A -> result B) l1 l2 b :
  for_each body (l1 ++ l2) b =
    (do b' <- for_each body l1 b; for_each body l2 b').
Proof.
  revert b. induction l1 as [| a l1 IH]; intros b; simpl; [done |].
  destruct (body b a); simpl; [apply IH | done].
Qed.

(** The last column of a 2-D array of floats. *)
Definition last_column (a : list (list float)) : list float :=
  map (fun row => default S754_nan (last row)) a.

(** The shape of the memory of a decoder with path memory [tau]: two
    arrays of [n] rows and [tau + 1] columns. *)
Definition memory_shape (n tau : nat) (memory : MetricMemory) : Prop :=
  length (paths memory) = n /\
  Forall (fun row => length row = S tau) (paths memory) /\
  length (metrics memory) = n /\
  Forall (fun row => length row = S tau) (metrics memory).

(** A state that some path of finite metric reaches. *)
Definition reached (row : list float) (s : nat) : Prop :=
  flt (metric_at row s) finf = true.

Lemma reached_lt row s : reached row s -> (s < length row)%nat.
Proof.
  unfold reached, metric_at. intros H.
  destruct (row !! s) eqn:E; [by eapply lookup_lt_Some | done].
Qed.

(** The survivor paths of the window: the rows of [memory["paths"]] of the
    states whose last metric is below [inf]. *)
Definition survivors (memory : MetricMemory) : list (list Z) :=
  (filter (fun rm => flt rm.2 finf = true)
     (zip (paths memory) (last_column (metrics memory)))).*1.

(** All survivor paths of the window start with the same edge. *)
Definition converged (memory : MetricMemory) : Prop :=
  Forall (fun r => Forall (fun r' => take 2 r = take 2 r') (survivors memory))
    (survivors memory).

Global Instance converged_dec memory : Decision (converged memory).
Proof. unfold converged. apply _. Defined.

(** From one memory to the next no state is reached for the first time. *)
Definition no_new_survivor (before after : MetricMemory) : Prop :=
  Forall (fun mm => flt mm.2 finf = true -> flt mm.1 finf = true)
    (zip (last_column (metrics before)) (last_column (metrics after))).

Global Instance no_new_survivor_dec before after :
  Decision (no_new_survivor before after).
Proof. unfold no_new_survivor. apply _. Defined.

Lemma survivor_row memory s r :
  reached (last_column (metrics memory)) s -> paths memory !! s = Some r ->
  r ∈ survivors memory.
Proof.
  unfold reached, metric_at. intros Hs Hr.
  destruct (last_column (metrics memory) !! s) as [m |] eqn:Hm; [| done].
  simpl in Hs. unfold survivors. apply list_elem_of_fmap. exists (r, m).
  split; [done |]. apply list_elem_of_filter. split; [done |].
  apply (list_elem_of_lookup_2 _ s). apply lookup_zip_with_Some. eauto.
Qed.

Lemma converged_survivors memory s s' r r' :
  converged memory ->
  reached (last_column (metrics memory)) s -> paths memory !! s = Some r ->
  reached (last_column (metrics memory)) s' -> paths memory !! s' = Some r' ->
  take 2 r = take 2 r'.
Proof.
  intros Hc Hs Hr Hs' Hr'. unfold converged in Hc.
  rewrite Forall_forall in Hc.
  specialize (Hc r (survivor_row _ _ _ Hs Hr)).
  rewrite Forall_forall in Hc. apply Hc. by eapply survivor_row.
Qed.

Lemma no_new_survivor_reached before after s :
  length (metrics before) = length (metrics after) ->
  no_new_survivor before after ->
  reached (last_column (metrics after)) s ->
  reached (last_column (metrics before)) s.
Proof.
  unfold no_new_survivor, reached, metric_at. intros Hlen Hall Hs.
  destruct (last_column (metrics after) !! s) as [m' |] eqn:Hm'; [| done].
  destruct (lookup_lt_is_Some_2 (last_column (metrics before)) s)
    as [m Hm].
  { apply lookup_lt_Some in Hm'. unfold last_column in *.
    rewrite length_map in *. lia. }
  rewrite Hm. simpl in *. rewrite Forall_lookup in Hall.
  apply (Hall s (m, m')); [| done]. apply lookup_zip_with_Some. eauto.
Qed.

(** [np.argmin] of metrics that are [inf] or below: a state that is
    reached, when one is. *)
Lemma flt_below_inf a b : flt a b = true -> flt a finf = true.
Proof. by destruct a as [[] | [] | | [] ? ?], b as [[] | [] | | [] ? ?]. Qed.

Lemma argmin_from_reached best least i a :
  (least = finf \/ flt least finf = true) ->
  Forall (fun m => m = finf \/ flt m finf = true) a ->
  forall pre,
    length pre = i -> pre !! best = Some least ->
    (forall s, reached pre s -> flt least finf = true) ->
    forall s, reached (pre ++ a) s ->
      reached (pre ++ a) (argmin_from best least i a).
Proof.
  intros Hleast Ha. revert best least i Hleast.
  induction Ha as [| v a Hv Ha IH]; intros best least i Hleast pre Hi Hb Hpre s.
  - rewrite app_nil_r. simpl. intros Hs. unfold reached, metric_at.
    rewrite Hb. simpl. by eapply Hpre.
  - simpl. replace (pre ++ v :: a) with ((pre ++ [v]) ++ a)
      by (by rewrite <- app_assoc).
    assert (Hnan : is_nan least = false)
      by (destruct Hleast as [-> | H]; [done | by destruct least]).
    assert (Hnanv : is_nan v = false)
      by (destruct Hv as [-> | H]; [done | by destruct v]).
    rewrite Hnan, Hnanv, orb_false_r. simpl.
    destruct (flt v least) eqn:Hcmp.
    + apply IH; [done | rewrite length_app; simpl; lia | |].
      * rewrite lookup_app_r by lia.
        by replace (i - length pre)%nat with 0%nat by lia.
      * intros _ _. by eapply flt_below_inf.
    + apply IH; [done | rewrite length_app; simpl; lia | |].
      * rewrite lookup_app_l; [done |]. by eapply lookup_lt_Some.
      * intros s' Hs'. unfold reached, metric_at in Hs'.
        destruct (decide (s' < length pre)%nat) as [Hlt | Hge].
        -- rewrite lookup_app_l in Hs' by done. by apply (Hpre s').
        -- rewrite lookup_app_r in Hs' by lia.
           destruct (s' - length pre)%nat as [| k]; simpl in Hs';
             [| by destruct k].
           destruct Hleast as [-> | H]; [| done].
           by rewrite Hs' in Hcmp.
Qed.

Lemma argmin_reached a s_star s :
  Forall (fun m => m = finf \/ flt m finf = true) a ->
  argmin a = Ok s_star -> reached a s -> reached a s_star.
Proof.
  destruct a as [| v a]; [done |]. simpl.
  intros [Hv Ha]%Forall_cons [= <-] Hs.
  eapply (argmin_from_reached 0 v 1 a Hv Ha [v] eq_refl eq_refl);
    [| exact Hs].
  intros s' Hs'. unfold reached, metric_at in Hs'.
  destruct s' as [| k]; simpl in Hs'; [done | by destruct k].
Qed.

Lemma fadd_below_inf a b : flt (fadd a b) finf = true -> flt a finf = true.
Proof. by destruct a as [[] | [] | | [] ? ?], b as [[] | [] | | [] ? ?]. Qed.

Lemma get1_last {A} (row : list A) x :
  last row = Some x -> get1 row (-1) = Ok x.
Proof.
  intros Hlast. pose proof Hlast as Hl. rewrite last_lookup in Hl.
  assert (Hlen : (0 < length row)%nat).
  { apply lookup_lt_Some in Hl. lia. }
  unfold get1, np_index. repeat case_decide; try lia. simpl.
  apply item_Ok. rewrite <- Hl. f_equal. lia.
Qed.

Lemma set1_last {A} (l : list A) (e v : A) :
  set1 (l ++ [e]) (-1) v = Ok (l ++ [v]).
Proof.
  unfold set1, np_index. rewrite length_app. simpl.
  repeat case_decide; try lia. simpl. f_equal.
  replace (Z.to_nat (-1 + Z.of_nat (length l + 1))) with (length l + 0)%nat
    by lia.
  by rewrite insert_app_r.
Qed.

Lemma roll_left_length {A} (row : list A) :
  length (roll_left row) = length row.
Proof. destruct row; simpl; [done |]. rewrite length_app. simpl. lia. Qed.

Lemma removelast_roll_left {A} (row : list A) :
  removelast (roll_left row) = drop 1 row.
Proof. destruct row; simpl; [done |]. apply removelast_last. Qed.

Lemma last_app_one {A} (l : list A) v : last (l ++ [v]) = Some v.
Proof. apply last_snoc. Qed.

Lemma for_each_invariant_run {A B} (I : nat -> B -> Prop)
    (body : B -> A -> result B) l b r :
  I 0%nat b ->
  (forall n a b b', l !! n = Some a -> I n b -> body b a = Ok b' ->
     I (S n) b') ->
  for_each body l b = Ok r -> I (length l) r.
Proof.
  revert I b. induction l as [| a l IH]; intros I b H0 Hstep; simpl.
  - by intros [= <-].
  - intros (b' & Hb' & Hr)%bind_Ok.
    apply (IH (fun n => I (S n)) b'); [by eapply (Hstep 0%nat) | | done].
    intros n a' b0 b0' Ha'. by apply (Hstep (S n)).
Qed.

Lemma drop_last_one {A} (l : list A) k :
  length l = S k -> exists e, drop k l = [e].
Proof.
  intros Hlen. destruct (drop k l) as [| e [| e' l']] eqn:E.
  - apply (f_equal length) in E. rewrite length_drop in E. simpl in E. lia.
  - eauto.
  - apply (f_equal length) in E. rewrite length_drop in E. simpl in E. lia.
Qed.

(** The states of the survivor that ends in [s]: its origin, and the states
    after it in time order, found by following [choices] back. *)
Fixpoint lineage (choices_rev : list (list Z)) (s : Z) : Z * list Z :=
  match choices_rev with
  | [] => (s, [])
  | row :: rest =>
      let s0 := match get1 row s with Ok s0 => s0 | Raise _ => 0 end in
      let '(origin, later) := lineage rest s0 in
      (origin, later ++ [s])
  end.

Lemma lineage_length choices_rev s :
  length (lineage choices_rev s).2 = length choices_rev.
Proof.
  revert s. induction choices_rev as [| row rest IH]; intros s; simpl; [done |].
  specialize (IH match get1 row s with Ok s0 => s0 | Raise _ => 0 end).
  destruct (lineage rest _) as [origin later]. simpl in *.
  rewrite length_app. simpl. lia.
Qed.

Lemma lineage_app c1 c2 s :
  lineage (c1 ++ c2) s =
    let '(a1, l1) := lineage c1 s in
    let '(a0, l0) := lineage c2 a1 in
    (a0, l0 ++ l1).
Proof.
  revert s. induction c1 as [| row rest IH]; intros s; simpl.
  - destruct (lineage c2 s). by rewrite app_nil_r.
  - rewrite IH. destruct (lineage rest _) as [a1 l1].
    destruct (lineage c2 a1) as [a0 l0]. by rewrite app_assoc.
Qed.

Lemma lineage_last choices_rev s :
  last ((lineage choices_rev s).1 :: (lineage choices_rev s).2) = Some s.
Proof.
  destruct choices_rev as [| row rest]; simpl; [done |].
  destruct (lineage rest _) as [origin later]. simpl.
  by rewrite app_comm_cons, last_snoc.
Qed.

Lemma backtrack_lineage fsm choices_rev s col :
  backtrack fsm choices_rev s = Ok col ->
  forall i, (i < length choices_rev)%nat ->
    exists a b x,
      ((lineage choices_rev s).1 :: (lineage choices_rev s).2) !! i = Some a /\
      (lineage choices_rev s).2 !! i = Some b /\
      get2 (input_edges fsm) a b = Ok x /\ col !! i = Some x.
Proof.
  revert s col. induction choices_rev as [| row rest IH]; intros s col.
  - simpl. intros _ i Hi. lia.
  - simpl.
    intros (s0 & Hs0 & (x & Hx & (xs & Hxs & [= <-])%bind_Ok)%bind_Ok)%bind_Ok.
    rewrite Hs0. pose proof (lineage_length rest s0) as Hll.
    pose proof (lineage_last rest s0) as Hlast.
    pose proof (backtrack_length fsm _ _ _ Hxs) as Hlx.
    specialize (IH s0 xs Hxs).
    destruct (lineage rest s0) as [origin later]. simpl in *.
    intros i Hi. destruct (decide (i < length rest)%nat) as [Hlt | Hge].
    + destruct (IH i Hlt) as (a & b & x' & Ha & Hb & Hg & Hc).
      exists a, b, x'. split_and!; try done.
      * rewrite app_comm_cons, lookup_app_l; [done |]. simpl. lia.
      * by rewrite lookup_app_l by lia.
      * by rewrite lookup_app_l by lia.
    + assert (i = length rest) as -> by lia.
      exists s0, s, x. split_and!; try done.
      * rewrite app_comm_cons, lookup_app_l by (simpl; lia).
        rewrite last_lookup in Hlast. simpl in Hlast.
        by rewrite <- Hll.
      * rewrite lookup_app_r by lia.
        by replace (length rest - length later)%nat with 0%nat by lia.
      * rewrite lookup_app_r by lia.
        by replace (length rest - length xs)%nat with 0%nat by lia.
Qed.

Section Streaming.
Context {Obs : Type}.
Variable fsm : FiniteStateMachine.
Hypothesis Hwf : well_formed fsm.
Variable metric_function : Z -> Obs -> float.
Variable tau : nat.

Lemma relax_all_ext mo mo' (z : Obs) new choices :
  (forall s0, (s0 < num_states fsm)%nat -> mo s0 = mo' s0) ->
  relax_all fsm metric_function mo z new choices =
  relax_all fsm metric_function mo' z new choices.
Proof.
  intros Hmo. unfold relax_all. apply for_each_ext.
  intros s0 st [_ Hs0]%elem_of_seq. unfold relax_state.
  destruct (item (next_states fsm) s0); simpl; [| done].
  destruct (item (outputs fsm) s0); simpl; [| done].
  apply for_each_ext. intros [s1 y] [new' choices'] _. simpl.
  by rewrite Hmo by lia.
Qed.

Lemma get2_last_column (a : list (list float)) s0 :
  Forall (fun row => length row = S tau) a -> (s0 < length a)%nat ->
  get2 a (Z.of_nat s0) (-1) = item (last_column a) s0.
Proof.
  intros Hrows Hs0.
  destruct (lookup_lt_is_Some_2 a s0 Hs0) as [row Hrow].
  assert (Hlen : length row = S tau) by (rewrite Forall_lookup in Hrows; eauto).
  destruct (last row) as [x |] eqn:Hlast.
  - unfold get2. rewrite (get1_nat _ _ _ Hrow). simpl.
    rewrite (get1_last _ _ Hlast). symmetry. apply item_Ok.
    unfold last_column. rewrite list_lookup_fmap, Hrow. simpl.
    by rewrite Hlast.
  - apply last_None in Hlast. subst row. done.
Qed.

(** Two runs of the loops that differ in the initial [choices] only. *)
Definition same_choices (st1 st2 : list float * list Z) : Prop :=
  st1.1 = st2.1 /\ length st1.2 = length st1.1 /\
  length st2.2 = length st1.1 /\
  forall j m, st1.1 !! j = Some m -> st1.2 !! j = st2.2 !! j \/ m = finf.

Lemma relax_edge_same_choices mo (z : Obs) k e st1 st2 r1 r2 :
  same_choices st1 st2 ->
  relax_edge metric_function mo z k st1 e = Ok r1 ->
  relax_edge metric_function mo z k st2 e = Ok r2 ->
  same_choices r1 r2.
Proof.
  destruct e as [s1 y], st1 as [n c1], st2 as [n' c2].
  intros (Hn & Hlen1 & Hlen2 & Hsame). simpl in Hn, Hlen1, Hlen2, Hsame.
  subst n'. unfold relax_edge.
  intros (m0 & Hm0 & (m1 & Hm1 & H1)%bind_Ok)%bind_Ok.
  rewrite Hm0, Hm1. simpl.
  destruct (flt (fadd m0 (metric_function y z)) m1) eqn:Hcmp.
  - apply bind_Ok in H1 as (n1 & Hn1 & (c1' & Hc1 & [= <-])%bind_Ok).
    rewrite Hn1. simpl.
    intros (c2' & Hc2 & [= <-])%bind_Ok.
    unfold set1 in Hn1, Hc1, Hc2.
    rewrite Hlen1 in Hc1. rewrite Hlen2 in Hc2.
    apply bind_Ok in Hn1 as (kn & Hkn & [= <-]).
    apply bind_Ok in Hc1 as (k1 & Hk1 & [= <-]).
    apply bind_Ok in Hc2 as (k2 & Hk2 & [= <-]).
    assert (k1 = kn) as -> by congruence.
    assert (k2 = kn) as -> by congruence.
    apply np_index_Ok in Hkn as (Hkn & _).
    split_and!; simpl; rewrite ?length_insert; try done.
    intros j m. destruct (decide (j = kn)) as [-> | Hne].
    + intros _. left. rewrite !list_lookup_insert_eq by lia. done.
    + rewrite !list_lookup_insert_ne by done. apply Hsame.
  - injection H1 as <-. intros [= <-]. done.
Qed.

Lemma relax_all_same_choices mo (z : Obs) new c1 c2 n1 r1 n2 r2 :
  length c1 = length new -> length c2 = length new ->
  Forall (fun m => m = finf) new ->
  relax_all fsm metric_function mo z new c1 = Ok (n1, r1) ->
  relax_all fsm metric_function mo z new c2 = Ok (n2, r2) ->
  n1 = n2 /\
  forall j m, n1 !! j = Some m -> flt m finf = true -> r1 !! j = r2 !! j.
Proof.
  intros Hlen1 Hlen2 Hnew H1 H2.
  assert (HR : same_choices (n1, r1) (n2, r2)).
  { eapply (for_each_rel same_choices); [| | exact H1 | exact H2].
    - intros s0 b1 b2 b1' b2' Hb. unfold relax_state.
      intros (rn & -> & (ro & -> & Hl1)%bind_Ok)%bind_Ok. simpl.
      intros Hl2. revert Hb Hl1 Hl2. apply for_each_rel.
      intros e ? ? ? ?. apply relax_edge_same_choices.
    - split_and!; simpl; try done. intros j m Hm. right.
      rewrite Forall_lookup in Hnew. eauto. }
  destruct HR as (Hn & _ & _ & Hsame). simpl in *. split; [done |].
  intros j m Hm Hlt. destruct (Hsame j m Hm) as [? | ->]; [done |].
  by rewrite flt_irrefl in Hlt.
Qed.
Lemma extend_path_Ok rolled (p : list (list Z)) s1 c p' :
  Forall (fun row => length row = S tau) rolled ->
  Forall (fun row => length row = S tau) p ->
  extend_path rolled p (s1, c) = Ok p' ->
  exists source,
    get1 rolled c = Ok source /\
    p' = <[s1:=removelast source ++ [Z.of_nat s1]]> p /\
    length (removelast source ++ [Z.of_nat s1]) = S tau /\
    (s1 < length p)%nat.
Proof.
  intros Hrolled Hp. unfold extend_path.
  intros (source & Hsrc & (target & Htgt%item_Ok & H)%bind_Ok)%bind_Ok.
  apply bind_Ok in H as (target' & Hset & [= <-]).
  assert (Hlt : length target = S tau) by (rewrite Forall_lookup in Hp; eauto).
  assert (Hls : length source = S tau).
  { apply get1_Ok in Hsrc as (k & _ & Hk).
    rewrite Forall_lookup in Hrolled. eauto. }
  rewrite Hlt in Hset. replace (S tau - 1)%nat with tau in Hset by lia.
  destruct (drop_last_one target tau Hlt) as [e He].
  rewrite He, set1_last in Hset. injection Hset as <-.
  exists source. split_and!; try done.
  - rewrite length_app. simpl.
    assert (Hne : source <> []) by (intros ->; done).
    rewrite (app_removelast_last 0 Hne), length_app in Hls. simpl in Hls.
    lia.
  - by eapply lookup_lt_Some.
Qed.

Lemma extend_paths rolled (choices : list Z) paths' :
  Forall (fun row => length row = S tau) rolled ->
  length choices = length rolled ->
  for_each (extend_path rolled) (enumerate choices) rolled = Ok paths' ->
  length paths' = length rolled /\
  Forall (fun row => length row = S tau) paths' /\
  forall s1 c, choices !! s1 = Some c ->
    exists source,
      get1 rolled c = Ok source /\
      paths' !! s1 = Some (removelast source ++ [Z.of_nat s1]).
Proof.
  intros Hrolled Hlen Hrun.
  pose (I := fun (n : nat) (p : list (list Z)) =>
    length p = length rolled /\
    Forall (fun row => length row = S tau) p /\
    forall s1 c, (s1 < n)%nat -> choices !! s1 = Some c ->
      exists source,
        get1 rolled c = Ok source /\
        p !! s1 = Some (removelast source ++ [Z.of_nat s1])).
  assert (HI : I (length (enumerate choices)) paths').
  { eapply (for_each_invariant_run I); [| | exact Hrun].
    - split_and!; try done. intros s1 c Hs1. lia.
    - intros n [s1 c] p p' [Hn Hc]%lookup_enumerate (Hl & Hrows & Hdone) Hbody.
      simpl in Hn, Hc. subst s1.
      apply extend_path_Ok in Hbody as (source & Hsrc & -> & Hls & Hnp);
        [| done | done].
      split_and!.
      + by rewrite length_insert.
      + by apply Forall_insert.
      + intros s1 c' Hs1 Hc'. destruct (decide (s1 = n)) as [-> | Hne].
        * assert (c' = c) as -> by congruence.
          exists source. split; [done |].
          by rewrite list_lookup_insert_eq.
        * rewrite list_lookup_insert_ne by done. apply Hdone; [lia | done]. }
  destruct HI as (Hl & Hrows & Hall). split_and!; try done.
  intros s1 c Hc. apply Hall; [| done].
  unfold enumerate. rewrite length_zip_with, length_seq, Nat.min_id.
  by eapply lookup_lt_Some.
Qed.

Lemma set_last_column_rolled (a : list (list float)) new a' :
  Forall (fun row => length row = S tau) a ->
  length new = length a ->
  set_last_column (map roll_left a) new = Ok a' ->
  length a' = length a /\
  Forall (fun row => length row = S tau) a' /\
  last_column a' = new.
Proof.
  intros Hrows Hlen. unfold set_last_column.
  rewrite length_map. case_decide; [| done].
  intros [Hl Hall]%mapM_Ok.
  rewrite length_zip_with, length_map, Hlen, Nat.min_id in Hl.
  assert (Hrow : forall i r', a' !! i = Some r' ->
            exists r v, a !! i = Some r /\ new !! i = Some v /\
              r' = drop 1 r ++ [v]).
  { intros i r' Hr'.
    destruct (lookup_lt_is_Some_2 a i) as [r Hr];
      [rewrite <- Hl; by eapply lookup_lt_Some |].
    destruct (lookup_lt_is_Some_2 new i) as [v Hv];
      [rewrite Hlen; by eapply lookup_lt_Some |].
    destruct (Hall i (roll_left r, v)) as (b & Hb & Hset).
    { apply lookup_zip_with_Some. exists (roll_left r), v.
      split_and!; [done | by rewrite list_lookup_fmap, Hr | done]. }
    assert (b = r') as -> by congruence. simpl in Hset.
    assert (Hlr : length r = S tau) by (rewrite Forall_lookup in Hrows; eauto).
    destruct r as [| e r]; [done |]. simpl in Hset.
    rewrite set1_last in Hset. injection Hset as <-.
    by exists (e :: r), v. }
  split_and!; [done | |].
  - apply Forall_lookup. intros i r' Hr'.
    destruct (Hrow i r' Hr') as (r & v & Hr & _ & ->).
    assert (Hlr : length r = S tau) by (rewrite Forall_lookup in Hrows; eauto).
    rewrite length_app, length_drop. simpl. lia.
  - apply list_eq. intros i. unfold last_column. rewrite list_lookup_fmap.
    destruct (a' !! i) as [r' |] eqn:Hr'; simpl.
    + destruct (Hrow i r' Hr') as (r & v & _ & Hv & ->).
      by rewrite last_snoc.
    + symmetry. apply lookup_ge_None. apply lookup_ge_None in Hr'. lia.
Qed.
(** The memory holds the current row of metrics of the block decoder. *)
Definition in_step (row : list float) (memory : MetricMemory) : Prop :=
  memory_shape (num_states fsm) tau memory /\
  last_column (metrics memory) = row.

Lemma in_step_length row memory :
  in_step row memory -> length row = num_states fsm.
Proof.
  intros [(_ & _ & Hl & _) <-]. unfold last_column. by rewrite length_map.
Qed.

Lemma relax_reached row (z : Obs) choices0 row' choices s :
  length row = num_states fsm -> length choices0 = num_states fsm ->
  relax_all fsm metric_function (item row) z
    (replicate (num_states fsm) finf) choices0 = Ok (row', choices) ->
  length row' = num_states fsm /\
  (reached row' s ->
   exists p, choices !! s = Some (Z.of_nat p) /\ reached row p).
Proof.
  intros Hlen Hch Hrun.
  destruct (relax_all_inv fsm Hwf metric_function (item row) (metric_at row)
              (fun s0 H => item_metric_at row s0
                             (eq_ind_r (fun n => (s0 < n)%nat) H Hlen))
              z choices0 Hch)
    as ([n c] & Hrun' & Hl1 & _ & Hslots).
  rewrite Hrun in Hrun'. injection Hrun' as <- <-. simpl in *.
  split; [done |]. intros Hs. pose proof (reached_lt _ _ Hs) as Hlt.
  destruct (Hslots s) as (m & cj & Hm & Hc & _ & Hwin); [lia |].
  unfold reached, metric_at in Hs. rewrite Hm in Hs. simpl in Hs.
  destruct Hwin as [[-> _] | (s0 & x & _ & (Hs0 & _) & -> & -> & _)].
  - by rewrite flt_irrefl in Hs.
  - exists s0. split; [done |]. by apply fadd_below_inf in Hs.
Qed.

Lemma relax_settled row (z : Obs) choices0 row' choices :
  length row = num_states fsm -> length choices0 = num_states fsm ->
  relax_all fsm metric_function (item row) z
    (replicate (num_states fsm) finf) choices0 = Ok (row', choices) ->
  Forall (fun m => m = finf \/ flt m finf = true) row'.
Proof.
  intros Hlen Hch Hrun.
  destruct (relax_all_inv fsm Hwf metric_function (item row) (metric_at row)
              (fun s0 H => item_metric_at row s0
                             (eq_ind_r (fun n => (s0 < n)%nat) H Hlen))
              z choices0 Hch)
    as ([n c] & Hrun' & Hl1 & _ & Hslots).
  rewrite Hrun in Hrun'. injection Hrun' as <- <-. simpl in *.
  apply Forall_lookup. intros s m Hm.
  destruct (Hslots s) as (m' & cj & Hm' & _ & _ & Hwin).
  { apply lookup_lt_Some in Hm. lia. }
  assert (m' = m) as -> by congruence.
  destruct Hwin as [[-> _] | (s0 & x & _ & _ & _ & _ & Hlt & _)];
    [by left | by right].
Qed.

Lemma first_two_Ok row s0 s1 :
  first_two row = Ok (s0, s1) -> exists rest, row = s0 :: s1 :: rest.
Proof. destruct row as [| a [| b rest]]; simpl; intros [=]. subst. eauto. Qed.

Lemma streaming_step_sim row memory (z : Obs) choices0 row' choices x memory' :
  in_step row memory -> length choices0 = num_states fsm ->
  relax_all fsm metric_function (item row) z
    (replicate (num_states fsm) finf) choices0 = Ok (row', choices) ->
  streaming_step fsm metric_function memory z = Ok (x, memory') ->
  in_step row' memory' /\
  (exists (s_star : nat) s0 s1 rest,
     argmin row' = Ok s_star /\
     paths memory !! s_star = Some (s0 :: s1 :: rest) /\
     get2 (input_edges fsm) s0 s1 = Ok x) /\
  forall s, reached row' s ->
    exists p r,
      choices !! s = Some (Z.of_nat p) /\ reached row p /\
      paths memory !! p = Some r /\
      paths memory' !! s = Some (drop 1 r ++ [Z.of_nat s]).
Proof.
  intros Hin Hch Hblock. pose proof (in_step_length _ _ Hin) as Hlen.
  destruct Hin as [(Hpl & Hprows & Hml & Hmrows) Hlast].
  unfold streaming_step.
  rewrite (relax_all_ext _ (item row)).
  2:{ intros s0 Hs0. rewrite <- Hlast. apply get2_last_column; [done | lia]. }
  intros ([new ch] & Hstream &
          (s_star & Hargmin & (rw & Hrw%item_Ok & H)%bind_Ok)%bind_Ok)%bind_Ok.
  apply bind_Ok in H as ([s0 s1] & Hft & (x' & Hx & H)%bind_Ok).
  apply bind_Ok in H as (metrics' & Hmet & (paths' & Hpaths & H)%bind_Ok).
  injection H as <- <-.
  destruct (relax_all_same_choices (item row) z
              (replicate (num_states fsm) finf) choices0
              (replicate (num_states fsm) 0) row' choices new ch
              ltac:(by rewrite length_replicate)
              ltac:(by rewrite !length_replicate)
              ltac:(by apply Forall_replicate) Hblock Hstream)
    as [<- Hsame].
  destruct (relax_reached row z choices0 row' choices 0%nat Hlen Hch Hblock)
    as [Hlen' _].
  apply set_last_column_rolled in Hmet as (Hml' & Hmrows' & Hlast');
    [| done | lia].
  assert (Hchl : length ch = num_states fsm).
  { destruct (relax_all_inv fsm Hwf metric_function (item row) (metric_at row)
              (fun s0 H => item_metric_at row s0
                             (eq_ind_r (fun n => (s0 < n)%nat) H Hlen))
              z (replicate (num_states fsm) 0)
              ltac:(by rewrite length_replicate))
      as ([n c] & Hrun' & _ & Hl2 & _).
    rewrite Hstream in Hrun'. by injection Hrun' as <- <-. }
  apply extend_paths in Hpaths as (Hpl' & Hprows' & Hext).
  2:{ apply Forall_map. eapply Forall_impl; [exact Hprows |].
      intros r Hr. simpl. by rewrite roll_left_length. }
  2:{ rewrite length_map. lia. }
  rewrite length_map in Hpl'.
  split_and!.
  - split; [| done]. split_and!; simpl; try done; lia.
  - apply first_two_Ok in Hft as [rest ->]. by exists s_star, s0, s1, rest.
  - intros s Hs. simpl.
    destruct (relax_reached row z choices0 row' choices s Hlen Hch Hblock)
      as [_ Hp]. destruct (Hp Hs) as (p & Hcp & Hrp).
    pose proof (reached_lt _ _ Hs) as Hslt.
    destruct (lookup_lt_is_Some_2 row' s Hslt) as [m Hm].
    assert (Hchs : ch !! s = Some (Z.of_nat p)).
    { rewrite <- (Hsame s m Hm); [done |].
      unfold reached, metric_at in Hs. by rewrite Hm in Hs. }
    destruct (Hext s _ Hchs) as (source & Hsrc & Hnew).
    pose proof (reached_lt _ _ Hrp) as Hplt.
    destruct (lookup_lt_is_Some_2 (paths memory) p) as [r Hr]; [lia |].
    exists p, r. split_and!; try done.
    assert (source = roll_left r) as ->.
    { rewrite (get1_nat _ p (roll_left r)) in Hsrc; [congruence |].
      by rewrite list_lookup_fmap, Hr. }
    by rewrite removelast_roll_left in Hnew.
Qed.
Variable empty_int : nat -> nat -> Z.

Lemma viterbi_forward_app t (l1 l2 : list Obs) row :
  viterbi_forward fsm metric_function empty_int t (l1 ++ l2) row =
    (do '(c1, row1) <- viterbi_forward fsm metric_function empty_int t l1 row;
     do '(c2, row2) <-
       viterbi_forward fsm metric_function empty_int (t + length l1) l2 row1;
     Ok (c1 ++ c2, row2)).
Proof.
  revert t row. induction l1 as [| z l1 IH]; intros t row; simpl.
  - rewrite Nat.add_0_r.
    by destruct (viterbi_forward _ _ _ t l2 row) as [[c2 row2] |].
  - destruct (relax_all _ _ _ _ _ _) as [[row1 ch] |]; simpl; [| done].
    rewrite IH. replace (S t + length l1)%nat with (t + S (length l1))%nat
      by lia.
    destruct (viterbi_forward _ _ _ (S t) l1 row1) as [[c1 row'] |];
      simpl; [| done].
    by destruct (viterbi_forward _ _ _ _ l2 row') as [[c2 row2] |].
Qed.

Lemma viterbi_streaming_app (l1 l2 : list Obs) memory :
  viterbi_streaming fsm metric_function (l1 ++ l2) memory =
    (do '(o1, m1) <- viterbi_streaming fsm metric_function l1 memory;
     do '(o2, m2) <- viterbi_streaming fsm metric_function l2 m1;
     Ok (o1 ++ o2, m2)).
Proof.
  revert memory. induction l1 as [| z l1 IH]; intros memory; simpl.
  - by destruct (viterbi_streaming _ _ l2 memory) as [[o2 m2] |].
  - destruct (streaming_step _ _ _ _) as [[x m] |]; simpl; [| done].
    rewrite IH.
    destruct (viterbi_streaming _ _ l1 m) as [[o1 m1] |]; simpl; [| done].
    by destruct (viterbi_streaming _ _ l2 m1) as [[o2 m2] |].
Qed.

(** The block decoder and the streaming decoder, run side by side: the
    memory holds, for each reached state, the window of its survivor. *)
Lemma side_by_side (zs : list Obs) :
  forall t row memory choices row_L out memory',
    in_step row memory ->
    viterbi_forward fsm metric_function empty_int t zs row =
      Ok (choices, row_L) ->
    viterbi_streaming fsm metric_function zs memory = Ok (out, memory') ->
    in_step row_L memory' /\
    length choices = length zs /\ length out = length zs /\
    forall s, reached row_L s ->
      exists (a0 : nat) r,
        (lineage (reverse choices) (Z.of_nat s)).1 = Z.of_nat a0 /\
        reached row a0 /\ paths memory !! a0 = Some r /\
        paths memory' !! s =
          Some (drop (length zs)
                  (r ++ (lineage (reverse choices) (Z.of_nat s)).2)).
Proof.
  induction zs as [| z zs IH];
    intros t row memory choices row_L out memory' Hin; simpl.
  - intros [= <- <-] [= <- <-]. split_and!; try done.
    intros s Hs. pose proof (reached_lt _ _ Hs) as Hlt.
    rewrite (in_step_length _ _ Hin) in Hlt.
    destruct Hin as [(Hpl & _) _].
    destruct (lookup_lt_is_Some_2 (paths memory) s) as [r Hr]; [lia |].
    exists s, r. simpl. rewrite app_nil_r. done.
  - intros ([row1 c0] & Hstep & ([cs rL] & Hfwd & [= <- <-])%bind_Ok)%bind_Ok.
    intros ([x m1] & Hsstep & ([xs m'] & Hstr & [= <- <-])%bind_Ok)%bind_Ok.
    destruct (streaming_step_sim row memory z _ row1 c0 x m1 Hin
                ltac:(by rewrite length_map, length_seq) Hstep Hsstep)
      as (Hin1 & _ & Hpaths).
    destruct (IH (S t) row1 m1 cs rL xs m' Hin1 Hfwd Hstr)
      as (HinL & Hlc & Hlo & Hwin).
    split_and!; simpl; try done; try lia.
    intros s Hs. destruct (Hwin s Hs) as (a1 & r1 & Ha1 & Hr1 & Hp1 & Hp').
    destruct (Hpaths a1 Hr1) as (p & r & Hc0 & Hrp & Hr & Hm1).
    exists p, r. rewrite reverse_cons, lineage_app.
    destruct (lineage (reverse cs) (Z.of_nat s)) as [a1' l1]. simpl in *.
    subst a1'. rewrite (get1_nat _ _ _ Hc0). simpl.
    split_and!; try done.
    rewrite Hp'. f_equal.
    assert (r1 = drop 1 r ++ [Z.of_nat a1]) as -> by congruence.
    destruct Hin as [(_ & Hprows & _) _].
    assert (Hlr : length r = S tau) by (rewrite Forall_lookup in Hprows; eauto).
    destruct r as [| e r]; [done |]. simpl. by rewrite <- app_assoc.
Qed.
End Streaming.

Lemma take_two_lookup (r r' : list Z) s0 s1 rest :
  r = s0 :: s1 :: rest -> take 2 r = take 2 r' ->
  r' !! 0%nat = Some s0 /\ r' !! 1%nat = Some s1.
Proof.
  intros -> H. simpl in H.
  destruct r' as [| a [| b r']]; simpl in H; try discriminate.
  by injection H as <- <-.
Qed.


(** The memory of a new decoder for the docstring machine, with path memory
    3 and initial state 0, and what it holds after seven observations. *)
Definition example_memory : MetricMemory :=
  {| paths := full 4 4 0;
     metrics := [[finf; finf; finf; fzero]; [finf; finf; finf; finf];
                 [finf; finf; finf; finf]; [finf; finf; finf; finf]] |}.

Definition example_observation : list Z := [3; 2; 2; 0; 1; 3; 3].

Definition example_memory_after : MetricMemory :=
  Eval vm_compute in
    match viterbi_streaming example_fsm exact_metric example_observation
            example_memory with
    | Ok (_, memory) => memory
    | Raise _ => example_memory
    end.

Lemma example_memory_constructed :
  stream_decoder_memory 4 3 0 = Ok example_memory.
Proof. vm_compute. reflexivity. Qed.

Lemma example_observation_processed :
  process example_fsm [1; 1; 0; 1; 0; 0; 1] 0 = Ok (example_observation, 1).
Proof. vm_compute. reflexivity. Qed.

(** An impossible output costs [inf]. *)
Definition strict_metric (y z : Z) : float :=
  if decide (y = z) then fzero else finf.

(** The memory of a new decoder with path memory 1. *)
Definition short_memory : MetricMemory :=
  {| paths := full 4 2 0;
     metrics := [[finf; fzero]; [finf; finf]; [finf; finf]; [finf; finf]] |}.

Lemma short_memory_constructed :
  stream_decoder_memory 4 1 0 = Ok short_memory.
Proof. vm_compute. reflexivity. Qed.


(** The memory of a new decoder with path memory 3 and initial state 1,
    and the output of the machine on seven inputs from state 1. *)
Definition state_1_memory : MetricMemory :=
  {| paths := full 4 4 0;
     metrics := [[finf; finf; finf; finf]; [finf; finf; finf; fzero];
                 [finf; finf; finf; finf]; [finf; finf; finf; finf]] |}.

Definition state_1_observation : list Z := [1; 3; 0; 0; 3; 1; 0].

Lemma state_1_memory_constructed :
  stream_decoder_memory 4 3 1 = Ok state_1_memory.
Proof. vm_compute. reflexivity. Qed.

Lemma state_1_observation_processed :
  process example_fsm [0; 0; 0; 0; 1; 0; 1] 1 = Ok (state_1_observation, 1).
Proof. vm_compute. reflexivity. Qed.


(** ** Terminations: tail-biting *)

(** *** Integer vectors and matrices *)

Definition vadd (u w : list Z) : list Z := zip_with Z.add u w.
Definition vscale (c : Z) (u : list Z) : list Z := map (Z.mul c) u.
Definition vmod2 (u : list Z) : list Z := map (fun a => a mod 2) u.

(** [v @ M], for a matrix [M] of [n] columns. *)
Fixpoint vecmat (n : nat) (v : list Z) (M : list (list Z)) : list Z :=
  match v, M with
  | c :: v', row :: M' => vadd (vscale c row) (vecmat n v' M')
  | _, _ => replicate n 0
  end.

(** [M @ N], for a matrix [N] of [n] columns. *)
Definition matmul (n : nat) (M N : list (list Z)) : list (list Z) :=
  map (fun row => vecmat n row N) M.

Definition madd (M N : list (list Z)) : list (list Z) := zip_with vadd M N.
Definition mmod2 (M : list (list Z)) : list (list Z) := map vmod2 M.

(** [np.eye(n, dtype=int)]. *)
Fixpoint eye (n : nat) : list (list Z) :=
  match n with
  | O => []
  | S n' => (1 :: replicate n' 0) :: map (cons 0) (eye n')
  end.

(** [numpy.linalg.matrix_power(M, h)] for [h >= 0], on matrices of [n]
    rows and columns. *)
Fixpoint matrix_power (n : nat) (M : list (list Z)) (h : nat)
  : list (list Z) :=
  match h with
  | O => eye n
  | S h' => matmul n M (matrix_power n M h')
  end.

Definition matrix (rows cols : nat) (M : list (list Z)) : Prop :=
  length M = rows /\ Forall (fun row => length row = cols) M.

Definition binary (v : list Z) : Prop := Forall (fun b => b = 0 \/ b = 1) v.

Lemma vadd_comm u w : vadd u w = vadd w u.
Proof.
  revert w. induction u as [| a u IH]; intros [| b w]; simpl; try done.
  by rewrite Z.add_comm, IH.
Qed.

Lemma vadd_assoc u v w : vadd (vadd u v) w = vadd u (vadd v w).
Proof.
  revert v w. induction u as [| a u IH]; intros [| b v] [| c w]; simpl;
    try done.
  by rewrite Z.add_assoc, IH.
Qed.

Lemma vadd_interchange a b c d :
  vadd (vadd a b) (vadd c d) = vadd (vadd a c) (vadd b d).
Proof.
  revert b c d.
  induction a as [| x a IH]; intros [| y b] [| z c] [| t d]; simpl; try done.
  rewrite IH. f_equal. lia.
Qed.

Lemma vadd_zero_l n u : length u = n -> vadd (replicate n 0) u = u.
Proof.
  intros <-. induction u as [| a u IH]; simpl; [done |]. by rewrite IH.
Qed.

Lemma vadd_zero_r n u : length u = n -> vadd u (replicate n 0) = u.
Proof. intros. by rewrite vadd_comm, vadd_zero_l. Qed.

Lemma length_vadd u w : length (vadd u w) = (length u `min` length w)%nat.
Proof. apply length_zip_with. Qed.

Lemma vscale_add c d u : vscale (c + d) u = vadd (vscale c u) (vscale d u).
Proof. induction u as [| a u IH]; simpl; [done |]. rewrite IH. f_equal. lia. Qed.

Lemma vscale_vadd c u w : vscale c (vadd u w) = vadd (vscale c u) (vscale c w).
Proof.
  revert w. induction u as [| a u IH]; intros [| b w]; simpl; try done.
  rewrite IH. f_equal. lia.
Qed.

Lemma vscale_vscale c d u : vscale c (vscale d u) = vscale (c * d) u.
Proof. induction u as [| a u IH]; simpl; [done |]. rewrite IH. f_equal. lia. Qed.

Lemma vscale_zeros c n : vscale c (replicate n 0) = replicate n 0.
Proof. induction n as [| n IH]; simpl; [done |]. rewrite IH. f_equal. lia. Qed.

Lemma vscale_0 u : vscale 0 u = replicate (length u) 0.
Proof. induction u as [| a u IH]; simpl; [done |]. by rewrite IH. Qed.

Lemma length_vecmat n v M :
  Forall (fun row => length row = n) M -> length (vecmat n v M) = n.
Proof.
  intros HM. revert v. induction HM as [| row M Hrow _ IH]; intros [| c v];
    simpl; rewrite ?length_replicate; try done.
  rewrite length_vadd, IH. unfold vscale. rewrite length_map. lia.
Qed.

Lemma vecmat_vadd n u w M :
  Forall (fun row => length row = n) M -> length u = length w ->
  vecmat n (vadd u w) M = vadd (vecmat n u M) (vecmat n w M).
Proof.
  intros HM. revert u w.
  induction HM as [| row M Hrow HM IH]; intros [| c u] [| d w] Hlen;
    simpl in *; try done;
    try (by rewrite vadd_zero_l by apply length_replicate).
  rewrite IH by lia. rewrite vscale_add. apply vadd_interchange.
Qed.

Lemma vecmat_vscale n c v M :
  vecmat n (vscale c v) M = vscale c (vecmat n v M).
Proof.
  revert M. induction v as [| d v IH]; intros [| row M]; simpl;
    rewrite ?vscale_zeros; try done.
  by rewrite IH, vscale_vadd, vscale_vscale.
Qed.

Lemma vecmat_zeros n m M :
  Forall (fun row => length row = n) M ->
  vecmat n (replicate m 0) M = replicate n 0.
Proof.
  intros HM. revert m. induction HM as [| row M Hrow _ IH]; intros [| m];
    simpl; try done.
  rewrite IH, vscale_0, Hrow. by apply vadd_zero_l, length_replicate.
Qed.

Lemma vecmat_assoc n m v M N :
  Forall (fun row => length row = m) M ->
  Forall (fun row => length row = n) N ->
  vecmat n (vecmat m v M) N = vecmat n v (matmul n M N).
Proof.
  intros HM HN. revert v.
  induction HM as [| row M Hrow HM IH]; intros [| c v]; simpl;
    try (by apply vecmat_zeros).
  rewrite vecmat_vadd; [| done |].
  - by rewrite vecmat_vscale, IH.
  - unfold vscale. by rewrite length_map, Hrow, length_vecmat.
Qed.

Lemma vecmat_madd n v M N :
  Forall (fun row => length row = n) M ->
  Forall (fun row => length row = n) N ->
  length M = length N ->
  vecmat n v (madd M N) = vadd (vecmat n v M) (vecmat n v N).
Proof.
  intros HM. revert v N.
  induction HM as [| row M Hrow HM IH]; intros v N HN Hlen;
    destruct HN as [| row' N Hrow' HN]; simpl in *; try done.
  - destruct v; simpl; by rewrite vadd_zero_l by apply length_replicate.
  - destruct v as [| c v]; simpl.
    + by rewrite vadd_zero_l by apply length_replicate.
    + rewrite IH by (done || lia). rewrite vscale_vadd.
      apply vadd_interchange.
Qed.

Lemma vecmat_cons_zero n v M :
  vecmat (S n) v (map (cons 0) M) = 0 :: vecmat n v M.
Proof.
  revert M. induction v as [| c v IH]; intros [| row M]; simpl; try done.
  rewrite IH. simpl. f_equal. lia.
Qed.

Lemma eye_matrix n : matrix n n (eye n).
Proof.
  induction n as [| n [IH1 IH2]]; [by split |]. split; simpl.
  - by rewrite length_map, IH1.
  - constructor; [simpl; by rewrite length_replicate |].
    apply Forall_map. eapply Forall_impl; [exact IH2 |].
    intros row Hrow. simpl. by rewrite Hrow.
Qed.

Lemma vecmat_eye n v : length v = n -> vecmat n v (eye n) = v.
Proof.
  revert v. induction n as [| n IH]; intros [| c v] Hlen; simpl in *;
    try done.
  rewrite vecmat_cons_zero, IH by lia. simpl.
  rewrite vscale_zeros, vadd_zero_l by lia. f_equal. lia.
Qed.

Lemma mmod2_eye n : mmod2 (eye n) = eye n.
Proof.
  induction n as [| n IH]; simpl; [done |]. f_equal.
  - f_equal. unfold vmod2. by rewrite fmap_replicate.
  - unfold mmod2 in *. rewrite <- IH at 2. rewrite <- !list_fmap_compose.
    apply list_fmap_ext. done.
Qed.

(** *** Arithmetic modulo 2 *)

Lemma vmod2_idemp u : vmod2 (vmod2 u) = vmod2 u.
Proof.
  induction u as [| a u IH]; simpl; [done |].
  by rewrite IH, Z.mod_mod by lia.
Qed.

Lemma vmod2_binary u : binary u -> vmod2 u = u.
Proof.
  induction 1 as [| a u [-> | ->] _ IH]; simpl; [done | |]; by rewrite IH.
Qed.

Lemma binary_vmod2 u : binary (vmod2 u).
Proof.
  apply Forall_map, Forall_forall. intros a _. simpl.
  pose proof (Z.mod_pos_bound a 2). lia.
Qed.

Lemma length_vmod2 u : length (vmod2 u) = length u.
Proof. apply length_map. Qed.

Lemma vmod2_vadd_l u w : vmod2 (vadd (vmod2 u) w) = vmod2 (vadd u w).
Proof.
  revert w. induction u as [| a u IH]; intros [| b w]; simpl; try done.
  by rewrite IH, Z.add_mod_idemp_l by lia.
Qed.

Lemma vmod2_vadd_r u w : vmod2 (vadd u (vmod2 w)) = vmod2 (vadd u w).
Proof. by rewrite vadd_comm, vmod2_vadd_l, vadd_comm. Qed.

Lemma vmod2_vadd_proper u u' w w' :
  vmod2 u = vmod2 u' -> vmod2 w = vmod2 w' ->
  vmod2 (vadd u w) = vmod2 (vadd u' w').
Proof.
  intros Hu Hw.
  rewrite <- (vmod2_vadd_l u), <- (vmod2_vadd_r _ w), Hu, Hw.
  by rewrite vmod2_vadd_l, vmod2_vadd_r.
Qed.

Lemma vmod2_vscale_l c u : vmod2 (vscale (c mod 2) u) = vmod2 (vscale c u).
Proof.
  induction u as [| a u IH]; simpl; [done |].
  by rewrite IH, Z.mul_mod_idemp_l by lia.
Qed.

Lemma vmod2_vscale_r c u : vmod2 (vscale c (vmod2 u)) = vmod2 (vscale c u).
Proof.
  induction u as [| a u IH]; simpl; [done |].
  by rewrite IH, Z.mul_mod_idemp_r by lia.
Qed.

Lemma vmod2_vecmat_l n v M :
  vmod2 (vecmat n (vmod2 v) M) = vmod2 (vecmat n v M).
Proof.
  revert M. induction v as [| c v IH]; intros [| row M]; simpl; try done.
  apply vmod2_vadd_proper; [apply vmod2_vscale_l | apply IH].
Qed.

Lemma vmod2_vecmat_r n v M :
  vmod2 (vecmat n v (mmod2 M)) = vmod2 (vecmat n v M).
Proof.
  revert M. induction v as [| c v IH]; intros [| row M]; simpl; try done.
  apply vmod2_vadd_proper; [apply vmod2_vscale_r | apply IH].
Qed.

Lemma vmod2_cancel a s :
  length a = length s -> vmod2 (vadd a (vadd a s)) = vmod2 s.
Proof.
  revert s. induction a as [| x a IH]; intros [| y s] Hlen; simpl in *;
    try done.
  rewrite IH by lia. f_equal.
  replace (x + (x + y)) with (y + x * 2) by lia. apply Z_mod_plus_full.
Qed.

(** *** Bits and integers *)

(** Modelled from the spec: [int_to_bits(value, width)] of the absent
    [_util.bit_operations], least significant bit first. *)
Definition int2binlist (value : Z) (width : nat) : list Z :=
  map (fun i => Z.b2z (Z.testbit value (Z.of_nat i))) (seq 0 width).

(** Modelled from the spec: [bits_to_int(bits)] of the absent
    [_util.bit_operations], the inverse of [int2binlist]. *)
Definition binlist2int (bits : list Z) : Z :=
  foldr (fun b acc => b + 2 * acc) 0 bits.

Fixpoint chunks (width n : nat) (bits : list Z) : list (list Z) :=
  match n with
  | O => []
  | S n' => take width bits :: chunks width n' (drop width bits)
  end.

(** Modelled from the spec: [pack(bits, width) -> symbols] of the absent
    [_util.bit_operations]: each group of [width] bits is one symbol; the
    length of [bits] has to be a multiple of [width]. *)
Definition pack (bits : list Z) (width : nat) : result (list Z) :=
  if decide (width <> 0%nat /\ (length bits mod width = 0)%nat) then
    Ok (map binlist2int (chunks width (length bits / width) bits))
  else Raise ValueError.

Lemma length_int2binlist value width : length (int2binlist value width) = width.
Proof. unfold int2binlist. by rewrite length_map, length_seq. Qed.

Lemma binary_int2binlist value width : binary (int2binlist value width).
Proof.
  apply Forall_map, Forall_forall. intros i _. simpl.
  destruct (Z.testbit value (Z.of_nat i)); simpl; lia.
Qed.

Lemma int2binlist_zero width : int2binlist 0 width = replicate width 0.
Proof.
  unfold int2binlist. apply list_eq. intros i. rewrite list_lookup_fmap.
  destruct (decide (i < width)%nat) as [Hi | Hi].
  - rewrite lookup_seq_lt, lookup_replicate_2 by done. simpl.
    by rewrite Z.testbit_0_l.
  - rewrite lookup_seq_ge by lia. symmetry. apply lookup_replicate_None. lia.
Qed.

Lemma binlist2int_range bits :
  binary bits -> 0 <= binlist2int bits < 2 ^ Z.of_nat (length bits).
Proof.
  induction 1 as [| b bits Hb _ IH]; [simpl; lia |].
  change (binlist2int (b :: bits)) with (b + 2 * binlist2int bits).
  change (length (b :: bits)) with (S (length bits)).
  rewrite Nat2Z.inj_succ, Z.pow_succ_r by lia. lia.
Qed.

Lemma int2binlist_binlist2int bits :
  binary bits -> int2binlist (binlist2int bits) (length bits) = bits.
Proof.
  induction 1 as [| b bits Hb Hbits IH]; [done |].
  assert (Hbit : exists c : bool, b = Z.b2z c).
  { destruct Hb as [-> | ->]; [by exists false | by exists true]. }
  destruct Hbit as [c ->].
  assert (Hv : binlist2int (Z.b2z c :: bits) =
               2 * binlist2int bits + Z.b2z c) by (simpl; lia).
  unfold int2binlist in *. rewrite Hv. cbn [length seq map].
  change (Z.of_nat 0) with 0. rewrite Z.testbit_0_r. f_equal.
  rewrite <- fmap_S_seq, <- list_fmap_compose. rewrite <- IH at 2.
  apply list_fmap_ext. intros _ i _. cbv [compose].
  rewrite Nat2Z.inj_succ, Z.testbit_succ_r by lia. done.
Qed.

Lemma binlist2int_zeros n : binlist2int (replicate n 0) = 0.
Proof. induction n as [| n IH]; simpl; [done |]. rewrite IH. done. Qed.

Lemma chunks_spec width n bits :
  binary bits -> length bits = (n * width)%nat ->
  length (chunks width n bits) = n /\
  Forall (fun c => binary c /\ length c = width) (chunks width n bits).
Proof.
  revert bits. induction n as [| n IH]; intros bits Hbits Hlen; simpl.
  - by split.
  - destruct (IH (drop width bits)) as [IH1 IH2].
    + by apply Forall_drop.
    + rewrite length_drop. lia.
    + split; [by rewrite IH1 |]. constructor; [| done]. split.
      * by apply Forall_take.
      * rewrite length_take. lia.
Qed.

Lemma pack_spec bits width h :
  binary bits -> width <> 0%nat -> length bits = (width * h)%nat ->
  exists xs,
    pack bits width = Ok xs /\ length xs = h /\
    Forall (fun x => 0 <= x < 2 ^ Z.of_nat width) xs.
Proof.
  intros Hbits Hw Hlen. unfold pack. rewrite Hlen.
  rewrite Nat.mul_comm, Nat.Div0.mod_mul, Nat.div_mul by done.
  case_decide; [| by exfalso; auto].
  destruct (chunks_spec width h bits Hbits) as [Hl Hall]; [lia |].
  eexists. split; [done |]. split; [by rewrite length_map |].
  apply Forall_map. eapply Forall_impl; [exact Hall |].
  intros c [Hc <-]. simpl. by apply binlist2int_range.
Qed.

(** *** The encoder and its machine *)

(** Modelled from the spec: the absent [ConvolutionalCode], as far as
    [TailBiting] reads it: [num_input_bits], [overall_constraint_length],
    the matrices [A] and [B] of [state_space_representation()] and the
    result of [finite_state_machine()]. *)
Record ConvolutionalCode := {
  num_input_bits : nat;
  overall_constraint_length : nat;
  A_mat : list (list Z);
  B_mat : list (list Z);
  finite_state_machine : FiniteStateMachine
}.

(** [state_{t+1} = state_t A + x_t B] over GF(2), on bit vectors. *)
Definition state_update (code : ConvolutionalCode) (state x : list Z)
  : list Z :=
  vmod2 (vadd (vecmat (overall_constraint_length code) state (A_mat code))
              (vecmat (overall_constraint_length code) x (B_mat code))).

Fixpoint state_run (code : ConvolutionalCode) (state : list Z)
    (xs : list (list Z)) : list Z :=
  match xs with
  | [] => state
  | x :: xs' => state_run code (state_update code state x) xs'
  end.

(** Modelled from the spec: the machine of a code has the bit vectors of
    length [nu] as states and the bit vectors of length [k0] as inputs,
    both written as integers, and moves as the state-space representation
    says. *)
Record state_space_machine (code : ConvolutionalCode) : Prop := {
  ssm_A : matrix (overall_constraint_length code)
            (overall_constraint_length code) (A_mat code);
  ssm_B : matrix (num_input_bits code) (overall_constraint_length code)
            (B_mat code);
  ssm_well_formed : well_formed (finite_state_machine code);
  ssm_states :
    num_states (finite_state_machine code) =
      (2 ^ overall_constraint_length code)%nat;
  ssm_symbols :
    num_input_symbols (finite_state_machine code) =
      (2 ^ num_input_bits code)%nat;
  ssm_next : forall s x,
    (s < 2 ^ overall_constraint_length code)%nat ->
    (x < 2 ^ num_input_bits code)%nat ->
    Z.of_nat (next_state (finite_state_machine code) s x) =
      binlist2int
        (state_update code
           (int2binlist (Z.of_nat s) (overall_constraint_length code))
           (int2binlist (Z.of_nat x) (num_input_bits code)))
}.

Record TailBiting := {
  convolutional_code : ConvolutionalCode;
  num_blocks : nat
}.

Section TailBitingStrategy.
(** The absent [_util.matrices.pseudo_inverse]. *)
Variable pseudo_inverse : list (list Z) -> list (list Z).

Definition _zs_multiplier (self : TailBiting) : list (list Z) :=
  let h := num_blocks self in
  let nu := overall_constraint_length (convolutional_code self) in
  let A := A_mat (convolutional_code self) in
  pseudo_inverse (madd (matrix_power nu A h) (mmod2 (eye nu))).

Definition initial_state (self : TailBiting) (input_bits : list Z)
  : result Z :=
  let fsm := finite_state_machine (convolutional_code self) in
  let nu := overall_constraint_length (convolutional_code self) in
  do '(_, zs_response) <- process fsm input_bits 0;
  let zs_response := int2binlist zs_response nu in
  Ok (binlist2int (vmod2 (vecmat nu zs_response (_zs_multiplier self)))).

Definition pre_process_input (self : TailBiting) (input_bits : list Z)
  : result (list Z) :=
  let n := num_input_bits (convolutional_code self) in
  pack input_bits n.
End TailBitingStrategy.

Section StateSpace.
Variable code : ConvolutionalCode.
Hypothesis Hssm : state_space_machine code.

Let nu := overall_constraint_length code.
Let k0 := num_input_bits code.

Lemma matrix_power_matrix h : matrix nu nu (matrix_power nu (A_mat code) h).
Proof.
  destruct (ssm_A _ Hssm) as [HAl HAr]. fold nu in HAl, HAr.
  induction h as [| h [IH1 IH2]]; simpl; [apply eye_matrix |].
  split; [unfold matmul; by rewrite length_map |].
  apply Forall_map, Forall_forall. intros row _. simpl.
  by apply length_vecmat.
Qed.

Lemma length_state_update state x : length (state_update code state x) = nu.
Proof.
  unfold state_update. fold nu.
  destruct (ssm_A _ Hssm) as [_ HA]. destruct (ssm_B _ Hssm) as [_ HB].
  rewrite length_vmod2, length_vadd, !length_vecmat by done. lia.
Qed.

Lemma state_run_affine xs :
  forall v, binary v -> length v = nu ->
    state_run code v xs =
      vmod2 (vadd (vecmat nu v (matrix_power nu (A_mat code) (length xs)))
                  (state_run code (replicate nu 0) xs)).
Proof.
  destruct (ssm_A _ Hssm) as [HAl HA]. destruct (ssm_B _ Hssm) as [_ HB].
  fold nu in HAl, HA, HB.
  induction xs as [| x xs IH]; intros v Hv Hlen; simpl.
  - rewrite vecmat_eye, vadd_zero_r by done. by rewrite vmod2_binary.
  - pose proof (matrix_power_matrix (length xs)) as [_ HP].
    set (P := matrix_power nu (A_mat code) (length xs)) in *.
    set (R := state_run code (replicate nu 0) xs) in *.
    rewrite (IH (state_update code v x))
      by (apply binary_vmod2 || apply length_state_update).
    rewrite (IH (state_update code (replicate nu 0) x))
      by (apply binary_vmod2 || apply length_state_update).
    fold P R. unfold state_update. fold nu.
    set (a := vecmat nu v (A_mat code)).
    set (b := vecmat nu x (B_mat code)).
    assert (Hla : length a = nu) by (by apply length_vecmat).
    assert (Hlb : length b = nu) by (by apply length_vecmat).
    rewrite vecmat_zeros, (vadd_zero_l nu b) by done.
    rewrite vmod2_vadd_r.
    rewrite <- (vecmat_assoc nu nu v (A_mat code) P) by done. fold a.
    rewrite <- vadd_assoc.
    apply vmod2_vadd_proper; [| done].
    rewrite vmod2_vecmat_l, vecmat_vadd by (done || lia).
    apply vmod2_vadd_proper; [done |]. by rewrite vmod2_vecmat_l.
Qed.

Lemma process_state_space xs :
  forall v, binary v -> length v = nu ->
    Forall (fun x => 0 <= x < 2 ^ Z.of_nat k0) xs ->
    exists ys,
      process_from (finite_state_machine code) xs (binlist2int v) =
        Ok (ys,
            binlist2int
              (state_run code v (map (fun x => int2binlist x k0) xs))).
Proof.
  pose proof (ssm_well_formed _ Hssm) as Hwf.
  induction xs as [| x xs IH]; intros v Hv Hlen Hxs; simpl map.
  - simpl. eauto.
  - apply Forall_cons in Hxs as [Hx Hxs].
    pose proof (binlist2int_range v Hv) as Hr. rewrite Hlen in Hr.
    set (s := Z.to_nat (binlist2int v)).
    set (x' := Z.to_nat x).
    assert (Hs : (s < 2 ^ nu)%nat).
    { apply Nat2Z.inj_lt. rewrite Nat2Z.inj_pow. unfold s. simpl. lia. }
    assert (Hx' : (x' < 2 ^ k0)%nat).
    { apply Nat2Z.inj_lt. rewrite Nat2Z.inj_pow. unfold x'. simpl. lia. }
    assert (Hsv : Z.of_nat s = binlist2int v) by (unfold s; lia).
    assert (Hxv : Z.of_nat x' = x) by (unfold x'; lia).
    pose proof (process_from_cons _ Hwf xs s x') as Hcons.
    rewrite (ssm_states _ Hssm), (ssm_symbols _ Hssm) in Hcons.
    specialize (Hcons Hs Hx').
    rewrite (ssm_next _ Hssm s x' Hs Hx'), Hsv, Hxv in Hcons.
    fold nu k0 in Hcons. rewrite <- Hlen in Hcons at 1.
    rewrite int2binlist_binlist2int in Hcons by done.
    destruct (IH (state_update code v (int2binlist x k0)))
      as [ys Hys]; [apply binary_vmod2 | apply length_state_update | done |].
    rewrite Hcons, Hys. simpl. eauto.
Qed.

Lemma state_run_vector xs :
  forall v, binary v -> length v = nu ->
    binary (state_run code v xs) /\ length (state_run code v xs) = nu.
Proof.
  induction xs as [| x xs IH]; intros v Hv Hlen; simpl; [done |].
  apply IH; [apply binary_vmod2 | apply length_state_update].
Qed.
End StateSpace.

(** C2, as amended: when [A^h + I] is invertible over GF(2) and the
    multiplier is its inverse, the machine started in the state that
    [initial_state] computes from the pre-processed input ends in that
    state. *)
Theorem tail_biting_closes (pseudo_inverse : list (list Z) -> list (list Z))
    (self : TailBiting) (input_bits : list Z) :
  let code := convolutional_code self in
  let nu := overall_constraint_length code in
  state_space_machine code ->
  matrix nu nu (_zs_multiplier pseudo_inverse self) ->
  mmod2 (matmul nu (_zs_multiplier pseudo_inverse self)
           (madd (matrix_power nu (A_mat code) (num_blocks self))
                 (mmod2 (eye nu)))) = eye nu ->
  binary input_bits ->
  num_input_bits code <> 0%nat ->
  length input_bits = (num_input_bits code * num_blocks self)%nat ->
  exists input_sequence state output_sequence,
    pre_process_input self input_bits = Ok input_sequence /\
    initial_state pseudo_inverse self input_sequence = Ok state /\
    process (finite_state_machine code) input_sequence state =
      Ok (output_sequence, state).
Proof.
  intros code nu Hssm [HPl HP] Hinv Hbits Hk0 Hlen.
  set (P := _zs_multiplier pseudo_inverse self) in *.
  set (h := num_blocks self) in *.
  set (k0 := num_input_bits code) in *.
  destruct (pack_spec input_bits k0 h Hbits Hk0 Hlen) as (xs & Hpack & Hlx & Hxs).
  exists xs. unfold pre_process_input. fold code k0. rewrite Hpack.
  set (xbs := map (fun x => int2binlist x k0) xs).
  set (R := state_run code (replicate nu 0) xbs).
  destruct (state_run_vector code Hssm xbs (replicate nu 0)) as [HRb HRl];
    [by apply Forall_replicate; left | apply length_replicate |].
  fold nu R in HRb, HRl.
  (* the response from the zero state *)
  destruct (process_state_space code Hssm xs (replicate nu 0))
    as [ys0 Hzs]; [by apply Forall_replicate; left | apply length_replicate
                   | done |].
  rewrite binlist2int_zeros in Hzs. fold nu k0 xbs R in Hzs.
  set (s0 := vmod2 (vecmat nu R P)).
  assert (Hs0b : binary s0) by apply binary_vmod2.
  assert (Hs0l : length s0 = nu)
    by (unfold s0; by rewrite length_vmod2, length_vecmat).
  exists (binlist2int s0).
  unfold initial_state, process. fold code nu P. rewrite Hzs. simpl.
  assert (Hrt : int2binlist (binlist2int R) nu = R).
  { rewrite <- HRl. by apply int2binlist_binlist2int. }
  rewrite Hrt. fold s0.
  (* the run from the state computed *)
  destruct (process_state_space code Hssm xs s0 Hs0b Hs0l Hxs) as [ys Hrun].
  fold nu k0 xbs in Hrun. exists ys. split_and!; try done.
  rewrite Hrun. do 2 f_equal.
  rewrite (state_run_affine code Hssm xbs s0 Hs0b Hs0l). fold nu R.
  unfold xbs. rewrite length_map, Hlx.
  pose proof (matrix_power_matrix code Hssm h) as [HMl HM]. fold nu in HMl, HM.
  set (Ah := matrix_power nu (A_mat code) h) in *.
  set (a := vecmat nu s0 Ah).
  assert (Hal : length a = nu) by (by apply length_vecmat).
  destruct (eye_matrix nu) as [HIl HI].
  assert (HE : vmod2 (vadd a s0) = R).
  { assert (HMr : Forall (fun row => length row = nu)
                    (madd Ah (mmod2 (eye nu)))).
    { apply Forall_lookup. intros i row Hrow.
      apply lookup_zip_with_Some in Hrow as (r1 & r2 & -> & Hr1 & Hr2).
      rewrite Forall_lookup in HM. rewrite mmod2_eye in Hr2.
      rewrite Forall_lookup in HI.
      rewrite length_vadd, (HM _ _ Hr1), (HI _ _ Hr2). lia. }
    assert (HM2 : vecmat nu s0 (madd Ah (mmod2 (eye nu))) = vadd a s0).
    { rewrite vecmat_madd by (rewrite ?mmod2_eye; (done || lia)).
      by rewrite mmod2_eye, vecmat_eye. }
    rewrite <- HM2. unfold s0. rewrite vmod2_vecmat_l.
    rewrite (vecmat_assoc nu nu R P) by done.
    rewrite <- vmod2_vecmat_r, Hinv.
    rewrite vecmat_eye by done. by apply vmod2_binary. }
  rewrite <- HE, vmod2_vadd_r, vmod2_cancel by lia.
  by rewrite vmod2_binary.
Qed.

(** The recursive encoder [1 / (1 + D)], whose machine is the accumulator,
    and the feed-forward encoder whose machine is that of the docstring. *)
Definition accumulator_code : ConvolutionalCode :=
  {| num_input_bits := 1;
     overall_constraint_length := 1;
     A_mat := [[1]];
     B_mat := [[1]];
     finite_state_machine := accumulator_fsm |}.

Definition example_code : ConvolutionalCode :=
  {| num_input_bits := 1;
     overall_constraint_length := 2;
     A_mat := [[0; 1]; [0; 0]];
     B_mat := [[1; 0]];
     finite_state_machine := example_fsm |}.

Lemma accumulator_fsm_well_formed : well_formed accumulator_fsm.
Proof. solve_well_formed. Qed.

Lemma accumulator_state_space : state_space_machine accumulator_code.
Proof.
  constructor.
  1, 2: by split; simpl; repeat constructor.
  1: exact accumulator_fsm_well_formed.
  1, 2: reflexivity.
  simpl. intros s x Hs Hx.
  assert (Hs2 : (s = 0 \/ s = 1)%nat) by lia.
  assert (Hx2 : (x = 0 \/ x = 1)%nat) by lia.
  destruct_or!; subst; vm_compute; reflexivity.
Qed.

Lemma example_state_space : state_space_machine example_code.
Proof.
  constructor.
  1, 2: by split; simpl; repeat constructor.
  1: exact example_fsm_well_formed.
  1, 2: reflexivity.
  simpl. intros s x Hs Hx.
  assert (Hs4 : (s = 0 \/ s = 1 \/ s = 2 \/ s = 3)%nat) by lia.
  assert (Hx2 : (x = 0 \/ x = 1)%nat) by lia.
  destruct_or!; subst; vm_compute; reflexivity.
Qed.

(** C2 as stated fails: for the accumulator and one block, the input
    [[1]] flips the state, so neither state closes; whatever parity the
    entry of the multiplier has, the machine ends in the other state. *)
Lemma tail_biting_accumulator_open :
  state_space_machine accumulator_code /\
  Forall
    (fun multiplier =>
       exists input_sequence state output_sequence final_state,
         pre_process_input
           {| convolutional_code := accumulator_code; num_blocks := 1 |}
           [1] = Ok input_sequence /\
         initial_state (fun _ => multiplier)
           {| convolutional_code := accumulator_code; num_blocks := 1 |}
           input_sequence = Ok state /\
         process accumulator_fsm input_sequence state =
           Ok (output_sequence, final_state) /\
         final_state <> state)
    [[[0]]; [[1]]].
Proof.
  split; [exact accumulator_state_space |].
  repeat constructor.
  - exists [1], 0, [1], 1. split_and!; [vm_compute; reflexivity .. | lia].
  - exists [1], 1, [0], 0. split_and!; [vm_compute; reflexivity .. | lia].
Qed.

Lemma tail_biting_closes_witness :
  exists input_sequence state output_sequence,
    pre_process_input
      {| convolutional_code := example_code; num_blocks := 3 |} [1; 0; 1] =
      Ok input_sequence /\
    initial_state (fun _ => eye 2)
      {| convolutional_code := example_code; num_blocks := 3 |}
      input_sequence = Ok state /\
    process example_fsm input_sequence state = Ok (output_sequence, state).
Proof.
  apply (tail_biting_closes (fun _ => eye 2)
           {| convolutional_code := example_code; num_blocks := 3 |}
           [1; 0; 1]).
  - exact example_state_space.
  - apply eye_matrix.
  - vm_compute. reflexivity.
  - repeat constructor; lia.
  - simpl. lia.
  - reflexivity.
Defined.

(** * Further properties of the machine and of its decoders *)

(** ** [process] *)

Lemma get1_wrap {A} (row : list A) x :
  - Z.of_nat (length row) <= x < Z.of_nat (length row) ->
  get1 row x = get1 row (x mod Z.of_nat (length row)).
Proof.
  intros Hx. unfold get1, np_index.
  destruct (decide (0 <= x)) as [Hnn | Hneg].
  - by rewrite Z.mod_small by lia.
  - assert (Hm : x mod Z.of_nat (length row) = x + Z.of_nat (length row)).
    { symmetry. apply (Z.mod_unique _ _ (-1)); lia. }
    rewrite Hm. repeat case_decide; try lia. done.
Qed.

Lemma get2_wrap_column {A} (a : list (list A)) n s x :
  Forall (fun row => length row = n) a ->
  - Z.of_nat n <= x < Z.of_nat n ->
  get2 a s x = get2 a s (x mod Z.of_nat n).
Proof.
  intros Hrows Hx. unfold get2.
  destruct (get1 a s) as [row | e] eqn:Hrow; simpl; [| done].
  apply get1_Ok in Hrow as (k & _ & Hk).
  assert (Hlen : length row = n) by (rewrite Forall_lookup in Hrows; eauto).
  rewrite <- Hlen. apply get1_wrap. lia.
Qed.

(** X1: feeding the machine two sequences one after the other, the second
    from the state the first one ends in, is feeding it their
    concatenation; an error of either part is the error of the whole. *)
Theorem process_app fsm input_sequence1 input_sequence2 initial_state :
  process fsm (input_sequence1 ++ input_sequence2) initial_state =
    (do '(output_sequence1, state) <-
       process fsm input_sequence1 initial_state;
     do '(output_sequence2, final_state) <-
       process fsm input_sequence2 state;
     Ok (output_sequence1 ++ output_sequence2, final_state)).
Proof.
  unfold process. revert initial_state.
  induction input_sequence1 as [| x xs IH]; intros s; simpl.
  - by destruct (process_from fsm input_sequence2 s) as [[ys f] |].
  - destruct (get2 (outputs fsm) s x) as [y |]; simpl; [| done].
    destruct (get2 (next_states fsm) s x) as [s' |]; simpl; [| done].
    rewrite IH.
    destruct (process_from fsm xs s') as [[ys1 s1] |]; simpl; [| done].
    by destruct (process_from fsm input_sequence2 s1) as [[ys2 f] |].
Qed.

Lemma elem_of_concat {A} (x : A) (ls : list (list A)) :
  x ∈ concat ls <-> exists l, l ∈ ls /\ x ∈ l.
Proof.
  rewrite list_elem_of_In, in_concat. split.
  - intros (l & Hl & Hx). exists l. by rewrite !list_elem_of_In.
  - intros (l & Hl & Hx). exists l. by rewrite <- !list_elem_of_In.
Qed.

Lemma elem_of_outputs fsm s x :
  well_formed fsm ->
  (s < num_states fsm)%nat -> (x < num_input_symbols fsm)%nat ->
  output fsm s x ∈ concat (outputs fsm).
Proof.
  intros Hwf Hs Hx.
  destruct (outputs_lookup fsm Hwf s x Hs Hx) as (row & Hrow & _ & Hv).
  apply elem_of_concat. exists row.
  split; [by eapply list_elem_of_lookup_2 | by eapply list_elem_of_lookup_2].
Qed.

Lemma process_from_returns fsm xs s :
  well_formed fsm ->
  0 <= s < Z.of_nat (num_states fsm) ->
  Forall (fun x => 0 <= x < Z.of_nat (num_input_symbols fsm)) xs ->
  exists ys final_state,
    process_from fsm xs s = Ok (ys, final_state) /\
    length ys = length xs /\
    0 <= final_state < Z.of_nat (num_states fsm) /\
    Forall (fun y => y ∈ concat (outputs fsm)) ys.
Proof.
  intros Hwf Hs Hxs. revert s Hs.
  induction Hxs as [| x xs Hx _ IH]; intros s Hs.
  - exists [], s. split_and!; first [done | lia | constructor].
  - rewrite <- (Z2Nat.id s), <- (Z2Nat.id x) by lia.
    rewrite (process_from_cons fsm Hwf) by lia.
    destruct (next_states_lookup fsm Hwf (Z.to_nat s) (Z.to_nat x))
      as (_ & _ & _ & _ & Hs'); [lia | lia |].
    destruct (IH (Z.of_nat (next_state fsm (Z.to_nat s) (Z.to_nat x))))
      as (ys & f & -> & Hlen & Hf & Hys); [lia |].
    simpl. eexists _, f. split_and!; [done | simpl; lia | lia | lia |].
    constructor; [| done]. apply elem_of_outputs; [done | lia | lia].
Qed.

(** X2: on a machine whose tables have one shape and whose next states
    are states, [process] started in a state on a sequence of input symbols
    returns: one output per input, each an entry of [outputs], and a final
    state that is a state. *)
Theorem process_returns fsm input_sequence initial_state :
  well_formed fsm ->
  0 <= initial_state < Z.of_nat (num_states fsm) ->
  Forall (fun x => 0 <= x < Z.of_nat (num_input_symbols fsm))
    input_sequence ->
  exists output_sequence final_state,
    process fsm input_sequence initial_state =
      Ok (output_sequence, final_state) /\
    length output_sequence = length input_sequence /\
    0 <= final_state < Z.of_nat (num_states fsm) /\
    Forall (fun y => y ∈ concat (outputs fsm)) output_sequence.
Proof. unfold process. apply process_from_returns. Qed.

Lemma process_returns_witness :
  exists output_sequence final_state,
    process example_fsm [1; 0; 0; 1] 3 = Ok (output_sequence, final_state) /\
    length output_sequence = length [1; 0; 0; 1] /\
    0 <= final_state < Z.of_nat (num_states example_fsm) /\
    Forall (fun y => y ∈ concat (outputs example_fsm)) output_sequence.
Proof.
  apply (process_returns example_fsm [1; 0; 0; 1] 3).
  - exact example_fsm_well_formed.
  - unfold num_states. simpl. lia.
  - unfold num_input_symbols. simpl. repeat constructor; lia.
Defined.

(** X3: [process] does not reject a negative symbol down to minus the
    size of the input alphabet; it reads the tables from the end, so the
    symbol [x] is processed as [x + num_input_symbols]. *)
Theorem process_wraps_symbols fsm input_sequence initial_state :
  well_formed fsm ->
  Forall (fun x => - Z.of_nat (num_input_symbols fsm) <= x
                   < Z.of_nat (num_input_symbols fsm)) input_sequence ->
  process fsm input_sequence initial_state =
    process fsm
      (map (fun x => x mod Z.of_nat (num_input_symbols fsm)) input_sequence)
      initial_state.
Proof.
  intros Hwf Hxs. unfold process. revert initial_state.
  induction Hxs as [| x xs Hx _ IH]; intros s; simpl; [done |].
  rewrite <- (get2_wrap_column (outputs fsm) _ s x (wf_out_shape _ Hwf) Hx).
  rewrite <- (get2_wrap_column (next_states fsm) _ s x
                (wf_next_shape _ Hwf) Hx).
  destruct (get2 (outputs fsm) s x) as [y |]; simpl; [| done].
  destruct (get2 (next_states fsm) s x) as [s' |]; simpl; [| done].
  by rewrite IH.
Qed.

Lemma process_wraps_symbols_witness :
  process example_fsm [1; -1; -2] 0 =
    process example_fsm
      (map (fun x => x mod Z.of_nat (num_input_symbols example_fsm))
         [1; -1; -2]) 0.
Proof.
  apply (process_wraps_symbols example_fsm [1; -1; -2] 0).
  - exact example_fsm_well_formed.
  - unfold num_input_symbols. simpl. repeat constructor; lia.
Defined.

(** ** [num_output_symbols] *)

Lemma foldl_max_spec (v : Z) (vs : list Z) :
  foldl Z.max v vs ∈ v :: vs /\
  forall y, y ∈ v :: vs -> y <= foldl Z.max v vs.
Proof.
  revert v. induction vs as [| w vs IH]; intros v; simpl.
  - split; [apply list_elem_of_here |].
    intros y ->%list_elem_of_singleton. lia.
  - destruct (IH (Z.max v w)) as [Hin Hmax]. split.
    + apply elem_of_cons in Hin as [Heq | Hin].
      * rewrite Heq. destruct (Z.max_spec v w) as [[_ ->] | [_ ->]].
        -- apply list_elem_of_further, list_elem_of_here.
        -- apply list_elem_of_here.
      * by do 2 apply list_elem_of_further.
    + intros y Hy.
      assert (Hvw : Z.max v w <= foldl Z.max (Z.max v w) vs)
        by apply Hmax, list_elem_of_here.
      apply elem_of_cons in Hy as [-> | Hy]; [lia |].
      apply elem_of_cons in Hy as [-> | Hy]; [lia |].
      by apply Hmax, list_elem_of_further.
Qed.

(** X4: [num_output_symbols] returns the largest entry of [outputs], an
    output the machine has, and raises [ValueError] when [outputs] has no
    entry; it adds nothing to the largest entry. *)
Theorem num_output_symbols_largest fsm :
  match num_output_symbols fsm with
  | Ok m =>
      m ∈ concat (outputs fsm) /\
      forall y, y ∈ concat (outputs fsm) -> y <= m
  | Raise e => e = ValueError /\ concat (outputs fsm) = []
  end.
Proof.
  unfold num_output_symbols, amax.
  destruct (concat (outputs fsm)) as [| v vs]; [done |].
  apply foldl_max_spec.
Qed.

(** ** The edge tables of a machine with parallel edges *)

Lemma enumerated_before_step k i s0 x :
  enumerated_before k (S i) s0 x <->
  enumerated_before k i s0 x \/ (s0 = k /\ x = i).
Proof. unfold enumerated_before. lia. Qed.

Section EdgeTablesGeneral.
Variable fsm : FiniteStateMachine.
Hypothesis Hwf : well_formed fsm.

(** What the entries [[s0, s1]] of the two tables hold once the edges
    before [(k, i)] are written: [-1] when none of them goes from [s0] to
    [s1], else the input and the output of the last one that does. *)
Definition edge_entry (k i s0 s1 : nat) (v w : Z) : Prop :=
  (v = -1 /\ w = -1 /\
   forall x, enumerated_before k i s0 x ->
     (x < num_input_symbols fsm)%nat -> next_state fsm s0 x <> s1) \/
  (exists x,
     enumerated_before k i s0 x /\ (x < num_input_symbols fsm)%nat /\
     next_state fsm s0 x = s1 /\ v = Z.of_nat x /\ w = output fsm s0 x /\
     forall x', enumerated_before k i s0 x' ->
       (x' < num_input_symbols fsm)%nat ->
       next_state fsm s0 x' = s1 -> (x' <= x)%nat).

Definition edge_entries (k i : nat)
    (edges : list (list Z) * list (list Z)) : Prop :=
  edges_square (num_states fsm) edges /\
  forall s0 s1, (s0 < num_states fsm)%nat -> (s1 < num_states fsm)%nat ->
    exists v w,
      edges.1 !! s0 ≫= (fun row => row !! s1) = Some v /\
      edges.2 !! s0 ≫= (fun row => row !! s1) = Some w /\
      edge_entry k i s0 s1 v w.


Lemma edge_entry_same_edges k i k' i' s0 s1 v w :
  (forall x, (x < num_input_symbols fsm)%nat -> next_state fsm s0 x = s1 ->
     enumerated_before k i s0 x <-> enumerated_before k' i' s0 x) ->
  edge_entry k i s0 s1 v w -> edge_entry k' i' s0 s1 v w.
Proof.
  intros Heq [(-> & -> & Hnone) | (x & Hb & Hx & Hn & -> & -> & Hlast)].
  - left. split_and!; try done. intros x Hb Hx Hn.
    apply (Hnone x); [by apply Heq | done | done].
  - right. exists x. split_and!; try done; [by apply Heq |].
    intros x' Hb' Hx' Hn'. apply Hlast; [by apply Heq | done | done].
Qed.

Lemma post_init_edge_entries k i edges :
  (k < num_states fsm)%nat -> (i < num_input_symbols fsm)%nat ->
  edge_entries k i edges ->
  exists edges',
    post_init_edge (outputs fsm) k edges
      (i, Z.of_nat (next_state fsm k i)) = Ok edges' /\
    edge_entries k (S i) edges'.
Proof.
  intros Hk Hi [[Hie Hoe] Hinv]. destruct edges as [ie oe]. simpl in *.
  destruct (next_states_lookup fsm Hwf k i Hk Hi) as (_ & _ & _ & _ & Hj).
  set (j := next_state fsm k i) in *.
  destruct Hie as [Hiel Hier], Hoe as [Hoel Hoer].
  destruct (lookup_lt_is_Some_2 ie k) as [ri Hri]; [lia |].
  destruct (lookup_lt_is_Some_2 oe k) as [ro Hro]; [lia |].
  assert (Hril : length ri = num_states fsm)
    by (rewrite Forall_lookup in Hier; eauto).
  assert (Hrol : length ro = num_states fsm)
    by (rewrite Forall_lookup in Hoer; eauto).
  rewrite (set2_nat _ _ _ _ _ Hri) by lia. simpl.
  rewrite (get2_outputs fsm Hwf k i Hk Hi). simpl.
  rewrite (set2_nat _ _ _ _ _ Hro) by lia. simpl.
  eexists. split; [reflexivity |]. split.
  - split; simpl; (split; [by rewrite length_insert |]);
      (apply Forall_insert; [done | by rewrite length_insert]).
  - simpl. intros s0 s1 Hs0 Hs1.
    destruct (Hinv s0 s1 Hs0 Hs1) as (v & w & Hv & Hw & He).
    destruct (decide (s0 = k)) as [-> | Hne].
    + rewrite !list_lookup_insert_eq by lia. simpl.
      rewrite Hri in Hv. rewrite Hro in Hw. simpl in Hv, Hw.
      destruct (decide (s1 = j)) as [-> | Hnej].
      * rewrite !list_lookup_insert_eq by lia.
        exists (Z.of_nat i), (output fsm k i).
        split; [done |]. split; [done |].
        right. exists i. split; [unfold enumerated_before; lia |].
        split; [done |]. split; [done |]. split; [done |]. split; [done |].
        intros x' Hb' _ _. unfold enumerated_before in Hb'. lia.
      * rewrite !list_lookup_insert_ne by done.
        exists v, w. split; [done |]. split; [done |].
        revert He. apply edge_entry_same_edges.
        intros x _ Hn. rewrite enumerated_before_step.
        split; [by left |]. intros [? | [_ ->]]; [done |]. by subst j.
    + rewrite !list_lookup_insert_ne by done.
      exists v, w. split; [done |]. split; [done |].
      revert He. apply edge_entry_same_edges.
      intros x _ _. unfold enumerated_before. lia.
Qed.

Lemma post_init_row_entries k edges :
  (k < num_states fsm)%nat ->
  edge_entries k 0 edges ->
  exists edges',
    post_init_row (next_states fsm) (outputs fsm) edges k = Ok edges' /\
    edge_entries (S k) 0 edges'.
Proof.
  intros Hk Hinv. unfold post_init_row.
  destruct (lookup_lt_is_Some_2 (next_states fsm) k Hk) as [rn Hrn].
  assert (Hlenn : length rn = num_input_symbols fsm).
  { pose proof (wf_next_shape _ Hwf) as H.
    rewrite Forall_lookup in H. eauto. }
  replace (item (next_states fsm) k) with (Ok rn)
    by (symmetry; by apply item_Ok).
  simpl.
  destruct (for_each_invariant (edge_entries k)
              (post_init_edge (outputs fsm) k) (enumerate rn) edges)
    as (edges' & Hrun & Hinv'); [done | |].
  - intros n [x st] b [Hx Hst]%lookup_enumerate Hb. simpl in Hx, Hst.
    subst x.
    assert (Hnx : (n < num_input_symbols fsm)%nat)
      by (rewrite <- Hlenn; by eapply lookup_lt_Some).
    destruct (next_states_lookup fsm Hwf k n Hk Hnx)
      as (rn' & Hrn' & _ & Hv & _).
    assert (rn' = rn) as -> by congruence.
    assert (st = Z.of_nat (next_state fsm k n)) as -> by congruence.
    by apply post_init_edge_entries.
  - exists edges'. split; [done |].
    unfold enumerate in Hinv'.
    rewrite length_zip_with, length_seq, Nat.min_id, Hlenn in Hinv'.
    destruct Hinv' as [Hsq Hinv']. split; [done |].
    intros s0 s1 Hs0 Hs1.
    destruct (Hinv' s0 s1 Hs0 Hs1) as (v & w & Hv & Hw & He).
    exists v, w. split; [done |]. split; [done |].
    revert He. apply edge_entry_same_edges.
    intros x Hx _. unfold enumerated_before. lia.
Qed.

Lemma attrs_post_init_entries :
  exists edges,
    attrs_post_init (next_states fsm) (outputs fsm) = Ok edges /\
    edge_entries (num_states fsm) 0 edges.
Proof.
  unfold attrs_post_init. fold (num_states fsm).
  destruct (for_each_invariant (fun k => edge_entries k 0)
              (post_init_row (next_states fsm) (outputs fsm))
              (seq 0 (num_states fsm))
              (full (num_states fsm) (num_states fsm) (-1),
               full (num_states fsm) (num_states fsm) (-1)))
    as (edges & Hrun & Hinv).
  - split; [split; apply square_full |].
    intros s0 s1 Hs0 Hs1. exists (-1), (-1). simpl.
    rewrite !lookup_full by done. split; [done |]. split; [done |].
    left. split; [done |]. split; [done |].
    intros x Hb. unfold enumerated_before in Hb. lia.
  - intros n a b [-> Hn]%lookup_seq Hb. by apply post_init_row_entries.
  - rewrite length_seq in Hinv. eauto.
Qed.

(** The entries of the tables of a machine, read with [a[s0, s1]]. *)
Lemma constructed_entries :
  constructed fsm ->
  square (num_states fsm) (input_edges fsm) /\
  square (num_states fsm) (output_edges fsm) /\
  forall s0 s1, (s0 < num_states fsm)%nat -> (s1 < num_states fsm)%nat ->
    exists v w,
      get2 (input_edges fsm) (Z.of_nat s0) (Z.of_nat s1) = Ok v /\
      get2 (output_edges fsm) (Z.of_nat s0) (Z.of_nat s1) = Ok w /\
      edge_entry (num_states fsm) 0 s0 s1 v w.
Proof.
  intros Hcons.
  destruct attrs_post_init_entries as (edges & Hrun & [[Hsi Hso] Hinv]).
  unfold constructed in Hcons. rewrite Hcons in Hrun.
  injection Hrun as <-. simpl in *. split; [done |]. split; [done |].
  intros s0 s1 Hs0 Hs1.
  destruct (Hinv s0 s1 Hs0 Hs1) as (v & w & Hv & Hw & He).
  exists v, w. unfold input_edges, output_edges.
  destruct (_input_edges fsm !! s0) as [ri |] eqn:Hri; [| done].
  destruct (_output_edges fsm !! s0) as [ro |] eqn:Hro; [| done].
  simpl in Hv, Hw.
  split; [by eapply get2_nat |]. split; [by eapply get2_nat | done].
Qed.
End EdgeTablesGeneral.

(** X5: for tables of one shape whose next states are states and whose
    outputs fit [int64], [__attrs_post_init__] returns two square tables;
    the entries [[s0, s1]] are [-1] when no input takes [s0] to [s1], and
    otherwise the largest input that does and the output of that edge: of
    parallel edges the last one is kept. *)
Theorem edge_tables_keep_last_edge fsm :
  well_formed fsm ->
  Forall (Forall fits_int64) (outputs fsm) ->
  exists ie oe,
    attrs_post_init (next_states fsm) (outputs fsm) = Ok (ie, oe) /\
    square (num_states fsm) ie /\ square (num_states fsm) oe /\
    forall s0 s1, (s0 < num_states fsm)%nat -> (s1 < num_states fsm)%nat ->
      exists v w,
        get2 ie (Z.of_nat s0) (Z.of_nat s1) = Ok v /\
        get2 oe (Z.of_nat s0) (Z.of_nat s1) = Ok w /\
        ((v = -1 /\ w = -1 /\
          forall x, (x < num_input_symbols fsm)%nat ->
            next_state fsm s0 x <> s1) \/
         (exists x,
            (x < num_input_symbols fsm)%nat /\ next_state fsm s0 x = s1 /\
            v = Z.of_nat x /\ w = output fsm s0 x /\
            forall x', (x' < num_input_symbols fsm)%nat ->
              next_state fsm s0 x' = s1 -> (x' <= x)%nat)).
Proof.
  intros Hwf _.
  destruct (attrs_post_init_entries fsm Hwf)
    as ([ie oe] & Hrun & [[Hsi Hso] Hinv]).
  exists ie, oe. simpl in *. split; [done |]. split; [done |].
  split; [done |].
  intros s0 s1 Hs0 Hs1.
  destruct (Hinv s0 s1 Hs0 Hs1) as (v & w & Hv & Hw & He).
  exists v, w.
  destruct (ie !! s0) as [ri |] eqn:Hri; [| done].
  destruct (oe !! s0) as [ro |] eqn:Hro; [| done].
  simpl in Hv, Hw.
  split; [by eapply get2_nat |]. split; [by eapply get2_nat |].
  destruct He as [(-> & -> & Hnone) | (x & Hb & Hx & Hn & -> & -> & Hlast)].
  - left. split; [done |]. split; [done |].
    intros x Hx. apply Hnone; [by left | done].
  - right. exists x. split; [done |]. split; [done |]. split; [done |].
    split; [done |].
    intros x' Hx' Hn'. apply Hlast; [by left | done | done].
Qed.

(** A machine with two edges from state [0] to state [0]. *)
Definition parallel_fsm : FiniteStateMachine :=
  {| next_states := [[0; 0]; [1; 0]];
     outputs := [[0; 1]; [1; 0]];
     _input_edges := [[1; -1]; [1; 0]];
     _output_edges := [[1; -1]; [0; 1]] |}.

Lemma parallel_fsm_constructed :
  new_FiniteStateMachine [[0; 0]; [1; 0]] [[0; 1]; [1; 0]] = Ok parallel_fsm.
Proof. vm_compute. reflexivity. Qed.

Lemma parallel_fsm_well_formed : well_formed parallel_fsm.
Proof. solve_well_formed. Qed.

Lemma edge_tables_keep_last_edge_witness :
  exists ie oe,
    attrs_post_init (next_states parallel_fsm) (outputs parallel_fsm) =
      Ok (ie, oe) /\
    square (num_states parallel_fsm) ie /\
    square (num_states parallel_fsm) oe /\
    forall s0 s1,
      (s0 < num_states parallel_fsm)%nat ->
      (s1 < num_states parallel_fsm)%nat ->
      exists v w,
        get2 ie (Z.of_nat s0) (Z.of_nat s1) = Ok v /\
        get2 oe (Z.of_nat s0) (Z.of_nat s1) = Ok w /\
        ((v = -1 /\ w = -1 /\
          forall x, (x < num_input_symbols parallel_fsm)%nat ->
            next_state parallel_fsm s0 x <> s1) \/
         (exists x,
            (x < num_input_symbols parallel_fsm)%nat /\
            next_state parallel_fsm s0 x = s1 /\
            v = Z.of_nat x /\ w = output parallel_fsm s0 x /\
            forall x', (x' < num_input_symbols parallel_fsm)%nat ->
              next_state parallel_fsm s0 x' = s1 -> (x' <= x)%nat)).
Proof.
  apply (edge_tables_keep_last_edge parallel_fsm).
  - exact parallel_fsm_well_formed.
  - apply (bool_decide_unpack _). vm_compute. exact I.
Defined.

(** ** The survivors of [viterbi] *)

(** The outputs on the path that leaves [s] on the inputs [xs]. *)
Fixpoint outputs_along (fsm : FiniteStateMachine) (s : nat) (xs : list nat)
  : list Z :=
  match xs with
  | [] => []
  | x :: xs' => output fsm s x :: outputs_along fsm (next_state fsm s x) xs'
  end.

(** The metric of a path: the costs of its outputs against the
    observations, added to the initial metric [m] in time order. *)
Fixpoint path_cost {Obs} (metric_function : Z -> Obs -> float) (m : float)
    (ys : list Z) (zs : list Obs) : float :=
  match ys, zs with
  | y :: ys', z :: zs' =>
      path_cost metric_function (fadd m (metric_function y z)) ys' zs'
  | _, _ => m
  end.

(** Two input sequences that take the machine from [s] through the same
    states, the second one along the last of the parallel edges. *)
Fixpoint same_moves (fsm : FiniteStateMachine) (s : nat) (xs xs' : list nat)
  : Prop :=
  match xs, xs' with
  | [], [] => True
  | x :: r, x' :: r' =>
      next_state fsm s x' = next_state fsm s x /\
      (x <= x' < num_input_symbols fsm)%nat /\
      same_moves fsm (next_state fsm s x) r r'
  | _, _ => False
  end.

(** No two inputs take a state to the same next state. *)
Definition no_parallel_edges (fsm : FiniteStateMachine) : Prop :=
  forall s x x',
    (s < num_states fsm)%nat ->
    (x < num_input_symbols fsm)%nat -> (x' < num_input_symbols fsm)%nat ->
    next_state fsm s x = next_state fsm s x' -> x = x'.

Lemma same_moves_final fsm s xs xs' :
  same_moves fsm s xs xs' ->
  foldl (next_state fsm) s xs' = foldl (next_state fsm) s xs /\
  length xs' = length xs /\
  Forall (fun x => (x < num_input_symbols fsm)%nat) xs'.
Proof.
  revert s xs'. induction xs as [| x xs IH]; intros s [| x' xs']; simpl;
    try done.
  intros (Hn & Hx & Hrest). rewrite Hn.
  destruct (IH _ _ Hrest) as (Hf & Hl & Hall).
  split_and!; [done | lia |]. constructor; [lia | done].
Qed.

Lemma same_moves_eq fsm s xs xs' :
  no_parallel_edges fsm -> (s < num_states fsm)%nat -> well_formed fsm ->
  Forall (fun x => (x < num_input_symbols fsm)%nat) xs ->
  same_moves fsm s xs xs' -> xs' = xs.
Proof.
  intros Hnp Hs Hwf Hxs. revert s xs' Hs.
  induction Hxs as [| x xs Hx _ IH]; intros s [| x' xs'] Hs; simpl; try done.
  intros (Hn & Hx' & Hrest).
  assert (x' = x) as -> by (apply (Hnp s); [done | lia | done | done]).
  f_equal. apply (IH (next_state fsm s x)); [| done].
  by destruct (next_states_lookup fsm Hwf s x Hs Hx) as (_ & _ & _ & _ & ?).
Qed.

Lemma process_from_nat fsm s xs :
  well_formed fsm -> (s < num_states fsm)%nat ->
  Forall (fun x => (x < num_input_symbols fsm)%nat) xs ->
  process_from fsm (map Z.of_nat xs) (Z.of_nat s) =
    Ok (outputs_along fsm s xs, Z.of_nat (foldl (next_state fsm) s xs)).
Proof.
  intros Hwf Hs Hxs. revert s Hs.
  induction Hxs as [| x xs Hx _ IH]; intros s Hs; [done |].
  cbn [map]. rewrite (process_from_cons fsm Hwf) by done.
  destruct (next_states_lookup fsm Hwf s x Hs Hx) as (_ & _ & _ & _ & Hs').
  by rewrite (IH _ Hs').
Qed.

Section ViterbiPaths.
Context {Obs : Type}.
Variable fsm : FiniteStateMachine.
Hypothesis Hwf : well_formed fsm.
Hypothesis Hcons : constructed fsm.
Variable metric_function : Z -> Obs -> float.
Variable empty_int : nat -> nat -> Z.

(** One time step: a slot of the new row is [inf], with the choice left
    as it was, or the candidate below [inf] of an edge into the state, with
    the source of that edge as the choice. *)
Lemma relax_all_slots row (z : Obs) choices0 :
  length row = num_states fsm -> length choices0 = num_states fsm ->
  exists row' choices,
    relax_all fsm metric_function (item row) z
      (replicate (num_states fsm) finf) choices0 = Ok (row', choices) /\
    length row' = num_states fsm /\ length choices = num_states fsm /\
    forall j, (j < num_states fsm)%nat ->
      exists m c,
        row' !! j = Some m /\ choices !! j = Some c /\
        ((m = finf /\ choices0 !! j = Some c) \/
         exists s0 x,
           (s0 < num_states fsm)%nat /\ (x < num_input_symbols fsm)%nat /\
           next_state fsm s0 x = j /\ c = Z.of_nat s0 /\
           flt m finf = true /\
           m = fadd (metric_at row s0)
                 (metric_function (output fsm s0 x) z)).
Proof.
  intros Hlen Hch.
  destruct (relax_all_inv fsm Hwf metric_function (item row) (metric_at row)
              (fun s0 H => item_metric_at row s0
                             (eq_ind_r (fun n => (s0 < n)%nat) H Hlen))
              z choices0 Hch)
    as ([row' choices] & Hrun & Hl1 & Hl2 & Hslots).
  simpl in Hl1, Hl2, Hslots. exists row', choices.
  split; [done |]. split; [done |]. split; [done |].
  intros j Hj. destruct (Hslots j Hj) as (m & c & Hm & Hc & _ & Hwin).
  exists m, c. split; [done |]. split; [done |].
  destruct Hwin as [? | (s0 & x & _ & (Hs0 & Hx & Hn) & Hmc & -> & Hlt & _)];
    [by left | right].
  exists s0, x. by split_and!.
Qed.

Lemma backtrack_returns choices_rev s :
  Forall (valid_states (num_states fsm)) choices_rev ->
  0 <= s < Z.of_nat (num_states fsm) ->
  exists col, backtrack fsm choices_rev s = Ok col.
Proof.
  destruct (constructed_entries fsm Hwf Hcons) as (Hsq & _ & _).
  intros Hall. revert s.
  induction Hall as [| row rest [Hlen Hrow] _ IH]; intros s Hs; simpl.
  - eauto.
  - destruct (lookup_lt_is_Some_2 row (Z.to_nat s)) as [s0 Hs0]; [lia |].
    assert (Hr : 0 <= s0 < Z.of_nat (num_states fsm))
      by (rewrite Forall_lookup in Hrow; eauto).
    assert (Hg : get1 row s = Ok s0).
    { rewrite <- (Z2Nat.id s) by lia. by apply get1_nat. }
    rewrite Hg. simpl.
    destruct (get2_square _ _ s0 s Hsq Hr Hs) as [x ->].
    simpl. destruct (IH s0 Hr) as [xs ->]. simpl. eauto.
Qed.

Definition settled (row : list float) : Prop :=
  Forall (fun m => m = finf \/ flt m finf = true) row.

Lemma viterbi_forward_paths zs :
  forall t row,
    length row = num_states fsm ->
    exists choices row_L,
      viterbi_forward fsm metric_function empty_int t zs row =
        Ok (choices, row_L) /\
      length choices = length zs /\ length row_L = num_states fsm /\
      (harmless fsm empty_int ->
       Forall (valid_states (num_states fsm)) choices) /\
      (zs <> [] -> settled row_L) /\
      forall s, reached row_L s ->
        exists a0 xs xs',
          reached row a0 /\ length xs = length zs /\
          Forall (fun x => (x < num_input_symbols fsm)%nat) xs /\
          foldl (next_state fsm) a0 xs = s /\
          metric_at row_L s =
            path_cost metric_function (metric_at row a0)
              (outputs_along fsm a0 xs) zs /\
          same_moves fsm a0 xs xs' /\
          forall rest,
            backtrack fsm (reverse choices ++ rest) (Z.of_nat s) =
              (do pre <- backtrack fsm rest (Z.of_nat a0);
               Ok (pre ++ map Z.of_nat xs')).
Proof.
  destruct (constructed_entries fsm Hwf Hcons) as (_ & _ & Hentries).
  induction zs as [| z zs IH]; intros t row Hlen.
  - exists [], row. simpl. split_and!; try done.
    intros s Hs. exists s, [], []. simpl. split_and!; try done.
    intros rest. destruct (backtrack fsm rest (Z.of_nat s)); simpl; [| done].
    by rewrite app_nil_r.
  - set (choices0 := map (empty_int t) (seq 0 (num_states fsm))).
    assert (Hch0 : length choices0 = num_states fsm)
      by (unfold choices0; by rewrite length_map, length_seq).
    destruct (relax_all_slots row z choices0 Hlen Hch0)
      as (row1 & ch & Hstep & Hl1 & Hlc & Hslots).
    destruct (IH (S t) row1 Hl1)
      as (cs & row_L & Hfwd & Hlcs & HlL & Hvalid & Hsettled & Hpaths).
    exists (ch :: cs), row_L. simpl. fold choices0. rewrite Hstep. simpl.
    rewrite Hfwd. simpl.
    assert (Hrow1 : settled row1).
    { apply Forall_lookup. intros j m Hm.
      destruct (Hslots j) as (m' & c & Hm' & _ & Hcase);
        [rewrite <- Hl1; by eapply lookup_lt_Some |].
      assert (m' = m) as -> by congruence.
      destruct Hcase as [[-> _] | (s0 & x & _ & _ & _ & _ & Hlt & _)];
        [by left | by right]. }
    split; [done |]. split; [lia |]. split; [done |]. split_and!.
    + intros Hh. constructor; [| by apply Hvalid]. split; [done |].
      apply Forall_lookup. intros j c Hc.
      destruct (Hslots j) as (m & c' & _ & Hc' & Hcase);
        [rewrite <- Hlc; by eapply lookup_lt_Some |].
      assert (c' = c) as -> by congruence.
      destruct Hcase as [[_ H0] | (s0 & x & Hs0 & _ & _ & -> & _)]; [| lia].
      unfold choices0 in H0. rewrite list_lookup_fmap in H0.
      destruct (seq 0 (num_states fsm) !! j) as [j' |]; [| done].
      injection H0 as <-. apply Hh.
    + intros _. destruct zs as [| z' zs'].
      * simpl in Hfwd. by injection Hfwd as <- <-.
      * by apply Hsettled.
    + intros s Hs.
      destruct (Hpaths s Hs)
        as (a1 & xs1 & xs1' & Ha1 & Hlx & Hxs1 & Hfin & Hmet & Hsame & Hback).
      pose proof (reached_lt _ _ Ha1) as Ha1lt. rewrite Hl1 in Ha1lt.
      destruct (Hslots a1 Ha1lt) as (m & c & Hm & Hc & Hcase).
      unfold reached, metric_at in Ha1. rewrite Hm in Ha1. simpl in Ha1.
      destruct Hcase as [[-> _] | (s0 & x & Hs0 & Hx & Hn & -> & _ & Hmc)];
        [by rewrite flt_irrefl in Ha1 |].
      destruct (Hentries s0 a1 Hs0 Ha1lt) as (v & w & Hv & _ & He).
      destruct He as [(_ & _ & Hnone) | (x' & _ & Hx' & Hn' & -> & _ & Hlast)].
      { exfalso. apply (Hnone x); [by left | done | done]. }
      exists s0, (x :: xs1), (x' :: xs1'). split_and!.
      * unfold reached. rewrite Hmc in Ha1. by apply fadd_below_inf in Ha1.
      * simpl. lia.
      * by constructor.
      * simpl. by rewrite Hn.
      * simpl. rewrite Hn, <- Hmc. rewrite Hmet. unfold metric_at.
        by rewrite Hm.
      * simpl. rewrite Hn.
        assert (Hle : (x <= x')%nat)
          by (apply Hlast; [by left | done | done]).
        split; [congruence |]. split; [lia | done].
      * intros rest. rewrite reverse_cons, <- app_assoc. simpl.
        rewrite Hback. simpl.
        rewrite (get1_nat _ _ _ Hc). simpl. rewrite Hv. simpl.
        destruct (backtrack fsm rest (Z.of_nat s0)); simpl; [| done].
        by rewrite <- app_assoc.
Qed.
End ViterbiPaths.

Lemma initial_row_length fsm initial_metrics metrics_0 :
  initial_row fsm initial_metrics = Ok metrics_0 ->
  length metrics_0 = num_states fsm.
Proof.
  unfold initial_row. destruct initial_metrics as [im |].
  - case_decide; [by intros [= <-] |].
    destruct im as [| v [| ? ?]]; intros [= <-]. apply length_replicate.
  - intros [= <-]. apply length_replicate.
Qed.

Lemma length_from_columns L columns :
  length (from_columns L columns) = L /\
  Forall (fun row => length row = length columns) (from_columns L columns).
Proof.
  unfold from_columns. split; [by rewrite length_map, length_seq |].
  apply Forall_map, Forall_forall. intros t _. simpl. by rewrite length_map.
Qed.

(** X6: on a machine built by the constructor from well-shaped tables,
    with initial metrics of length [num_states] (or none), and when the
    cells [np.empty] left in [choices] hold state indices, [viterbi]
    returns an array of one row per observation and one column per state
    and one final metric per state; after at least one observation each
    final metric is [inf] or below [inf], never a NaN. *)
Theorem viterbi_returns {Obs} (fsm : FiniteStateMachine)
    (metric_function : Z -> Obs -> float) (empty_int : nat -> nat -> Z)
    (observed_sequence : list Obs) (initial_metrics : option (list float)) :
  well_formed fsm -> constructed fsm -> harmless fsm empty_int ->
  (forall im, initial_metrics = Some im -> length im = num_states fsm) ->
  exists input_sequences_hat final_metrics,
    viterbi fsm metric_function empty_int observed_sequence initial_metrics =
      Ok (input_sequences_hat, final_metrics) /\
    length input_sequences_hat = length observed_sequence /\
    Forall (fun row => length row = num_states fsm) input_sequences_hat /\
    length final_metrics = num_states fsm /\
    (observed_sequence <> [] ->
     Forall (fun m => m = finf \/ flt m finf = true) final_metrics).
Proof.
  intros Hwf Hcons Hharm Him. unfold viterbi.
  assert (Hinit : exists metrics_0,
            initial_row fsm initial_metrics = Ok metrics_0).
  { unfold initial_row. destruct initial_metrics as [im |]; [| eauto].
    rewrite decide_True by auto. eauto. }
  destruct Hinit as [m0 Hm0]. rewrite Hm0. simpl.
  destruct (viterbi_forward_paths fsm Hwf Hcons metric_function empty_int
              observed_sequence 0%nat m0 (initial_row_length _ _ _ Hm0))
    as (choices & row_L & -> & Hlc & HlL & Hvalid & Hsettled & _).
  simpl.
  destruct (mapM_total
              (fun final_state =>
                 backtrack fsm (reverse choices) (Z.of_nat final_state))
              (seq 0 (num_states fsm))) as [columns Hcols].
  { apply Forall_forall. intros s [_ Hs]%elem_of_seq.
    apply (backtrack_returns fsm Hwf Hcons); [| lia].
    apply Forall_reverse. by apply Hvalid. }
  rewrite Hcols. simpl. eexists _, _. split; [reflexivity |].
  destruct (length_from_columns (length observed_sequence) columns)
    as [Hl Hrows].
  apply mapM_Ok in Hcols as [Hlcols _]. rewrite length_seq in Hlcols.
  rewrite Hlcols in Hrows. by split_and!.
Qed.

Lemma example_fsm_is_constructed : constructed example_fsm.
Proof. unfold constructed. vm_compute. reflexivity. Qed.

Lemma viterbi_returns_witness :
  exists input_sequences_hat final_metrics,
    viterbi example_fsm exact_metric (fun _ _ => 0) [3; 2; 2] None =
      Ok (input_sequences_hat, final_metrics) /\
    length input_sequences_hat = length [3; 2; 2] /\
    Forall (fun row => length row = num_states example_fsm)
      input_sequences_hat /\
    length final_metrics = num_states example_fsm /\
    ([3; 2; 2] <> [] ->
     Forall (fun m => m = finf \/ flt m finf = true) final_metrics).
Proof.
  apply (viterbi_returns example_fsm exact_metric (fun _ _ => 0) [3; 2; 2]
           None).
  - exact example_fsm_well_formed.
  - exact example_fsm_is_constructed.
  - intros t s. unfold num_states. simpl. lia.
  - intros im. discriminate.
Defined.

(** X7: when [viterbi] returns, every state whose final metric is below
    [inf] has as its column a sequence of input symbols that takes the
    machine from a state of initial metric below [inf] to that state; on a
    machine without parallel edges the final metric is the initial metric
    of that state plus the costs of the outputs of this path against the
    observations, added in time order. *)
Theorem viterbi_survivor_path {Obs} (fsm : FiniteStateMachine)
    (metric_function : Z -> Obs -> float) (empty_int : nat -> nat -> Z)
    (observed_sequence : list Obs) (initial_metrics : option (list float))
    (input_sequences_hat : list (list Z)) (final_metrics : list float)
    (s : nat) :
  well_formed fsm -> constructed fsm ->
  viterbi fsm metric_function empty_int observed_sequence initial_metrics =
    Ok (input_sequences_hat, final_metrics) ->
  reached final_metrics s ->
  exists metrics_0 (s_i : nat) output_sequence,
    initial_row fsm initial_metrics = Ok metrics_0 /\
    reached metrics_0 s_i /\
    process fsm (column input_sequences_hat s) (Z.of_nat s_i) =
      Ok (output_sequence, Z.of_nat s) /\
    length output_sequence = length observed_sequence /\
    (no_parallel_edges fsm ->
     metric_at final_metrics s =
       path_cost metric_function (metric_at metrics_0 s_i) output_sequence
         observed_sequence).
Proof.
  intros Hwf Hcons Hrun Hs. unfold viterbi in Hrun.
  apply bind_Ok in Hrun as (m0 & Hm0 & Hrun).
  apply bind_Ok in Hrun as ([choices row_L] & Hfwd & Hrun).
  apply bind_Ok in Hrun as (columns & Hcols & [= <- <-]).
  pose proof (initial_row_length _ _ _ Hm0) as Hl0.
  destruct (viterbi_forward_paths fsm Hwf Hcons metric_function empty_int
              observed_sequence 0%nat m0 Hl0)
    as (choices' & row_L' & Hfwd' & Hlc & HlL & _ & _ & Hpaths).
  rewrite Hfwd in Hfwd'. injection Hfwd' as <- <-.
  destruct (Hpaths s Hs)
    as (a0 & xs & xs' & Ha0 & Hlx & Hxs & Hfin & Hmet & Hsame & Hback).
  specialize (Hback []). rewrite app_nil_r in Hback. simpl in Hback.
  destruct (same_moves_final _ _ _ _ Hsame) as (Hfin' & Hlx' & Hxs').
  pose proof (reached_lt _ _ Hs) as Hslt. rewrite HlL in Hslt.
  pose proof (reached_lt _ _ Ha0) as Ha0lt. rewrite Hl0 in Ha0lt.
  apply mapM_Ok in Hcols as [Hlcols Hall].
  destruct (Hall s s) as (col & Hcol & Hbt); [by apply lookup_seq_lt |].
  rewrite Hback in Hbt. injection Hbt as <-.
  assert (Hcolumn : column (from_columns (length observed_sequence) columns) s
                    = map Z.of_nat xs').
  { apply column_from_columns; [done |]. rewrite length_map. lia. }
  exists m0, a0, (outputs_along fsm a0 xs').
  rewrite Hcolumn. unfold process.
  rewrite (process_from_nat fsm a0 xs' Hwf Ha0lt Hxs'), Hfin', Hfin.
  split_and!; try done.
  - clear -Hlx' Hlx. rewrite <- Hlx, <- Hlx'. clear Hlx Hlx'.
    revert a0. induction xs' as [| x r IH]; intros a0; simpl; [done |].
    by rewrite IH.
  - intros Hnp.
    rewrite (same_moves_eq fsm a0 xs xs' Hnp Ha0lt Hwf Hxs Hsame). done.
Qed.

Lemma viterbi_survivor_path_witness :
  exists metrics_0 (s_i : nat) output_sequence,
    initial_row example_fsm (Some [fzero; finf; finf; finf]) = Ok metrics_0 /\
    reached metrics_0 s_i /\
    process example_fsm
      (column [[1; 1; 1; 1]; [0; 0; 1; 1]; [0; 1; 0; 1]] 3) (Z.of_nat s_i) =
      Ok (output_sequence, Z.of_nat 3) /\
    length output_sequence = length [3; 2; 1] /\
    (no_parallel_edges example_fsm ->
     metric_at [fadd fone fone; fadd fone fone; fone; fzero] 3 =
       path_cost exact_metric (metric_at metrics_0 s_i) output_sequence
         [3; 2; 1]).
Proof.
  apply (viterbi_survivor_path example_fsm exact_metric (fun _ _ => 0)
           [3; 2; 1] (Some [fzero; finf; finf; finf])
           [[1; 1; 1; 1]; [0; 0; 1; 1]; [0; 1; 0; 1]]
           [fadd fone fone; fadd fone fone; fone; fzero] 3).
  - exact example_fsm_well_formed.
  - exact example_fsm_is_constructed.
  - vm_compute. reflexivity.
  - vm_compute. reflexivity.
Defined.

(** ** The streaming decoder: what a step needs and what it keeps *)

Lemma argmin_from_lt best least i a :
  (best < i)%nat -> (argmin_from best least i a < i + length a)%nat.
Proof.
  revert best least i. induction a as [| v a IH]; intros best least i Hb;
    simpl; [lia |].
  destruct (negb (is_nan least) && (flt v least || is_nan v)).
  - specialize (IH i v (S i)). lia.
  - specialize (IH best least (S i)). lia.
Qed.

Lemma argmin_lt (a : list float) :
  a <> [] -> exists s_star, argmin a = Ok s_star /\ (s_star < length a)%nat.
Proof.
  destruct a as [| v a]; [done |]. intros _. simpl. eexists. split; [done |].
  pose proof (argmin_from_lt 0 v 1 a). lia.
Qed.

Lemma set_last_column_returns {A} (a : list (list A)) (column : list A) tau :
  Forall (fun row => length row = S tau) a -> length column = length a ->
  exists a', set_last_column a column = Ok a'.
Proof.
  intros Hrows Hlen. unfold set_last_column. rewrite decide_True by done.
  apply mapM_total, Forall_forall. intros [row v] Hin.
  apply elem_of_zip_l in Hin. simpl in Hin.
  rewrite Forall_forall in Hrows. specialize (Hrows _ Hin). simpl.
  unfold set1, np_index. rewrite Hrows.
  repeat case_decide; try lia; simpl; eauto.
Qed.

(** The paths of the window are sequences of states. *)
Definition paths_of_states (n : nat) (memory : MetricMemory) : Prop :=
  Forall (Forall (fun s => 0 <= s < Z.of_nat n)) (paths memory).

Lemma extend_paths_returns (n tau : nat) rolled (choices : list Z) :
  Forall (fun row => length row = S tau) rolled ->
  length rolled = n -> length choices = n ->
  Forall (fun c => 0 <= c < Z.of_nat (n)) choices ->
  exists paths',
    for_each (extend_path rolled) (enumerate choices) rolled = Ok paths'.
Proof.
  intros Hrolled Hlr Hlc Hch.
  destruct (for_each_invariant
              (fun (_ : nat) (p : list (list Z)) =>
                 length p = n /\
                 Forall (fun row => length row = S tau) p)
              (extend_path rolled) (enumerate choices) rolled)
    as (paths' & Hrun & _); [done | | eauto].
  intros s1' [s1 c] p [Hs1 Hc]%lookup_enumerate [Hlp Hp]. simpl in Hs1, Hc.
  subst s1'.
  assert (Hcr : 0 <= c < Z.of_nat (n))
    by (rewrite Forall_lookup in Hch; eauto).
  assert (Hs1lt : (s1 < n)%nat)
    by (rewrite <- Hlc; by eapply lookup_lt_Some).
  destruct (lookup_lt_is_Some_2 rolled (Z.to_nat c)) as [source Hsrc]; [lia |].
  destruct (lookup_lt_is_Some_2 p s1) as [target Htgt]; [lia |].
  assert (Hls : length source = S tau)
    by (rewrite Forall_lookup in Hrolled; eauto).
  assert (Hlt : length target = S tau) by (rewrite Forall_lookup in Hp; eauto).
  unfold extend_path.
  rewrite <- (Z2Nat.id c) by lia. rewrite (get1_nat _ _ _ Hsrc). simpl.
  replace (item p s1) with (Ok target) by (symmetry; by apply item_Ok).
  simpl. rewrite Hlt. replace (S tau - 1)%nat with tau by lia.
  destruct (drop_last_one target tau Hlt) as [e ->].
  rewrite set1_last. simpl. eexists. split; [done |].
  split; [by rewrite length_insert |]. apply Forall_insert; [done |].
  rewrite length_app. simpl.
  assert (Hne : source <> []) by (intros ->; done).
  rewrite (app_removelast_last 0 Hne), length_app in Hls. simpl in Hls. lia.
Qed.

Section StreamingStep.
Context {Obs : Type}.
Variable fsm : FiniteStateMachine.
Hypothesis Hwf : well_formed fsm.
Variable metric_function : Z -> Obs -> float.
Variable tau : nat.
Hypothesis Hstates : (0 < num_states fsm)%nat.

(** The first half of a step: the new metrics, the choices and the best
    state; nothing of it can raise. *)
Lemma streaming_relax memory (z : Obs) :
  memory_shape (num_states fsm) tau memory ->
  exists new_metrics choices (s_star : nat) row,
    relax_all fsm metric_function
      (fun s0 => get2 (metrics memory) (Z.of_nat s0) (-1)) z
      (replicate (num_states fsm) finf) (replicate (num_states fsm) 0) =
      Ok (new_metrics, choices) /\
    length new_metrics = num_states fsm /\
    length choices = num_states fsm /\
    Forall (fun c => 0 <= c < Z.of_nat (num_states fsm)) choices /\
    argmin new_metrics = Ok s_star /\
    item (paths memory) s_star = Ok row /\ length row = S tau.
Proof.
  intros (Hpl & Hprows & Hml & Hmrows).
  destruct (relax_all_inv fsm Hwf metric_function
              (fun s0 => get2 (metrics memory) (Z.of_nat s0) (-1))
              (metric_at (last_column (metrics memory))))
    with (z := z) (choices0 := replicate (num_states fsm) 0)
    as ([new ch] & Hrun & Hl1 & Hl2 & Hslots).
  { intros s0 Hs0. rewrite (get2_last_column tau) by (done || lia).
    apply item_metric_at. unfold last_column. rewrite length_map. lia. }
  { apply length_replicate. }
  simpl in Hl1, Hl2, Hslots.
  destruct (argmin_lt new) as (s_star & Hstar & Hlt).
  { intros ->. simpl in Hl1. lia. }
  destruct (lookup_lt_is_Some_2 (paths memory) s_star) as [row Hrow]; [lia |].
  exists new, ch, s_star, row. split_and!; try done.
  - apply Forall_lookup. intros j c Hc.
    destruct (Hslots j) as (m & c' & _ & Hc' & _ & Hwin);
      [rewrite <- Hl2; by eapply lookup_lt_Some |].
    assert (c' = c) as -> by congruence.
    destruct Hwin as [[_ H0] | (s0 & x & _ & (Hs0 & _) & _ & -> & _)]; [| lia].
    apply lookup_replicate in H0 as [-> _]. lia.
  - by apply item_Ok.
  - rewrite Forall_lookup in Hprows. eauto.
Qed.

End StreamingStep.

Section StreamingRun.
Context {Obs : Type}.
Variable fsm : FiniteStateMachine.
Hypothesis Hwf : well_formed fsm.
Hypothesis Hcons : constructed fsm.
Variable metric_function : Z -> Obs -> float.
Variable tau : nat.
Hypothesis Hstates : (0 < num_states fsm)%nat.
Hypothesis Htau : (1 <= tau)%nat.

(** One step on a memory of the right shape whose paths hold states: it
    returns, the decision is the entry of [input_edges] for the first two
    states of some row, and every new path is an old one shifted left with
    its own state appended. *)
Lemma streaming_step_returns memory (z : Obs) :
  memory_shape (num_states fsm) tau memory ->
  paths_of_states (num_states fsm) memory ->
  exists x memory' (s_star : nat) a b rest,
    streaming_step fsm metric_function memory z = Ok (x, memory') /\
    memory_shape (num_states fsm) tau memory' /\
    paths_of_states (num_states fsm) memory' /\
    paths memory !! s_star = Some (a :: b :: rest) /\
    get2 (input_edges fsm) a b = Ok x /\
    -1 <= x < Z.of_nat (num_input_symbols fsm) /\
    forall s1, (s1 < num_states fsm)%nat ->
      exists r, r ∈ paths memory /\
        paths memory' !! s1 = Some (drop 1 r ++ [Z.of_nat s1]).
Proof.
  intros Hshape Hvalid. pose proof Hshape as (Hpl & Hprows & Hml & Hmrows).
  destruct (streaming_relax fsm Hwf metric_function tau Hstates memory z
              Hshape)
    as (new & ch & s_star & row & Hrelax & Hl1 & Hl2 & Hch & Hstar & Hrow
        & Hlrow).
  apply item_Ok in Hrow as Hrow'.
  destruct row as [| a [| b rest]]; simpl in Hlrow; try lia.
  assert (Hab : 0 <= a < Z.of_nat (num_states fsm) /\
                0 <= b < Z.of_nat (num_states fsm)).
  { unfold paths_of_states in Hvalid. rewrite Forall_lookup in Hvalid.
    specialize (Hvalid _ _ Hrow').
    apply Forall_cons in Hvalid as [Ha Hvalid].
    by apply Forall_cons in Hvalid as [Hb _]. }
  destruct Hab as [Ha Hb].
  destruct (constructed_entries fsm Hwf Hcons) as (_ & _ & Hentries).
  destruct (Hentries (Z.to_nat a) (Z.to_nat b)) as (x & w & Hx & _ & He);
    [lia | lia |].
  rewrite !Z2Nat.id in Hx by lia.
  assert (Hxr : -1 <= x < Z.of_nat (num_input_symbols fsm)).
  { destruct He as [(-> & _) | (x' & _ & Hx' & _ & -> & _)]; lia. }
  set (rolled_m := map roll_left (metrics memory)).
  assert (Hrm : Forall (fun r => length r = S tau) rolled_m).
  { apply Forall_map. eapply Forall_impl; [exact Hmrows |].
    intros r Hr. simpl. by rewrite roll_left_length. }
  destruct (set_last_column_returns rolled_m new tau Hrm) as [metrics' Hmet].
  { unfold rolled_m. rewrite length_map. lia. }
  pose proof Hmet as Hmet'.
  apply (set_last_column_rolled tau) in Hmet' as (Hml' & Hmrows' & _);
    [| done | lia].
  set (rolled := map roll_left (paths memory)).
  assert (Hrolled : Forall (fun r => length r = S tau) rolled).
  { apply Forall_map. eapply Forall_impl; [exact Hprows |].
    intros r Hr. simpl. by rewrite roll_left_length. }
  assert (Hlrolled : length rolled = num_states fsm)
    by (unfold rolled; by rewrite length_map).
  destruct (extend_paths_returns (num_states fsm) tau rolled ch Hrolled
              Hlrolled Hl2 Hch)
    as [paths' Hpaths].
  pose proof Hpaths as Hpaths'.
  apply (extend_paths tau) in Hpaths' as (Hpl' & Hprows' & Hext);
    [| done | lia].
  assert (Hnew : forall s1, (s1 < num_states fsm)%nat ->
            exists r, r ∈ paths memory /\
              paths' !! s1 = Some (drop 1 r ++ [Z.of_nat s1])).
  { intros s1 Hs1.
    destruct (lookup_lt_is_Some_2 ch s1) as [c Hc]; [lia |].
    destruct (Hext s1 c Hc) as (source & Hsrc & Hp').
    apply get1_Ok in Hsrc as (k & _ & Hk).
    unfold rolled in Hk. rewrite list_lookup_fmap in Hk.
    destruct (paths memory !! k) as [r |] eqn:Hr; [| done].
    injection Hk as <-. exists r.
    split; [by eapply list_elem_of_lookup_2 |].
    by rewrite removelast_roll_left in Hp'. }
  exists x, {| paths := paths'; metrics := metrics' |}, s_star, a, b, rest.
  unfold streaming_step. rewrite Hrelax. simpl. rewrite Hstar. simpl.
  rewrite Hrow. simpl. rewrite Hx. simpl. fold rolled_m. rewrite Hmet. simpl.
  fold rolled. rewrite Hpaths. simpl.
  split; [done |]. split.
  { split_and!; simpl; try done; lia. }
  split.
  { unfold paths_of_states. simpl. apply Forall_lookup. intros s1 row' Hrow1.
    assert (Hs1 : (s1 < num_states fsm)%nat)
      by (rewrite <- Hlrolled, <- Hpl'; by eapply lookup_lt_Some).
    destruct (Hnew s1 Hs1) as (r & Hr & Hp').
    assert (row' = drop 1 r ++ [Z.of_nat s1]) as -> by congruence.
    apply Forall_app. split; [| constructor; [lia | done]].
    apply Forall_drop. unfold paths_of_states in Hvalid.
    rewrite Forall_forall in Hvalid. by apply Hvalid. }
  split_and!; first [done | lia].
Qed.

Lemma viterbi_streaming_run (zs : list Obs) :
  forall memory,
    memory_shape (num_states fsm) tau memory ->
    paths_of_states (num_states fsm) memory ->
    exists out memory',
      viterbi_streaming fsm metric_function zs memory = Ok (out, memory') /\
      length out = length zs /\
      Forall (fun x => -1 <= x < Z.of_nat (num_input_symbols fsm)) out /\
      memory_shape (num_states fsm) tau memory' /\
      paths_of_states (num_states fsm) memory' /\
      (zs <> [] ->
       forall s, (s < num_states fsm)%nat ->
         exists row,
           paths memory' !! s = Some row /\ last row = Some (Z.of_nat s)).
Proof.
  induction zs as [| z zs IH]; intros memory Hshape Hvalid.
  - exists [], memory. by split_and!.
  - destruct (streaming_step_returns memory z Hshape Hvalid)
      as (x & m1 & _ & _ & _ & _ & Hstep & Hshape1 & Hvalid1 & _ & _ & Hx
          & Hnew).
    destruct (IH m1 Hshape1 Hvalid1)
      as (out & m' & Hrun & Hlen & Hout & Hshape' & Hvalid' & Hlast).
    exists (x :: out), m'. simpl. rewrite Hstep. simpl. rewrite Hrun. simpl.
    split_and!; try done; [lia | by constructor |].
    intros _. destruct zs as [| z' zs'].
    + simpl in Hrun. injection Hrun as <- <-. intros s Hs.
      destruct (Hnew s Hs) as (r & _ & Hp'). eexists. split; [done |].
      apply last_snoc.
    + by apply Hlast.
Qed.

(** While the first [k] columns of the paths are as [np.zeros] left them,
    the decisions are the entry [[0, 0]] of [input_edges]. *)
Definition untouched (k : nat) (memory : MetricMemory) : Prop :=
  Forall (fun row => take k row = replicate k 0) (paths memory).

Lemma viterbi_streaming_untouched (zs : list Obs) :
  forall memory k x0,
    memory_shape (num_states fsm) tau memory ->
    paths_of_states (num_states fsm) memory ->
    untouched k memory -> (S (length zs) <= k)%nat ->
    get2 (input_edges fsm) 0 0 = Ok x0 ->
    exists memory',
      viterbi_streaming fsm metric_function zs memory =
        Ok (replicate (length zs) x0, memory').
Proof.
  induction zs as [| z zs IH]; intros memory k x0 Hshape Hvalid Hk Hle Hx0.
  - simpl. eauto.
  - destruct (streaming_step_returns memory z Hshape Hvalid)
      as (x & m1 & s_star & a & b & rest & Hstep & Hshape1 & Hvalid1 & Hrow
          & Hx & _ & Hnew).
    simpl in Hle.
    assert (Hab : a = 0 /\ b = 0).
    { unfold untouched in Hk. rewrite Forall_lookup in Hk.
      specialize (Hk _ _ Hrow).
      destruct k as [| [| k]]; [lia | lia |]. simpl in Hk.
      by injection Hk as -> -> _. }
    destruct Hab as [-> ->].
    assert (x = x0) as -> by congruence.
    destruct (IH m1 (k - 1)%nat x0 Hshape1 Hvalid1) as [m' Hrun];
      [| lia | done |].
    + unfold untouched. apply Forall_lookup. intros s1 row' Hrow1.
      assert (Hs1 : (s1 < num_states fsm)%nat).
      { destruct Hshape1 as (Hl & _). rewrite <- Hl.
        by eapply lookup_lt_Some. }
      destruct (Hnew s1 Hs1) as (r & Hr & Hp').
      assert (row' = drop 1 r ++ [Z.of_nat s1]) as -> by congruence.
      unfold untouched in Hk. rewrite Forall_forall in Hk.
      specialize (Hk _ Hr).
      destruct Hshape as (_ & Hprows & _). rewrite Forall_forall in Hprows.
      specialize (Hprows _ Hr).
      assert (Hkr : (k <= S tau)%nat).
      { apply (f_equal length) in Hk.
        rewrite length_take, length_replicate in Hk. lia. }
      rewrite take_app_le by (rewrite length_drop; lia).
      rewrite <- skipn_firstn_comm.
      replace (1 + (k - 1))%nat with k by lia. rewrite Hk.
      destruct k as [| k]; [lia |]. simpl.
      by replace (k - 0)%nat with k by lia.
    + exists m'. simpl. rewrite Hstep. simpl. by rewrite Hrun.
Qed.
End StreamingRun.

(** X8: on a machine built by the constructor, with at least one state
    and a path memory of at least one step, [viterbi_streaming] on a memory
    of the documented shape whose paths hold states returns one decision
    per observation, each an entry of [input_edges] (an input symbol or
    [-1]); the memory keeps its shape, its paths keep holding states, and
    after at least one observation the path of each state ends in that
    state. *)
Theorem viterbi_streaming_returns {Obs} (fsm : FiniteStateMachine)
    (metric_function : Z -> Obs -> float) (tau : nat)
    (observed_sequence : list Obs) (memory : MetricMemory) :
  well_formed fsm -> constructed fsm ->
  (0 < num_states fsm)%nat -> (1 <= tau)%nat ->
  memory_shape (num_states fsm) tau memory ->
  paths_of_states (num_states fsm) memory ->
  exists input_sequence_hat memory',
    viterbi_streaming fsm metric_function observed_sequence memory =
      Ok (input_sequence_hat, memory') /\
    length input_sequence_hat = length observed_sequence /\
    Forall (fun x => -1 <= x < Z.of_nat (num_input_symbols fsm))
      input_sequence_hat /\
    memory_shape (num_states fsm) tau memory' /\
    paths_of_states (num_states fsm) memory' /\
    (observed_sequence <> [] ->
     forall s, (s < num_states fsm)%nat ->
       exists row,
         paths memory' !! s = Some row /\ last row = Some (Z.of_nat s)).
Proof.
  intros Hwf Hcons Hstates Htau.
  apply (viterbi_streaming_run fsm Hwf Hcons metric_function tau Hstates Htau).
Qed.

Lemma viterbi_streaming_returns_witness :
  exists input_sequence_hat memory',
    viterbi_streaming example_fsm exact_metric example_observation
      example_memory = Ok (input_sequence_hat, memory') /\
    length input_sequence_hat = length example_observation /\
    Forall (fun x => -1 <= x < Z.of_nat (num_input_symbols example_fsm))
      input_sequence_hat /\
    memory_shape (num_states example_fsm) 3 memory' /\
    paths_of_states (num_states example_fsm) memory' /\
    (example_observation <> [] ->
     forall s, (s < num_states example_fsm)%nat ->
       exists row,
         paths memory' !! s = Some row /\ last row = Some (Z.of_nat s)).
Proof.
  apply (viterbi_streaming_returns example_fsm exact_metric 3
           example_observation example_memory).
  - exact example_fsm_well_formed.
  - exact example_fsm_is_constructed.
  - unfold num_states. simpl. lia.
  - lia.
  - unfold memory_shape, num_states. simpl. repeat constructor.
  - unfold paths_of_states, num_states. simpl. repeat constructor; lia.
Defined.

(** X9: with a path memory of no step, that is arrays of one column,
    the first step of [viterbi_streaming] raises [ValueError]: the slice
    [[s_star, :2]] holds one state where two are unpacked. *)
Theorem viterbi_streaming_needs_two_columns {Obs} (fsm : FiniteStateMachine)
    (metric_function : Z -> Obs -> float) (z : Obs)
    (observed_sequence : list Obs) (memory : MetricMemory) :
  well_formed fsm -> (0 < num_states fsm)%nat ->
  memory_shape (num_states fsm) 0 memory ->
  viterbi_streaming fsm metric_function (z :: observed_sequence) memory =
    Raise ValueError.
Proof.
  intros Hwf Hstates Hshape.
  destruct (streaming_relax fsm Hwf metric_function 0 Hstates memory z Hshape)
    as (new & ch & s_star & row & Hrelax & _ & _ & _ & Hstar & Hrow & Hlrow).
  simpl. unfold streaming_step. rewrite Hrelax. simpl. rewrite Hstar. simpl.
  rewrite Hrow. simpl.
  destruct row as [| a [| b rest]]; simpl in Hlrow; try lia. done.
Qed.

Lemma viterbi_streaming_needs_two_columns_witness :
  viterbi_streaming example_fsm exact_metric [3; 2]
    {| paths := full 4 1 0;
       metrics := [[fzero]; [finf]; [finf]; [finf]] |} = Raise ValueError.
Proof.
  apply (viterbi_streaming_needs_two_columns example_fsm exact_metric 3 [2]).
  - exact example_fsm_well_formed.
  - unfold num_states. simpl. lia.
  - unfold memory_shape, num_states. simpl. repeat constructor.
Defined.

Lemma stream_decoder_memory_Ok n tau state memory :
  stream_decoder_memory n tau state = Ok memory ->
  0 <= tau /\ - Z.of_nat n <= state < Z.of_nat n /\
  paths memory = full n (Z.to_nat (tau + 1)) 0 /\
  memory_shape n (Z.to_nat tau) memory.
Proof.
  unfold stream_decoder_memory. case_decide; [done |].
  set (w := Z.to_nat (tau + 1)).
  intros (metrics' & Hset & [= <-])%bind_Ok. simpl.
  unfold set2 in Hset.
  apply bind_Ok in Hset as (k & Hk & (row & Hrow%item_Ok & Hset)%bind_Ok).
  apply bind_Ok in Hset as (row' & Hset & [= <-]).
  unfold set1 in Hset. apply bind_Ok in Hset as (j & Hj & [= <-]).
  rewrite length_full in Hk. apply np_index_Ok in Hk as (Hk & _ & Hstate).
  unfold full in Hrow. apply lookup_replicate in Hrow as [-> _].
  rewrite length_replicate in Hj. apply np_index_Ok in Hj as (Hj & _ & Hw).
  assert (Htau : 0 <= tau) by lia.
  assert (Hwt : w = S (Z.to_nat tau)) by lia.
  split; [done |]. split; [done |]. split; [done |].
  unfold memory_shape. simpl. rewrite length_insert, !length_full.
  split; [done |]. split.
  { unfold full. apply Forall_replicate. by rewrite length_replicate. }
  split; [done |].
  apply Forall_insert.
  - unfold full. apply Forall_replicate. by rewrite length_replicate.
  - by rewrite length_insert, length_replicate.
Qed.

(** X10: a new decoder answers its first [traceback_length] observations,
    whatever they are, with the entry [[0, 0]] of [input_edges]: the
    decisions come out [traceback_length] steps late, and until then they
    are read from the paths as [np.zeros] left them. *)
Theorem viterbi_streaming_delay {Obs} (fsm : FiniteStateMachine)
    (metric_function : Z -> Obs -> float) (traceback_length : nat)
    (state : Z) (memory : MetricMemory) (observed_sequence : list Obs) :
  well_formed fsm -> constructed fsm -> (1 <= traceback_length)%nat ->
  stream_decoder_memory (num_states fsm) (Z.of_nat traceback_length) state =
    Ok memory ->
  (length observed_sequence <= traceback_length)%nat ->
  exists x0 memory',
    get2 (input_edges fsm) 0 0 = Ok x0 /\
    viterbi_streaming fsm metric_function observed_sequence memory =
      Ok (replicate (length observed_sequence) x0, memory').
Proof.
  intros Hwf Hcons Htau Hmem Hlen.
  apply stream_decoder_memory_Ok in Hmem as (_ & Hstate & Hpaths & Hshape).
  rewrite Nat2Z.id in Hshape.
  replace (Z.to_nat (Z.of_nat traceback_length + 1))
    with (S traceback_length) in Hpaths by lia.
  assert (Hstates : (0 < num_states fsm)%nat) by lia.
  destruct (constructed_entries fsm Hwf Hcons) as (Hsq & _ & _).
  destruct (get2_square _ _ 0 0 Hsq) as [x0 Hx0]; [lia | lia |].
  exists x0.
  destruct (viterbi_streaming_untouched fsm Hwf Hcons metric_function
              traceback_length Hstates Htau observed_sequence memory
              (S traceback_length) x0) as [memory' Hrun]; try done.
  - unfold paths_of_states. rewrite Hpaths. unfold full.
    apply Forall_replicate, Forall_replicate. lia.
  - unfold untouched. rewrite Hpaths. unfold full. apply Forall_replicate.
    by rewrite take_replicate, Nat.min_id.
  - lia.
  - eauto.
Qed.

Lemma viterbi_streaming_delay_witness :
  exists x0 memory',
    get2 (input_edges example_fsm) 0 0 = Ok x0 /\
    viterbi_streaming example_fsm exact_metric [3; 2; 2] example_memory =
      Ok (replicate (length [3; 2; 2]) x0, memory').
Proof.
  apply (viterbi_streaming_delay example_fsm exact_metric 3 0 example_memory
           [3; 2; 2]).
  - exact example_fsm_well_formed.
  - exact example_fsm_is_constructed.
  - lia.
  - exact example_memory_constructed.
  - simpl. lia.
Defined.

(** X11: the decoder can be fed in pieces: decoding one part and then,
    with the memory it left, the next part gives the decisions and the
    memory of decoding the two parts at once; an error of either part is
    the error of the whole. *)
Theorem viterbi_streaming_in_pieces {Obs} (fsm : FiniteStateMachine)
    (metric_function : Z -> Obs -> float)
    (observed_sequence1 observed_sequence2 : list Obs)
    (memory : MetricMemory) :
  viterbi_streaming fsm metric_function
    (observed_sequence1 ++ observed_sequence2) memory =
    (do '(decisions1, memory1) <-
       viterbi_streaming fsm metric_function observed_sequence1 memory;
     do '(decisions2, memory2) <-
       viterbi_streaming fsm metric_function observed_sequence2 memory1;
     Ok (decisions1 ++ decisions2, memory2)).
Proof. apply viterbi_streaming_app. Qed.

(** X12: the memory of a decoder is built exactly when
    [traceback_length] is not negative and [state] lies in
    [[-num_states, num_states)]; a negative state counts from the end, and
    anything else makes [__attrs_post_init__] raise. *)
Theorem stream_decoder_memory_returns_iff (num_states : nat)
    (traceback_length state : Z) :
  (exists memory,
     stream_decoder_memory num_states traceback_length state = Ok memory) <->
  0 <= traceback_length /\
  - Z.of_nat num_states <= state < Z.of_nat num_states.
Proof.
  split.
  - intros [memory Hmem].
    by apply stream_decoder_memory_Ok in Hmem as (? & ? & _).
  - intros [Htau Hstate]. unfold stream_decoder_memory.
    case_decide; [lia |].
    set (w := Z.to_nat (traceback_length + 1)).
    assert (Hk : exists k, np_index num_states state = Ok k /\
                           (k < num_states)%nat).
    { unfold np_index. repeat case_decide; try lia; eexists; (split; [done |]);
        lia. }
    destruct Hk as (k & Hk & Hklt).
    unfold set2. rewrite length_full, Hk. simpl.
    replace (item (full num_states w finf) k) with (Ok (replicate w finf)).
    2:{ symmetry. apply item_Ok. unfold full.
        by apply lookup_replicate_2. }
    simpl. unfold set1, np_index. rewrite length_replicate.
    repeat case_decide; try lia; simpl; eauto.
Qed.

(** ** Terminations: zero termination *)

(** [np.vstack]: the blocks one under the other; an empty list of blocks
    is an error. *)
Definition vstack (blocks : list (list (list Z))) : result (list (list Z)) :=
  match blocks with
  | [] => Raise ValueError
  | _ => Ok (concat blocks)
  end.

(** [B_mat @ matrix_power(A_mat, j) % 2]. *)
Definition AnB (code : ConvolutionalCode) (j : nat) : list (list Z) :=
  mmod2 (matmul (overall_constraint_length code) (B_mat code)
           (matrix_power (overall_constraint_length code) (A_mat code) j)).

Module ZeroTermination.

(** [TerminationStrategy]: the strategy with its two attributes,
    [convolutional_code] and [num_blocks]; [memory_order] stands for the
    value it reads from the absent [ConvolutionalCode]. *)
Record t := {
  convolutional_code : ConvolutionalCode;
  memory_order : nat;
  num_blocks : nat
}.

Section Strategy.
(** The absent [_util.matrices.pseudo_inverse]. *)
Variable pseudo_inverse : list (list Z) -> list (list Z).

Definition AnB_message (self : t) : result (list (list Z)) :=
  vstack (map (AnB (convolutional_code self))
            (rev (seq (memory_order self) (num_blocks self)))).

Definition AnB_tail (self : t) : result (list (list Z)) :=
  vstack (map (AnB (convolutional_code self))
            (rev (seq 0 (memory_order self)))).

Definition _tail_projector (self : t) : result (list (list Z)) :=
  let mu := memory_order self in
  let k0 := num_input_bits (convolutional_code self) in
  do message <- AnB_message self;
  do tail <- AnB_tail self;
  Ok (mmod2 (matmul (mu * k0) message (pseudo_inverse tail))).

Definition initial_state (self : t) (input_bits : list Z) : Z := 0.

(** [input_bits @ self._tail_projector] needs one bit per row of the
    projector. *)
Definition pre_process_input (self : t) (input_bits : list Z)
  : result (list Z) :=
  let n := num_input_bits (convolutional_code self) in
  do projector <- _tail_projector self;
  if decide (length input_bits = length projector) then
    let tail :=
      vmod2 (vecmat (memory_order self * n) input_bits projector) in
    pack (input_bits ++ tail) n
  else Raise ValueError.
End Strategy.
End ZeroTermination.

Lemma vecmat_app n u v M N :
  length u = length M ->
  Forall (fun row => length row = n) M ->
  Forall (fun row => length row = n) N ->
  vecmat n (u ++ v) (M ++ N) = vadd (vecmat n u M) (vecmat n v N).
Proof.
  intros Hlen HM HN. revert u Hlen.
  induction HM as [| row M Hrow HM IH]; intros [| c u] Hlen; simpl in *;
    try done.
  - rewrite vadd_zero_l; [done |]. by apply length_vecmat.
  - rewrite IH by lia. by rewrite vadd_assoc.
Qed.

Lemma vmod2_double a : vmod2 (vadd a a) = replicate (length a) 0.
Proof.
  induction a as [| x a IH]; simpl; [done |]. rewrite IH. f_equal.
  replace (x + x) with (0 + x * 2) by lia. by rewrite Z_mod_plus_full.
Qed.

Lemma mmod2_matmul_l n M N :
  mmod2 (matmul n (mmod2 M) N) = mmod2 (matmul n M N).
Proof.
  unfold mmod2, matmul. rewrite !map_map. apply map_ext.
  intros row. apply vmod2_vecmat_l.
Qed.

Lemma concat_chunks width n bits :
  length bits = (n * width)%nat -> concat (chunks width n bits) = bits.
Proof.
  revert bits. induction n as [| n IH]; intros bits Hlen; simpl.
  - by destruct bits.
  - rewrite IH by (rewrite length_drop; lia). apply take_drop.
Qed.

Section ZeroStateResponse.
Variable code : ConvolutionalCode.
Hypothesis Hssm : state_space_machine code.

(** The rows [B A^j] for [j] from [L - 1] down to [0]. *)
Definition response (L : nat) : list (list Z) :=
  concat (map (AnB code) (rev (seq 0 L))).

Lemma AnB_matrix j :
  matrix (num_input_bits code) (overall_constraint_length code) (AnB code j).
Proof.
  destruct (ssm_B _ Hssm) as [HBl HB].
  destruct (matrix_power_matrix code Hssm j) as [_ HP].
  unfold AnB, mmod2, matmul. split; [by rewrite !length_map |].
  apply Forall_map, Forall_map, Forall_forall. intros row _. simpl.
  rewrite length_vmod2. by apply length_vecmat.
Qed.

Lemma stacked_matrix js :
  Forall (fun row => length row = overall_constraint_length code)
    (concat (map (AnB code) js)) /\
  length (concat (map (AnB code) js)) = (length js * num_input_bits code)%nat.
Proof.
  induction js as [| j js [IH1 IH2]]; simpl; [done |].
  destruct (AnB_matrix j) as [Hl Hrows]. split.
  - by apply Forall_app.
  - rewrite length_app. lia.
Qed.

Lemma zero_state_response xs :
  Forall (fun x => binary x /\ length x = num_input_bits code) xs ->
  state_run code (replicate (overall_constraint_length code) 0) xs =
    vmod2 (vecmat (overall_constraint_length code) (concat xs)
             (response (length xs))).
Proof.
  set (nu := overall_constraint_length code).
  destruct (ssm_A _ Hssm) as [HAl HA]. destruct (ssm_B _ Hssm) as [HBl HB].
  fold nu in HA, HB.
  induction 1 as [| x xs [Hx Hlx] Hxs IH]; simpl.
  - unfold vmod2. by rewrite fmap_replicate.
  - set (v := state_update code (replicate nu 0) x).
    assert (Hv : v = vmod2 (vecmat nu x (B_mat code))).
    { unfold v, state_update. fold nu.
      rewrite vecmat_zeros by done. rewrite vadd_zero_l; [done |].
      by apply length_vecmat. }
    rewrite (state_run_affine code Hssm xs v)
      by (unfold v; first [apply binary_vmod2 | by apply length_state_update]).
    fold nu. rewrite IH.
    destruct (matrix_power_matrix code Hssm (length xs)) as [_ HP].
    fold nu in HP.
    unfold response. rewrite seq_S, rev_app_distr. simpl.
    destruct (AnB_matrix (length xs)) as [Hal Harows].
    destruct (stacked_matrix (rev (seq 0 (length xs)))) as [Hrrows _].
    fold nu in Harows, Hrrows.
    rewrite vecmat_app by (done || lia).
    rewrite vmod2_vadd_r. apply vmod2_vadd_proper; [| done].
    rewrite Hv, vmod2_vecmat_l. unfold AnB. fold nu.
    rewrite vmod2_vecmat_r. by rewrite vecmat_assoc.
Qed.
End ZeroStateResponse.

(** X13: zero termination drives the encoder back to the zero state: if
    the rows [B A^j], [j < mu], have a left inverse over GF(2) and
    [pseudo_inverse] returns it, then for [h >= 1] blocks of [k0 >= 1] bits
    and memory order [mu >= 1] the pre-processed input is [h + mu] symbols
    that take the machine of the code from state [0], the initial state of
    the strategy, back to state [0]. *)
Theorem zero_termination_returns_to_zero
    (pseudo_inverse : list (list Z) -> list (list Z))
    (self : ZeroTermination.t) (input_bits : list Z) :
  let code := ZeroTermination.convolutional_code self in
  let nu := overall_constraint_length code in
  let k0 := num_input_bits code in
  let mu := ZeroTermination.memory_order self in
  let h := ZeroTermination.num_blocks self in
  let tail_rows := concat (map (AnB code) (rev (seq 0 mu))) in
  state_space_machine code ->
  k0 <> 0%nat -> mu <> 0%nat -> h <> 0%nat ->
  matrix nu (mu * k0) (pseudo_inverse tail_rows) ->
  mmod2 (matmul nu (pseudo_inverse tail_rows) tail_rows) = eye nu ->
  binary input_bits -> length input_bits = (k0 * h)%nat ->
  exists input_sequence output_sequence,
    ZeroTermination.pre_process_input pseudo_inverse self input_bits =
      Ok input_sequence /\
    length input_sequence = (h + mu)%nat /\
    process (finite_state_machine code) input_sequence
      (ZeroTermination.initial_state self input_bits) =
      Ok (output_sequence, 0).
Proof.
  intros code nu k0 mu h T Hssm Hk0 Hmu Hh [HPl HP] Hinv Hbits Hlen.
  set (P := pseudo_inverse T) in *.
  set (Msg := concat (map (AnB code) (rev (seq mu h)))).
  destruct (stacked_matrix code Hssm (rev (seq mu h))) as [HMsg HMsgl].
  destruct (stacked_matrix code Hssm (rev (seq 0 mu))) as [HT HTl].
  rewrite length_rev, length_seq in HMsgl, HTl.
  fold nu k0 Msg in HMsg, HMsgl. fold nu k0 T in HT, HTl.
  set (Pj := mmod2 (matmul (mu * k0) Msg P)).
  assert (Hproj : ZeroTermination._tail_projector pseudo_inverse self = Ok Pj).
  { unfold ZeroTermination._tail_projector, ZeroTermination.AnB_message,
      ZeroTermination.AnB_tail, vstack. fold code mu h k0.
    destruct (rev (seq mu h)) as [| j js] eqn:Ej.
    { apply (f_equal length) in Ej. rewrite length_rev, length_seq in Ej.
      simpl in Ej. lia. }
    destruct (rev (seq 0 mu)) as [| j' js'] eqn:Ej'.
    { apply (f_equal length) in Ej'. rewrite length_rev, length_seq in Ej'.
      simpl in Ej'. lia. }
    done. }
  assert (HPjl : length Pj = (h * k0)%nat)
    by (unfold Pj, mmod2, matmul; by rewrite !length_map).
  assert (HPj : Forall (fun row => length row = (mu * k0)%nat) Pj).
  { unfold Pj, mmod2, matmul. apply Forall_map, Forall_map, Forall_forall.
    intros row _. simpl. rewrite length_vmod2. by apply length_vecmat. }
  set (tail := vmod2 (vecmat (mu * k0) input_bits Pj)).
  assert (Htl : length tail = (mu * k0)%nat)
    by (unfold tail; by rewrite length_vmod2, length_vecmat).
  assert (Hall : binary (input_bits ++ tail))
    by (apply Forall_app; split; [done | apply binary_vmod2]).
  assert (Hlall : length (input_bits ++ tail) = (k0 * (h + mu))%nat)
    by (rewrite length_app; lia).
  destruct (pack_spec _ k0 (h + mu) Hall Hk0 Hlall) as (xs & Hpack & Hlx & Hxs).
  exists xs. unfold ZeroTermination.pre_process_input. fold code k0 mu.
  rewrite Hproj. simpl. rewrite decide_True by lia. fold tail.
  rewrite Hpack.
  (* the run of the machine, on bit vectors *)
  destruct (process_state_space code Hssm xs (replicate nu 0))
    as [ys Hrun]; [by apply Forall_replicate; left | apply length_replicate
                   | done |].
  rewrite binlist2int_zeros in Hrun. fold nu k0 in Hrun.
  exists ys. split; [done |]. split; [done |].
  unfold process, ZeroTermination.initial_state. rewrite Hrun. do 2 f_equal.
  (* the blocks of the input *)
  set (blocks := chunks k0 (h + mu) (input_bits ++ tail)).
  destruct (chunks_spec k0 (h + mu) (input_bits ++ tail) Hall)
    as [Hbl Hblocks]; [lia |]. fold blocks in Hbl, Hblocks.
  assert (Hxbs : map (fun x => int2binlist x k0) xs = blocks).
  { unfold pack in Hpack. rewrite decide_True in Hpack.
    2:{ split; [done |]. rewrite Hlall, Nat.mul_comm.
        by apply Nat.Div0.mod_mul. }
    injection Hpack as <-.
    rewrite Hlall, Nat.mul_comm, Nat.div_mul by done. fold blocks.
    rewrite map_map. rewrite <- (map_id blocks) at 2.
    apply map_ext_Forall. eapply Forall_impl; [exact Hblocks |].
    intros c [Hc Hlc]. simpl. rewrite <- Hlc.
    by apply int2binlist_binlist2int. }
  rewrite Hxbs.
  pose proof (zero_state_response code Hssm blocks Hblocks) as Hresponse.
  fold nu in Hresponse. rewrite Hresponse, Hbl. unfold blocks.
  rewrite concat_chunks by lia.
  (* the rows of the response *)
  assert (Hresp : response code (h + mu) = Msg ++ T).
  { unfold response, Msg, T.
    replace (h + mu)%nat with (mu + h)%nat by lia.
    by rewrite seq_app, rev_app_distr, map_app, concat_app. }
  rewrite Hresp, vecmat_app by (done || lia).
  set (a := vecmat nu input_bits Msg).
  assert (Hal : length a = nu) by (by apply length_vecmat).
  assert (Htail : vmod2 (vecmat nu tail T) = vmod2 a).
  { unfold tail. rewrite vmod2_vecmat_l.
    rewrite (vecmat_assoc nu (mu * k0)) by done.
    rewrite <- vmod2_vecmat_r. unfold a.
    rewrite <- (vmod2_vecmat_r nu input_bits Msg). f_equal. f_equal.
    unfold Pj. rewrite mmod2_matmul_l.
    unfold mmod2, matmul. rewrite !map_map.
    apply map_ext_Forall. eapply Forall_impl; [exact HMsg |].
    intros row Hrow. simpl.
    rewrite (vecmat_assoc nu (mu * k0)) by done.
    rewrite <- vmod2_vecmat_r.
    change (map vmod2 (map (fun r => vecmat nu r T) P))
      with (mmod2 (matmul nu P T)).
    rewrite Hinv. by rewrite vecmat_eye. }
  rewrite <- (vmod2_vadd_r a), Htail, vmod2_vadd_r, vmod2_double.
  rewrite Hal. apply binlist2int_zeros.
Qed.

Lemma zero_termination_returns_to_zero_witness :
  exists input_sequence output_sequence,
    ZeroTermination.pre_process_input (fun _ => [[0; 1]; [1; 0]])
      {| ZeroTermination.convolutional_code := example_code;
         ZeroTermination.memory_order := 2;
         ZeroTermination.num_blocks := 3 |} [1; 0; 1] =
      Ok input_sequence /\
    length input_sequence = (3 + 2)%nat /\
    process example_fsm input_sequence
      (ZeroTermination.initial_state
         {| ZeroTermination.convolutional_code := example_code;
            ZeroTermination.memory_order := 2;
            ZeroTermination.num_blocks := 3 |} [1; 0; 1]) =
      Ok (output_sequence, 0).
Proof.
  apply (zero_termination_returns_to_zero (fun _ => [[0; 1]; [1; 0]])
           {| ZeroTermination.convolutional_code := example_code;
              ZeroTermination.memory_order := 2;
              ZeroTermination.num_blocks := 3 |} [1; 0; 1]).
  - exact example_state_space.
  - simpl. lia.
  - simpl. lia.
  - simpl. lia.
  - split; simpl; repeat constructor.
  - vm_compute. reflexivity.
  - repeat constructor; lia.
  - reflexivity.
Defined.

(** ** Terminations: direct truncation *)

Module DirectTruncation.

(** [TerminationStrategy]: the strategy with its two attributes,
    [convolutional_code] and [num_blocks]. *)
Record t := {
  convolutional_code : ConvolutionalCode;
  num_blocks : nat
}.

Definition initial_state (self : t) (input_bits : list Z) : Z := 0.

Definition pre_process_input (self : t) (input_bits : list Z)
  : result (list Z) :=
  let n := num_input_bits (convolutional_code self) in
  pack input_bits n.

End DirectTruncation.

(** X14: direct truncation accepts every message of [h] blocks: for a
    code with [k0 >= 1] whose machine has one input symbol per block of
    [k0] bits, the [h * k0] message bits are pre-processed into [h]
    symbols, and [process] takes them from the initial state of the
    strategy, state [0], without raising, giving [h] outputs. *)
Theorem direct_truncation_encodes (self : DirectTruncation.t)
    (input_bits : list Z) :
  let code := DirectTruncation.convolutional_code self in
  let k0 := num_input_bits code in
  let h := DirectTruncation.num_blocks self in
  state_space_machine code ->
  k0 <> 0%nat ->
  binary input_bits -> length input_bits = (k0 * h)%nat ->
  exists input_sequence output_sequence final_state,
    DirectTruncation.pre_process_input self input_bits = Ok input_sequence /\
    length input_sequence = h /\
    process (finite_state_machine code) input_sequence
      (DirectTruncation.initial_state self input_bits) =
      Ok (output_sequence, final_state) /\
    length output_sequence = h /\
    0 <= final_state < 2 ^ Z.of_nat (overall_constraint_length code).
Proof.
  intros code k0 h Hssm Hk0 Hbits Hlen.
  destruct (pack_spec input_bits k0 h Hbits Hk0 Hlen) as (xs & Hpack & Hlx & Hxs).
  exists xs. unfold DirectTruncation.pre_process_input. fold code k0.
  rewrite Hpack. unfold DirectTruncation.initial_state.
  pose proof (ssm_well_formed _ Hssm) as Hwf.
  pose proof (ssm_states _ Hssm) as Hst.
  pose proof (ssm_symbols _ Hssm) as Hsy. fold code k0 in Hst, Hsy.
  assert (Hpow : forall n : nat, Z.of_nat (2 ^ n) = 2 ^ Z.of_nat n)
    by (intros n; by rewrite Nat2Z.inj_pow).
  unfold process.
  destruct (process_from_returns (finite_state_machine code) xs 0 Hwf)
    as (ys & f & Hrun & Hly & Hf & _).
  - rewrite Hst, Hpow. split; [lia |]. apply Z.pow_pos_nonneg; lia.
  - by rewrite Hsy, Hpow.
  - exists ys, f. rewrite Hst, Hpow in Hf. rewrite Hly, Hlx. done.
Qed.

Lemma direct_truncation_encodes_witness :
  exists input_sequence output_sequence final_state,
    DirectTruncation.pre_process_input
      {| DirectTruncation.convolutional_code := example_code;
         DirectTruncation.num_blocks := 3 |} [1; 1; 0] = Ok input_sequence /\
    length input_sequence = 3%nat /\
    process example_fsm input_sequence
      (DirectTruncation.initial_state
         {| DirectTruncation.convolutional_code := example_code;
            DirectTruncation.num_blocks := 3 |} [1; 1; 0]) =
      Ok (output_sequence, final_state) /\
    length output_sequence = 3%nat /\
    0 <= final_state < 2 ^ Z.of_nat (overall_constraint_length example_code).
Proof.
  apply (direct_truncation_encodes
           {| DirectTruncation.convolutional_code := example_code;
              DirectTruncation.num_blocks := 3 |} [1; 1; 0]).
  - exact example_state_space.
  - simpl. lia.
  - repeat constructor; lia.
  - reflexivity.
Defined.

(** ** Resuming [viterbi] from the final metrics of a first block *)

Lemma backtrack_app fsm r2 r1 s :
  backtrack fsm (r2 ++ r1) s =
    (do xs2 <- backtrack fsm r2 s;
     do xs1 <- backtrack fsm r1 (lineage r2 s).1;
     Ok (xs1 ++ xs2)).
Proof.
  revert s. induction r2 as [| row r2 IH]; intros s; simpl.
  - destruct (backtrack fsm r1 s); simpl; [| done]. by rewrite app_nil_r.
  - destruct (get1 row s) as [s0 |]; simpl; [| done].
    destruct (get2 (input_edges fsm) s0 s) as [x |]; simpl; [| done].
    rewrite IH.
    destruct (backtrack fsm r2 s0) as [xs2 |]; simpl; [| done].
    destruct (lineage r2 s0) as [origin later]. simpl.
    destruct (backtrack fsm r1 origin) as [xs1 |]; simpl; [| done].
    by rewrite app_assoc.
Qed.

(** What [np.empty] left in [choices] does not show in the metrics, nor in
    the survivor of a state that is reached: two forward passes over the
    same observations agree there. *)
Lemma viterbi_forward_reached {Obs} fsm (metric_function : Z -> Obs -> float)
    (empty_int empty_int' : nat -> nat -> Z) zs :
  well_formed fsm ->
  forall t t' row choices row_L choices' row_L',
    length row = num_states fsm ->
    viterbi_forward fsm metric_function empty_int t zs row =
      Ok (choices, row_L) ->
    viterbi_forward fsm metric_function empty_int' t' zs row =
      Ok (choices', row_L') ->
    row_L = row_L' /\
    forall s, reached row_L s ->
      backtrack fsm (reverse choices) (Z.of_nat s) =
        backtrack fsm (reverse choices') (Z.of_nat s) /\
      exists a,
        (lineage (reverse choices) (Z.of_nat s)).1 = Z.of_nat a /\
        (lineage (reverse choices') (Z.of_nat s)).1 = Z.of_nat a /\
        reached row a.
Proof.
  intros Hwf. induction zs as [| z zs IH];
    intros t t' row choices row_L choices' row_L' Hlen; simpl.
  - intros [= <- <-] [= <- <-]. split; [done |]. intros s Hs.
    split; [done |]. by exists s.
  - intros ([row1 c0] & Hstep & ([cs rL] & Hfwd & [= <- <-])%bind_Ok)%bind_Ok.
    intros ([row1' c0'] & Hstep' &
            ([cs' rL'] & Hfwd' & [= <- <-])%bind_Ok)%bind_Ok.
    destruct (relax_all_same_choices fsm metric_function (item row) z
                (replicate (num_states fsm) finf)
                (map (empty_int t) (seq 0 (num_states fsm)))
                (map (empty_int' t') (seq 0 (num_states fsm)))
                row1 c0 row1' c0'
                ltac:(by rewrite length_map, length_seq, length_replicate)
                ltac:(by rewrite length_map, length_seq, length_replicate)
                ltac:(by apply Forall_replicate) Hstep Hstep')
      as [<- Hsame].
    destruct (relax_reached fsm Hwf metric_function row z
                (map (empty_int t) (seq 0 (num_states fsm))) row1 c0 0%nat
                Hlen ltac:(by rewrite length_map, length_seq) Hstep)
      as [Hlen1 _].
    destruct (IH (S t) (S t') row1 cs rL cs' rL' Hlen1 Hfwd Hfwd')
      as [<- Hreached].
    split; [done |]. intros s Hs.
    destruct (Hreached s Hs) as (Hbt & a1 & Ha1 & Ha1' & Hr1).
    destruct (relax_reached fsm Hwf metric_function row z
                (map (empty_int t) (seq 0 (num_states fsm))) row1 c0 a1
                Hlen ltac:(by rewrite length_map, length_seq) Hstep)
      as [_ Hp].
    destruct (Hp Hr1) as (p & Hc0 & Hrp).
    assert (Hc0' : c0' !! a1 = Some (Z.of_nat p)).
    { pose proof (reached_lt _ _ Hr1) as Hlt.
      destruct (lookup_lt_is_Some_2 row1 a1 Hlt) as [m Hm].
      rewrite <- (Hsame a1 m Hm); [done |].
      unfold reached, metric_at in Hr1. by rewrite Hm in Hr1. }
    rewrite !reverse_cons, !backtrack_app, !lineage_app, <- Hbt.
    destruct (lineage (reverse cs) (Z.of_nat s)) as [b1 l1].
    destruct (lineage (reverse cs') (Z.of_nat s)) as [b1' l1'].
    simpl in Ha1, Ha1'. subst b1 b1'. simpl.
    rewrite (get1_nat _ _ _ Hc0), (get1_nat _ _ _ Hc0'). simpl.
    split; [done |]. by exists p.
Qed.

(** X15: decoding can be resumed.  When the cells [np.empty] left in the
    three [choices] arrays hold state indices, [viterbi] on two blocks of
    observations in a row has the final metrics of [viterbi] on the second
    block started with the final metrics of the first as
    [initial_metrics]; and for every state [s] whose final metric is below
    [inf], its decoded column is the column of the first block for a state
    reached there, followed by column [s] of the second block. *)
Theorem viterbi_resumes {Obs} (fsm : FiniteStateMachine)
    (metric_function : Z -> Obs -> float)
    (empty_1 empty_2 empty_12 : nat -> nat -> Z)
    (observed_sequence1 observed_sequence2 : list Obs)
    (initial_metrics : option (list float)) :
  well_formed fsm -> constructed fsm ->
  harmless fsm empty_1 -> harmless fsm empty_2 -> harmless fsm empty_12 ->
  (forall im, initial_metrics = Some im -> length im = num_states fsm) ->
  exists hat1 metrics1 hat2 hat final_metrics,
    viterbi fsm metric_function empty_1 observed_sequence1
      initial_metrics = Ok (hat1, metrics1) /\
    viterbi fsm metric_function empty_2 observed_sequence2
      (Some metrics1) = Ok (hat2, final_metrics) /\
    viterbi fsm metric_function empty_12
      (observed_sequence1 ++ observed_sequence2) initial_metrics =
      Ok (hat, final_metrics) /\
    forall s, reached final_metrics s ->
      exists a, reached metrics1 a /\
        column hat s = column hat1 a ++ column hat2 s.
Proof.
  intros Hwf Hcons Hharm1 Hharm2 Hharm12 Him.
  set (L1 := length observed_sequence1).
  set (L2 := length observed_sequence2).
  assert (Hinit : exists metrics_0,
            initial_row fsm initial_metrics = Ok metrics_0).
  { unfold initial_row. destruct initial_metrics as [im |]; [| eauto].
    rewrite decide_True by auto. eauto. }
  destruct Hinit as [m0 Hm0].
  pose proof (initial_row_length _ _ _ Hm0) as Hl0.
  (* the three forward passes *)
  destruct (viterbi_forward_paths fsm Hwf Hcons metric_function empty_1
              observed_sequence1 0%nat m0 Hl0)
    as (c1 & row1 & Hf1 & Hlc1 & Hl1 & Hv1 & _ & _).
  destruct (viterbi_forward_paths fsm Hwf Hcons metric_function empty_2
              observed_sequence2 0%nat row1 Hl1)
    as (c2 & row2 & Hf2 & Hlc2 & Hl2 & Hv2 & _ & _).
  destruct (viterbi_forward_paths fsm Hwf Hcons metric_function empty_12
              (observed_sequence1 ++ observed_sequence2) 0%nat m0 Hl0)
    as (c & row & Hf & Hlc & Hl & Hv & _ & _).
  specialize (Hv1 Hharm1). specialize (Hv2 Hharm2). specialize (Hv Hharm12).
  pose proof Hf as Hsplit. rewrite viterbi_forward_app in Hsplit.
  apply bind_Ok in Hsplit
    as ([c1' row1'] & Hf1' & ([c2' row2'] & Hf2' & [= <- <-])%bind_Ok).
  destruct (viterbi_forward_reached fsm metric_function empty_1 empty_12
              observed_sequence1 Hwf _ _ _ _ _ _ _ Hl0 Hf1 Hf1')
    as [<- Hsame1].
  destruct (viterbi_forward_reached fsm metric_function empty_2 empty_12
              observed_sequence2 Hwf _ _ _ _ _ _ _ Hl1 Hf2 Hf2')
    as [<- Hsame2].
  (* the three arrays of columns *)
  assert (Hbt : forall cs, Forall (valid_states (num_states fsm)) cs ->
            exists columns,
              mapM (fun final_state =>
                      backtrack fsm (reverse cs) (Z.of_nat final_state))
                (seq 0 (num_states fsm)) = Ok columns).
  { intros cs Hcs. apply mapM_total, Forall_forall.
    intros s [_ Hs]%elem_of_seq.
    apply (backtrack_returns fsm Hwf Hcons); [| lia].
    by apply Forall_reverse. }
  destruct (Hbt c1 Hv1) as [cols1 Hcols1].
  destruct (Hbt c2 Hv2) as [cols2 Hcols2].
  destruct (Hbt (c1' ++ c2') Hv) as [cols Hcols].
  exists (from_columns L1 cols1), row1, (from_columns L2 cols2),
    (from_columns (L1 + L2) cols), row2.
  unfold viterbi. rewrite Hm0. simpl. rewrite Hf1. simpl.
  rewrite Hcols1. simpl.
  rewrite decide_True by done. simpl. rewrite Hf2. simpl.
  rewrite Hcols2. simpl.
  rewrite Hf. simpl. rewrite Hcols. simpl. rewrite length_app. fold L1 L2.
  split; [done |]. split; [done |]. split; [done |].
  intros s Hreached. pose proof (reached_lt _ _ Hreached) as Hs.
  rewrite Hl2 in Hs.
  apply mapM_Ok in Hcols1 as [_ Hall1].
  apply mapM_Ok in Hcols2 as [_ Hall2].
  apply mapM_Ok in Hcols as [_ Hall].
  destruct (Hall s s) as (col & Hcol & Hb); [by apply lookup_seq_lt |].
  destruct (Hall2 s s) as (col2 & Hcol2 & Hb2); [by apply lookup_seq_lt |].
  destruct (Hsame2 s Hreached) as (Hbt2 & a & Ha & Ha' & Hra).
  pose proof (reached_lt _ _ Hra) as Halt. rewrite Hl1 in Halt.
  destruct (Hall1 a a) as (col1 & Hcol1 & Hb1); [by apply lookup_seq_lt |].
  destruct (Hsame1 a Hra) as (Hbt1 & _).
  rewrite reverse_app, backtrack_app, <- Hbt2, Hb2, Ha' in Hb. simpl in Hb.
  rewrite <- Hbt1, Hb1 in Hb. simpl in Hb. injection Hb as <-.
  pose proof (backtrack_length _ _ _ _ Hb1) as Hlcol1.
  pose proof (backtrack_length _ _ _ _ Hb2) as Hlcol2.
  rewrite length_reverse in Hlcol1, Hlcol2.
  exists a. split; [done |].
  rewrite (column_from_columns _ _ _ _ Hcol)
    by (rewrite length_app; unfold L1, L2; lia).
  rewrite (column_from_columns _ _ _ _ Hcol1) by (unfold L1; lia).
  by rewrite (column_from_columns _ _ _ _ Hcol2) by (unfold L2; lia).
Qed.

Lemma viterbi_resumes_witness :
  exists hat1 metrics1 hat2 hat final_metrics,
    viterbi example_fsm exact_metric (fun _ _ => 0) [3; 2]
      (Some [fzero; finf; finf; finf]) = Ok (hat1, metrics1) /\
    viterbi example_fsm exact_metric (fun _ _ => 1) [2; 0]
      (Some metrics1) = Ok (hat2, final_metrics) /\
    viterbi example_fsm exact_metric (fun _ s => 3 - Z.of_nat s mod 4)
      ([3; 2] ++ [2; 0]) (Some [fzero; finf; finf; finf]) =
      Ok (hat, final_metrics) /\
    forall s, reached final_metrics s ->
      exists a, reached metrics1 a /\
        column hat s = column hat1 a ++ column hat2 s.
Proof.
  apply (viterbi_resumes example_fsm exact_metric (fun _ _ => 0)
           (fun _ _ => 1) (fun _ s => 3 - Z.of_nat s mod 4) [3; 2] [2; 0]
           (Some [fzero; finf; finf; finf])).
  - exact example_fsm_well_formed.
  - exact example_fsm_is_constructed.
  - intros t s. unfold num_states. simpl. lia.
  - intros t s. unfold num_states. simpl. lia.
  - intros t s. unfold num_states. simpl.
    pose proof (Z.mod_pos_bound (Z.of_nat s) 4). lia.
  - intros im [= <-]. reflexivity.
Defined.

(** ** Integer costs *)

(** [float(n)] for an integer [n >= 0]: the nearest [float64], which is
    [n] itself below [2^53]. *)
Definition fnat (n : nat) : float :=
  binary_normalize prec emax (Z.of_nat n) 0 false.

(** The [float64] of a positive integer below [2^53]: its binary digits,
    shifted to a mantissa of 53 digits. *)
Definition canon (p : positive) : float :=
  S754_finite false
    (Z.to_pos (Z.pos p * 2 ^ (prec - Z.pos (Pos.size p))))
    (Z.pos (Pos.size p) - prec).

Lemma size_bounds p :
  2 ^ (Z.pos (Pos.size p) - 1) <= Z.pos p < 2 ^ Z.pos (Pos.size p).
Proof.
  pose proof (Pos.size_gt p) as Hgt. pose proof (Pos.size_le p) as Hle.
  apply Pos2Z.pos_lt_pos in Hgt. apply Pos2Z.pos_le_pos in Hle.
  rewrite Pos2Z.inj_pow in Hgt, Hle.
  change (Z.pos p~0) with (2 * Z.pos p) in Hle.
  split; [| done].
  assert (H : 2 ^ Z.pos (Pos.size p) = 2 * 2 ^ (Z.pos (Pos.size p) - 1)).
  { rewrite <- Z.pow_succ_r by lia. f_equal. lia. }
  lia.
Qed.

Lemma size_unique q d :
  2 ^ (d - 1) <= Z.pos q < 2 ^ d -> Z.pos (Pos.size q) = d.
Proof.
  intros [Hlo Hhi]. pose proof (size_bounds q) as [Hlo' Hhi'].
  set (s := Z.pos (Pos.size q)) in *.
  assert (Hd : 0 < d).
  { destruct (decide (0 < d)); [done |]. exfalso.
    assert (2 ^ d <= 1); [| lia].
    destruct (decide (d = 0)) as [-> | ?]; [done |].
    rewrite Z.pow_neg_r by lia. lia. }
  destruct (Z.lt_trichotomy s d) as [Hlt | [Heq | Hgt]]; [| done |].
  - assert (2 ^ s <= 2 ^ (d - 1)) by (apply Z.pow_le_mono_r; lia). lia.
  - assert (2 ^ d <= 2 ^ (s - 1)) by (apply Z.pow_le_mono_r; lia). lia.
Qed.

(** The digits of an integer shifted left. *)
Lemma size_shifted (m p : positive) k :
  0 <= k -> Z.pos m = Z.pos p * 2 ^ k ->
  Z.pos (Pos.size m) = Z.pos (Pos.size p) + k.
Proof.
  intros Hk Hm. apply size_unique. rewrite Hm.
  pose proof (size_bounds p) as [Hlo Hhi].
  set (s := Z.pos (Pos.size p)) in *.
  replace (s + k - 1) with (s - 1 + k) by lia.
  rewrite !Z.pow_add_r by lia.
  assert (0 < 2 ^ k) by (apply Z.pow_pos_nonneg; lia). nia.
Qed.

(** Shifting right an integer whose low digits are zero loses nothing. *)
Lemma shr_1_exact q :
  0 <= q ->
  shr_1 {| shr_m := 2 * q; shr_r := false; shr_s := false |} =
    {| shr_m := q; shr_r := false; shr_s := false |}.
Proof. destruct q as [| q | q]; simpl; [done | done | lia]. Qed.

Lemma pow2_xO p : 2 ^ Z.pos p~0 = 2 ^ Z.pos p * 2 ^ Z.pos p.
Proof.
  replace (Z.pos p~0) with (Z.pos p + Z.pos p) by lia.
  apply Z.pow_add_r; lia.
Qed.

Lemma pow2_xI p : 2 ^ Z.pos p~1 = 2 * (2 ^ Z.pos p * 2 ^ Z.pos p).
Proof.
  replace (Z.pos p~1) with (Z.succ (Z.pos p~0)) by lia.
  rewrite Z.pow_succ_r by lia. by rewrite pow2_xO.
Qed.

Lemma iter_shr_1_exact p q :
  0 <= q ->
  SpecFloat.iter_pos shr_1 p
    {| shr_m := q * 2 ^ Z.pos p; shr_r := false; shr_s := false |} =
    {| shr_m := q; shr_r := false; shr_s := false |}.
Proof.
  revert q. induction p as [p IH | p IH |]; intros q Hq;
    cbn [SpecFloat.iter_pos].
  - assert (0 <= 2 ^ Z.pos p) by (apply Z.pow_nonneg; lia).
    replace (q * 2 ^ Z.pos p~1) with (2 * (q * 2 ^ Z.pos p * 2 ^ Z.pos p))
      by (rewrite pow2_xI; lia).
    rewrite shr_1_exact by nia. rewrite IH by nia. by apply IH.
  - assert (0 <= 2 ^ Z.pos p) by (apply Z.pow_nonneg; lia).
    replace (q * 2 ^ Z.pos p~0) with (q * 2 ^ Z.pos p * 2 ^ Z.pos p)
      by (rewrite pow2_xO; lia).
    rewrite IH by nia. by apply IH.
  - replace (q * 2 ^ 1) with (2 * q) by lia. by apply shr_1_exact.
Qed.

Lemma size_le_prec p : Z.pos p < 2 ^ prec -> 1 <= Z.pos (Pos.size p) <= prec.
Proof.
  intros Hp. pose proof (size_bounds p) as [Hlo _]. split; [lia |].
  destruct (decide (Z.pos (Pos.size p) <= prec)); [done |]. exfalso.
  assert (2 ^ prec <= 2 ^ (Z.pos (Pos.size p) - 1))
    by (apply Z.pow_le_mono_r; unfold prec in *; lia).
  lia.
Qed.

Lemma canon_mantissa p :
  Z.pos p < 2 ^ prec ->
  Z.pos (Z.to_pos (Z.pos p * 2 ^ (prec - Z.pos (Pos.size p)))) =
    Z.pos p * 2 ^ (prec - Z.pos (Pos.size p)).
Proof.
  intros Hp. pose proof (size_le_prec p Hp).
  apply Z2Pos.id.
  assert (0 < 2 ^ (prec - Z.pos (Pos.size p)))
    by (apply Z.pow_pos_nonneg; lia).
  nia.
Qed.

Lemma binary_round_aux_exact (mz p : positive) (ez : Z) :
  Z.pos p < 2 ^ prec ->
  ez <= Z.pos (Pos.size p) - prec ->
  Z.pos mz = Z.pos p * 2 ^ (- ez) ->
  binary_round_aux prec emax false (Z.pos mz) ez loc_Exact = canon p.
Proof.
  intros Hp He Hm. pose proof (size_le_prec p Hp) as Hd.
  pose proof (canon_mantissa p Hp) as Hm'.
  unfold canon.
  set (d := Z.pos (Pos.size p)) in *.
  set (m' := Z.to_pos (Z.pos p * 2 ^ (prec - d))) in *.
  assert (Hdig : Z.pos (digits2_pos mz) = d - ez).
  { rewrite digits2_pos_size, (size_shifted mz p (- ez)) by (done || lia).
    fold d. lia. }
  assert (Hdig' : Z.pos (digits2_pos m') = prec).
  { rewrite digits2_pos_size, (size_shifted m' p (prec - d)) by (done || lia).
    fold d. lia. }
  assert (H1 : shr (shr_record_of_loc (Z.pos mz) loc_Exact) ez
                 (d - prec - ez) =
               ({| shr_m := Z.pos m'; shr_r := false; shr_s := false |},
                d - prec)).
  { unfold shr. cbn [shr_record_of_loc].
    destruct (d - prec - ez) as [| k | k] eqn:Ek; [| | lia].
    - f_equal; [| lia]. f_equal. rewrite Hm, Hm'. do 2 f_equal. lia.
    - f_equal; [| lia]. rewrite Hm.
      replace (- ez) with (prec - d + Z.pos k) by lia.
      rewrite Z.pow_add_r, Z.mul_assoc, <- Hm' by lia.
      by apply iter_shr_1_exact. }
  unfold binary_round_aux, shr_fexp. cbn [Zdigits2]. rewrite Hdig.
  replace (fexp prec emax (d - ez + ez)) with (d - prec)
    by (unfold fexp, emin, prec, emax in *; lia).
  rewrite H1. cbn [shr_m loc_of_shr_record round_nearest_even Zdigits2].
  rewrite Hdig'.
  replace (fexp prec emax (prec + (d - prec)) - (d - prec)) with 0
    by (unfold fexp, emin, prec, emax in *; lia).
  cbn [shr shr_record_of_loc shr_m].
  replace (d - prec <=? emax - prec) with true; [done |].
  symmetry. apply Z.leb_le. unfold prec, emax in *. lia.
Qed.

Lemma binary_round_exact (m p : positive) (e : Z) :
  Z.pos p < 2 ^ prec -> e <= 0 -> Z.pos m = Z.pos p * 2 ^ (- e) ->
  binary_round prec emax false m e = canon p.
Proof.
  intros Hp He Hm. pose proof (size_le_prec p Hp) as Hd.
  set (d := Z.pos (Pos.size p)) in *.
  assert (Hdig : Z.pos (digits2_pos m) = d - e).
  { rewrite digits2_pos_size, (size_shifted m p (- e)) by (done || lia).
    fold d. lia. }
  unfold binary_round. rewrite Hdig.
  replace (fexp prec emax (d - e + e)) with (d - prec)
    by (unfold fexp, emin, prec, emax in *; lia).
  unfold shl_align. destruct (d - prec - e) as [| k | k] eqn:Ek.
  - apply binary_round_aux_exact; [done | fold d; lia | done].
  - apply binary_round_aux_exact; [done | fold d; lia | done].
  - apply binary_round_aux_exact; [done | fold d; lia |].
    change (PosDef.Pos.iter xO m k) with (shift_pos k m).
    rewrite shift_pos_correct, Hm.
    change (Z.pow_pos 2 k) with (2 ^ Z.pos k).
    replace (- (d - prec)) with (Z.pos k + - e) by lia.
    rewrite Z.pow_add_r by lia. lia.
Qed.

(** The integers a [float64] holds exactly. *)
Definition exact (n : nat) : Prop := Z.of_nat n < 2 ^ prec.

Lemma fnat_zero : fnat 0 = fzero.
Proof. reflexivity. Qed.

Lemma fnat_canon n :
  (0 < n)%nat -> exact n -> fnat n = canon (Pos.of_nat n).
Proof.
  intros Hn Hex. unfold fnat, binary_normalize.
  destruct (Z.of_nat n) as [| p | p] eqn:Ep; [lia | | lia].
  assert (Hpn : Pos.of_nat n = p) by lia. rewrite Hpn.
  apply binary_round_exact; [unfold exact in Hex; lia | lia |].
  change (- 0) with 0. lia.
Qed.

Lemma fnat_below_inf n : exact n -> flt (fnat n) finf = true.
Proof.
  intros Hex. destruct n as [| n]; [done |].
  by rewrite fnat_canon by (done || lia).
Qed.

Lemma fadd_inf_fnat n : exact n -> fadd finf (fnat n) = finf.
Proof.
  intros Hex. destruct n as [| n]; [done |].
  by rewrite fnat_canon by (done || lia).
Qed.

Lemma shl_align_value m e ez :
  ez <= e -> Z.pos (shl_align m e ez).1 = Z.pos m * 2 ^ (e - ez).
Proof.
  intros He. unfold shl_align.
  destruct (ez - e) as [| k | k] eqn:Ek; simpl.
  - replace (e - ez) with 0 by lia. lia.
  - lia.
  - change (PosDef.Pos.iter xO m k) with (shift_pos k m).
    rewrite shift_pos_correct. change (Z.pow_pos 2 k) with (2 ^ Z.pos k).
    replace (e - ez) with (Z.pos k) by lia. lia.
Qed.

Lemma fnat_add a b :
  exact (a + b) -> fadd (fnat a) (fnat b) = fnat (a + b).
Proof.
  intros Hex. unfold exact in Hex.
  destruct a as [| a].
  { simpl. destruct b as [| b]; [done |].
    rewrite fnat_canon by (unfold exact; lia). done. }
  destruct b as [| b].
  { rewrite Nat.add_0_r. rewrite fnat_canon by (unfold exact; lia). done. }
  rewrite !fnat_canon by (unfold exact; lia).
  set (pa := Pos.of_nat (S a)). set (pb := Pos.of_nat (S b)).
  assert (Hpa : Z.pos pa = Z.of_nat (S a)) by (unfold pa; lia).
  assert (Hpb : Z.pos pb = Z.of_nat (S b)) by (unfold pb; lia).
  assert (Hsum : Pos.of_nat (S a + S b) = (pa + pb)%positive) by lia.
  rewrite Hsum.
  assert (Hlta : Z.pos pa < 2 ^ prec) by lia.
  assert (Hltb : Z.pos pb < 2 ^ prec) by lia.
  pose proof (size_le_prec pa Hlta) as Hda.
  pose proof (size_le_prec pb Hltb) as Hdb.
  pose proof (canon_mantissa pa Hlta) as Hma.
  pose proof (canon_mantissa pb Hltb) as Hmb.
  unfold canon, fadd, SFadd. cbn [cond_Zopp].
  set (da := Z.pos (Pos.size pa)) in *. set (db := Z.pos (Pos.size pb)) in *.
  set (ez := Z.min (da - prec) (db - prec)).
  rewrite !shl_align_value by (unfold ez; lia). rewrite Hma, Hmb.
  assert (Hs : Z.pos pa * 2 ^ (prec - da) * 2 ^ (da - prec - ez) +
               Z.pos pb * 2 ^ (prec - db) * 2 ^ (db - prec - ez) =
               Z.pos (pa + pb) * 2 ^ (- ez)).
  { rewrite <- !Z.mul_assoc, <- !Z.pow_add_r by (unfold ez; lia).
    replace (prec - da + (da - prec - ez)) with (- ez) by lia.
    replace (prec - db + (db - prec - ez)) with (- ez) by lia.
    lia. }
  rewrite Hs.
  assert (Hpos : 0 < Z.pos (pa + pb) * 2 ^ (- ez)).
  { assert (0 < 2 ^ (- ez)) by (apply Z.pow_pos_nonneg; unfold ez; lia).
    nia. }
  destruct (Z.pos (pa + pb) * 2 ^ (- ez)) as [| s | s] eqn:Es; try lia.
  unfold binary_normalize.
  apply binary_round_exact; [lia | unfold ez; lia | done].
Qed.

Lemma size_mono p q :
  Z.pos (Pos.size p) < Z.pos (Pos.size q) -> Z.pos p < Z.pos q.
Proof.
  intros Hlt. pose proof (size_bounds p) as [_ Hp].
  pose proof (size_bounds q) as [Hq _].
  assert (2 ^ Z.pos (Pos.size p) <= 2 ^ (Z.pos (Pos.size q) - 1))
    by (apply Z.pow_le_mono_r; lia).
  lia.
Qed.

Lemma canon_lt p q :
  Z.pos p < 2 ^ prec -> Z.pos q < 2 ^ prec ->
  flt (canon p) (canon q) = bool_decide (Z.pos p < Z.pos q).
Proof.
  intros Hp Hq.
  pose proof (canon_mantissa p Hp) as Hmp.
  pose proof (canon_mantissa q Hq) as Hmq.
  pose proof (size_le_prec p Hp) as Hdp.
  pose proof (size_le_prec q Hq) as Hdq.
  unfold canon, flt, SFltb, SFcompare.
  set (dp := Z.pos (Pos.size p)) in *. set (dq := Z.pos (Pos.size q)) in *.
  set (mp := Z.to_pos (Z.pos p * 2 ^ (prec - dp))) in *.
  set (mq := Z.to_pos (Z.pos q * 2 ^ (prec - dq))) in *.
  destruct (Z.compare_spec (dp - prec) (dq - prec)) as [Heq | Hlt | Hgt].
  - change (PosDef.Pos.compare_cont Eq mp mq) with (Pos.compare mp mq).
    assert (Hd : dp = dq) by lia.
    assert (Hk : 0 < 2 ^ (prec - dp)) by (apply Z.pow_pos_nonneg; lia).
    destruct (Pos.compare_spec mp mq) as [He | Hl | Hg].
    + rewrite bool_decide_eq_false_2; [done |].
      assert (Z.pos mp = Z.pos mq) by congruence. rewrite Hd in *. nia.
    + rewrite bool_decide_eq_true_2; [done |].
      apply Pos2Z.pos_lt_pos in Hl. rewrite Hd in *. nia.
    + rewrite bool_decide_eq_false_2; [done |].
      apply Pos2Z.pos_lt_pos in Hg. rewrite Hd in *. nia.
  - rewrite bool_decide_eq_true_2; [done |]. apply size_mono. fold dp dq. lia.
  - rewrite bool_decide_eq_false_2; [done |].
    assert (Z.pos q < Z.pos p); [| lia]. apply size_mono. fold dp dq. lia.
Qed.

Lemma fnat_lt a b :
  exact a -> exact b -> flt (fnat a) (fnat b) = bool_decide (a < b)%nat.
Proof.
  intros Ha Hb. unfold exact in *.
  destruct a as [| a], b as [| b].
  - done.
  - rewrite (fnat_canon (S b)) by (unfold exact; lia).
    rewrite bool_decide_eq_true_2 by lia. done.
  - rewrite (fnat_canon (S a)) by (unfold exact; lia).
    rewrite bool_decide_eq_false_2 by lia. done.
  - rewrite !fnat_canon by (unfold exact; lia).
    rewrite canon_lt by lia.
    apply bool_decide_ext. lia.
Qed.

Lemma fnat_inj a b : exact a -> exact b -> fnat a = fnat b -> a = b.
Proof.
  intros Ha Hb Heq.
  pose proof (fnat_lt a b Ha Hb) as H1. pose proof (fnat_lt b a Hb Ha) as H2.
  rewrite Heq, flt_irrefl in H1. rewrite Heq, flt_irrefl in H2.
  symmetry in H1, H2.
  apply bool_decide_eq_false in H1. apply bool_decide_eq_false in H2. lia.
Qed.

Lemma exact_le a b : (a <= b)%nat -> exact b -> exact a.
Proof. unfold exact. lia. Qed.

(** ** [viterbi] finds a path of least cost *)

(** The cost of an output sequence against the observations. *)
Fixpoint total_cost {Obs} (cost : Z -> Obs -> nat) (ys : list Z)
    (zs : list Obs) : nat :=
  match ys, zs with
  | y :: ys', z :: zs' => cost y z + total_cost cost ys' zs'
  | _, _ => 0%nat
  end.

Lemma total_cost_snoc {Obs} (cost : Z -> Obs -> nat) ys zs y z :
  length ys = length zs ->
  total_cost cost (ys ++ [y]) (zs ++ [z]) =
    (total_cost cost ys zs + cost y z)%nat.
Proof.
  revert zs. induction ys as [| y' ys IH]; intros [| z' zs] Hlen;
    simpl in *; try lia.
  rewrite IH by lia. lia.
Qed.

Lemma total_cost_bound {Obs} (cost : Z -> Obs -> nat) C ys zs :
  (forall y z, (cost y z <= C)%nat) ->
  (total_cost cost ys zs <= C * length zs)%nat.
Proof.
  intros HC. revert zs. induction ys as [| y ys IH]; intros [| z zs]; simpl;
    try lia.
  specialize (IH zs). specialize (HC y z). lia.
Qed.

Lemma path_cost_fnat {Obs} (cost : Z -> Obs -> nat) C d ys zs :
  (forall y z, (cost y z <= C)%nat) ->
  exact (d + C * length zs) ->
  path_cost (fun y z => fnat (cost y z)) (fnat d) ys zs =
    fnat (d + total_cost cost ys zs).
Proof.
  intros HC. revert d zs. induction ys as [| y ys IH]; intros d [| z zs] Hex;
    simpl in *; rewrite ?Nat.add_0_r; try done.
  pose proof (HC y z) as Hyz.
  rewrite fnat_add by (eapply exact_le; [| exact Hex]; lia).
  rewrite IH by (eapply exact_le; [| exact Hex]; lia).
  f_equal. lia.
Qed.

Lemma outputs_along_snoc fsm s xs x :
  outputs_along fsm s (xs ++ [x]) =
    outputs_along fsm s xs ++ [output fsm (foldl (next_state fsm) s xs) x].
Proof.
  revert s. induction xs as [| x' xs IH]; intros s; simpl; [done |].
  by rewrite IH.
Qed.

Lemma length_outputs_along fsm s xs :
  length (outputs_along fsm s xs) = length xs.
Proof.
  revert s. induction xs as [| x xs IH]; intros s; simpl; [done |].
  by rewrite IH.
Qed.

Lemma foldl_next_state_lt fsm s xs :
  well_formed fsm -> (s < num_states fsm)%nat ->
  Forall (fun x => (x < num_input_symbols fsm)%nat) xs ->
  (foldl (next_state fsm) s xs < num_states fsm)%nat.
Proof.
  intros Hwf Hs Hxs. revert s Hs.
  induction Hxs as [| x xs Hx _ IH]; intros s Hs; simpl; [done |].
  apply IH.
  by destruct (next_states_lookup fsm Hwf s x Hs Hx) as (_ & _ & _ & _ & ?).
Qed.

Section LeastCost.
Context {Obs : Type}.
Variable fsm : FiniteStateMachine.
Hypothesis Hwf : well_formed fsm.
Variable cost : Z -> Obs -> nat.
Variable C : nat.
Hypothesis Hcost : forall y z, (cost y z <= C)%nat.
Variable start : nat -> Prop.

(** A path of [t] steps from a state the decoder may start in to [s]. *)
Definition path (t s s_i : nat) (xs : list nat) : Prop :=
  start s_i /\ (s_i < num_states fsm)%nat /\ length xs = t /\
  Forall (fun x => (x < num_input_symbols fsm)%nat) xs /\
  foldl (next_state fsm) s_i xs = s.

Definition cost_of (s_i : nat) (xs : list nat) (zs : list Obs) : nat :=
  total_cost cost (outputs_along fsm s_i xs) zs.

(** A row of metrics after the observations [zs]: for each state [inf] if
    no path leads to it, else the least cost of such a path. *)
Definition least_costs (zs : list Obs) (row : list float) : Prop :=
  length row = num_states fsm /\
  forall s, (s < num_states fsm)%nat ->
    (row !! s = Some finf /\ forall s_i xs, ~ path (length zs) s s_i xs) \/
    (exists d s_i xs,
       row !! s = Some (fnat d) /\ path (length zs) s s_i xs /\
       d = cost_of s_i xs zs /\
       forall s_i' xs', path (length zs) s s_i' xs' ->
         (d <= cost_of s_i' xs' zs)%nat).

Lemma path_snoc t s s_i xs :
  path (S t) s s_i xs ->
  exists xs' x,
    xs = xs' ++ [x] /\ (x < num_input_symbols fsm)%nat /\
    path t (foldl (next_state fsm) s_i xs') s_i xs' /\
    (foldl (next_state fsm) s_i xs' < num_states fsm)%nat /\
    next_state fsm (foldl (next_state fsm) s_i xs') x = s.
Proof.
  intros (Hst & Hsi & Hlen & Hxs & Hfin).
  destruct xs as [| x xs' _] using rev_ind; [done |].
  rewrite length_app in Hlen. simpl in Hlen.
  apply Forall_app in Hxs as [Hxs' Hx]. apply Forall_cons in Hx as [Hx _].
  rewrite foldl_app in Hfin. simpl in Hfin.
  exists xs', x. split_and!; try done.
  - split_and!; try done. lia.
  - by apply foldl_next_state_lt.
Qed.

Lemma cost_of_snoc s_i xs x zs z :
  length xs = length zs ->
  cost_of s_i (xs ++ [x]) (zs ++ [z]) =
    (cost_of s_i xs zs +
     cost (output fsm (foldl (next_state fsm) s_i xs) x) z)%nat.
Proof.
  intros Hlen. unfold cost_of. rewrite outputs_along_snoc.
  apply total_cost_snoc. by rewrite length_outputs_along.
Qed.

Lemma least_costs_step zs row (z : Obs) choices0 row1 choices :
  least_costs zs row -> exact (C * S (length zs)) ->
  length choices0 = num_states fsm ->
  relax_all fsm (fun y z => fnat (cost y z)) (item row) z
    (replicate (num_states fsm) finf) choices0 = Ok (row1, choices) ->
  least_costs (zs ++ [z]) row1.
Proof.
  intros [Hlen Hrow] Hex Hch Hrun.
  destruct (relax_all_inv fsm Hwf (fun y z => fnat (cost y z)) (item row)
              (metric_at row)
              (fun s0 H => item_metric_at row s0
                             (eq_ind_r (fun n => (s0 < n)%nat) H Hlen))
              z choices0 Hch)
    as ([row1' choices'] & Hrun' & Hl1 & _ & Hslots).
  rewrite Hrun in Hrun'. injection Hrun' as <- <-. simpl in Hl1, Hslots.
  split; [done |]. intros j Hj. rewrite length_app. simpl.
  replace (length zs + 1)%nat with (S (length zs)) by lia.
  destruct (Hslots j Hj) as (m & c & Hm & _ & Hmin & Hwin).
  (* the candidate of an edge that ends a path *)
  assert (Hcand : forall s_i xs' x,
            path (length zs) (foldl (next_state fsm) s_i xs') s_i xs' ->
            (foldl (next_state fsm) s_i xs' < num_states fsm)%nat ->
            exists d0,
              (d0 <= cost_of s_i xs' zs)%nat /\
              row !! foldl (next_state fsm) s_i xs' = Some (fnat d0) /\
              candidate fsm (fun y z => fnat (cost y z)) (metric_at row) z
                (foldl (next_state fsm) s_i xs') x =
              fnat (d0 + cost (output fsm (foldl (next_state fsm) s_i xs') x)
                           z) /\
              exact (d0 + cost (output fsm (foldl (next_state fsm) s_i xs') x)
                            z)).
  { intros s_i xs' x Hpath Hs0.
    destruct (Hrow _ Hs0) as [[_ Hnone] | (d0 & a & ys & Hd0 & _ & _ & Hleast)];
      [by destruct (Hnone s_i xs') |].
    exists d0. pose proof (Hleast _ _ Hpath) as Hle.
    assert (Hex0 : exact (d0 + cost (output fsm (foldl (next_state fsm) s_i xs')
                                       x) z)).
    { eapply exact_le; [| exact Hex].
      pose proof (total_cost_bound cost C (outputs_along fsm s_i xs') zs Hcost).
      pose proof (Hcost (output fsm (foldl (next_state fsm) s_i xs') x) z).
      unfold cost_of in Hle. lia. }
    split_and!; try done.
    assert (Hat : metric_at row (foldl (next_state fsm) s_i xs') = fnat d0)
      by (unfold metric_at; by rewrite Hd0).
    unfold candidate. rewrite Hat. by apply fnat_add. }
  destruct Hwin as [[-> _] | (s0 & x & _ & (Hs0 & Hx & Hn) & Hmc & _ & Hlt & _)].
  - left. split; [done |]. intros s_i xs Hpath.
    destruct (path_snoc _ _ _ _ Hpath) as (xs' & x & -> & Hx & Hp' & Hs0 & Hn).
    destruct (Hcand s_i xs' x Hp' Hs0) as (d0 & _ & _ & Hc & Hexc).
    assert (He : edge_into fsm j (foldl (next_state fsm) s_i xs') x) by done.
    specialize (Hmin _ _ (or_introl Hs0) He).
    rewrite Hc, fnat_below_inf in Hmin by done. done.
  - right.
    destruct (Hrow s0 Hs0) as [[Hinf _] | (d0 & s_i & xs & Hd0 & Hp & Hd & Hleast)].
    { exfalso.
      assert (Hat : metric_at row s0 = finf)
        by (unfold metric_at; by rewrite Hinf).
      unfold candidate in Hmc. rewrite Hat, fadd_inf_fnat in Hmc.
      - rewrite Hmc in Hlt. done.
      - eapply exact_le; [| exact Hex].
        pose proof (Hcost (output fsm s0 x) z). lia. }
    pose proof Hp as (Hst & Hsi & Hlx & Hxs & Hfin).
    rewrite <- Hfin in Hmc, Hn, Hs0.
    destruct (Hcand s_i xs x) as (d0' & Hle0 & Hd0' & Hc & Hexc);
      [by rewrite Hfin | done |].
    rewrite Hfin in Hd0'. assert (d0' = d0) as ->.
    { rewrite Hd0 in Hd0'. injection Hd0' as Heq.
      pose proof (total_cost_bound cost C (outputs_along fsm s_i xs) zs Hcost).
      unfold cost_of in Hd, Hle0.
      apply fnat_inj in Heq; [done | |];
        (eapply exact_le; [| exact Hex]); lia. }
    exists (d0 + cost (output fsm (foldl (next_state fsm) s_i xs) x) z)%nat,
      s_i, (xs ++ [x]).
    split_and!.
    + rewrite Hm, Hmc, Hc. done.
    + split_and!; try done.
      * rewrite length_app. simpl. lia.
      * apply Forall_app. split; [done |]. by constructor.
      * rewrite foldl_app. done.
    + rewrite cost_of_snoc by done. lia.
    + intros s_i' xs'' Hpath.
      destruct (path_snoc _ _ _ _ Hpath)
        as (xs' & x' & -> & Hx' & Hp' & Hs0' & Hn').
      destruct (Hcand s_i' xs' x' Hp' Hs0') as (d1 & Hd1 & _ & Hc1 & Hexc1).
      assert (He : edge_into fsm j (foldl (next_state fsm) s_i' xs') x')
        by done.
      specialize (Hmin _ _ (or_introl Hs0') He).
      rewrite Hc1, Hmc, Hc, fnat_lt in Hmin by done.
      apply bool_decide_eq_false in Hmin.
      destruct Hp' as (_ & _ & Hlx' & _).
      rewrite cost_of_snoc by done. lia.
Qed.

Variable empty_int : nat -> nat -> Z.

Lemma least_costs_forward zs_rest :
  forall zs t row choices row_L,
    least_costs zs row -> exact (C * (length zs + length zs_rest)) ->
    viterbi_forward fsm (fun y z => fnat (cost y z)) empty_int t zs_rest row =
      Ok (choices, row_L) ->
    least_costs (zs ++ zs_rest) row_L.
Proof.
  induction zs_rest as [| z zs_rest IH]; intros zs t row choices row_L Hrow Hex.
  - simpl. intros [= <- <-]. by rewrite app_nil_r.
  - simpl.
    intros ([row1 ch] & Hstep & ([cs rL] & Hfwd & [= <- <-])%bind_Ok)%bind_Ok.
    simpl in Hex.
    rewrite cons_middle, app_assoc.
    apply (IH (zs ++ [z]) (S t) row1 cs rL); [| | done].
    + eapply least_costs_step; [done | | | exact Hstep].
      * eapply exact_le; [| exact Hex]. nia.
      * by rewrite length_map, length_seq.
    + rewrite length_app. simpl. eapply exact_le; [| exact Hex]. nia.
Qed.
End LeastCost.

(** An admissible run to [s]: [L] input symbols that [process] takes from
    a state of initial metric zero to [s], with outputs [ys]. *)
Definition admissible_run (fsm : FiniteStateMachine)
    (metrics_0 : list float) (L s s_i : nat) (xs ys : list Z) : Prop :=
  metrics_0 !! s_i = Some fzero /\
  length xs = L /\
  Forall (fun x => 0 <= x < Z.of_nat (num_input_symbols fsm)) xs /\
  process fsm xs (Z.of_nat s_i) = Ok (ys, Z.of_nat s).

Lemma admissible_run_path fsm metrics_0 L s s_i xs ys :
  well_formed fsm -> length metrics_0 = num_states fsm ->
  admissible_run fsm metrics_0 L s s_i xs ys ->
  path fsm (fun a => metrics_0 !! a = Some fzero) L s s_i (map Z.to_nat xs) /\
  ys = outputs_along fsm s_i (map Z.to_nat xs).
Proof.
  intros Hwf Hlen (Hst & Hl & Hxs & Hrun).
  assert (Hsi : (s_i < num_states fsm)%nat)
    by (rewrite <- Hlen; by eapply lookup_lt_Some).
  assert (Hxn : Forall (fun x => (x < num_input_symbols fsm)%nat)
                  (map Z.to_nat xs)).
  { apply Forall_map. eapply Forall_impl; [exact Hxs |]. simpl. lia. }
  assert (Hback : map Z.of_nat (map Z.to_nat xs) = xs).
  { rewrite map_map. rewrite <- (map_id xs) at 2.
    apply map_ext_Forall. eapply Forall_impl; [exact Hxs |]. simpl. lia. }
  unfold process in Hrun. rewrite <- Hback in Hrun.
  rewrite (process_from_nat fsm s_i _ Hwf Hsi Hxn) in Hrun.
  injection Hrun as <- Hfin. apply Nat2Z.inj in Hfin.
  split; [| done]. split_and!; try done. by rewrite length_map.
Qed.

(** X16: [viterbi] decodes at least cost.  For a metric that counts a
    whole number of at most [C] per symbol, with [C * L < 2^53], initial
    metrics that are [0.0] or [inf], and a machine without parallel edges:
    when [viterbi] returns, a state that no admissible run of [L] steps
    reaches has final metric [inf]; for every other state the column of
    the state is an admissible run to it, the final metric is the cost of
    the outputs of this run against the observations, and no admissible run
    to that state costs less. *)
Theorem viterbi_least_cost {Obs} (fsm : FiniteStateMachine)
    (cost : Z -> Obs -> nat) (C : nat) (empty_int : nat -> nat -> Z)
    (observed_sequence : list Obs) (initial_metrics : option (list float))
    (input_sequences_hat : list (list Z)) (final_metrics : list float) :
  well_formed fsm -> constructed fsm -> no_parallel_edges fsm ->
  (forall y z, (cost y z <= C)%nat) ->
  exact (C * length observed_sequence) ->
  (forall im, initial_metrics = Some im ->
     Forall (fun m => m = fzero \/ m = finf) im) ->
  viterbi fsm (fun y z => fnat (cost y z)) empty_int observed_sequence
    initial_metrics = Ok (input_sequences_hat, final_metrics) ->
  exists metrics_0,
    initial_row fsm initial_metrics = Ok metrics_0 /\
    forall s, (s < num_states fsm)%nat ->
      (final_metrics !! s = Some finf /\
       forall s_i xs ys,
         ~ admissible_run fsm metrics_0 (length observed_sequence) s s_i xs
             ys) \/
      (exists s_i ys,
         admissible_run fsm metrics_0 (length observed_sequence) s s_i
           (column input_sequences_hat s) ys /\
         final_metrics !! s =
           Some (fnat (total_cost cost ys observed_sequence)) /\
         forall s_i' xs' ys',
           admissible_run fsm metrics_0 (length observed_sequence) s s_i' xs'
             ys' ->
           (total_cost cost ys observed_sequence <=
            total_cost cost ys' observed_sequence)%nat).
Proof.
  intros Hwf Hcons Hnp Hcost Hex Him Hrun. unfold viterbi in Hrun.
  apply bind_Ok in Hrun as (m0 & Hm0 & Hrun).
  apply bind_Ok in Hrun as ([choices row_L] & Hfwd & Hrun).
  apply bind_Ok in Hrun as (columns & Hcols & [= <- <-]).
  exists m0. split; [done |].
  pose proof (initial_row_length _ _ _ Hm0) as Hl0.
  set (L := length observed_sequence) in *.
  set (start := fun a : nat => m0 !! a = Some fzero).
  assert (Hentries : Forall (fun m => m = fzero \/ m = finf) m0).
  { unfold initial_row in Hm0. destruct initial_metrics as [im |].
    - specialize (Him im eq_refl). case_decide; [by injection Hm0 as <- |].
      destruct im as [| v [| ? ?]]; try done. injection Hm0 as <-.
      apply Forall_replicate. by apply Forall_cons in Him as [? _].
    - injection Hm0 as <-. apply Forall_replicate. by left. }
  (* the initial row holds the least costs of the paths of no step *)
  assert (Hinit : least_costs fsm cost start [] m0).
  { split; [done |]. intros s Hs.
    destruct (lookup_lt_is_Some_2 m0 s) as [v Hv]; [lia |].
    rewrite Forall_lookup in Hentries.
    destruct (Hentries _ _ Hv) as [-> | ->].
    - right. exists 0%nat, s, []. split_and!; try done.
      intros s_i' xs' _. unfold cost_of. simpl. lia.
    - left. split; [done |]. intros s_i xs (Hst & _ & Hlx & _ & Hfin).
      destruct xs; [| done]. simpl in Hfin. subst s_i.
      change (m0 !! s = Some fzero) in Hst. rewrite Hv in Hst.
      discriminate. }
  pose proof (least_costs_forward fsm Hwf cost C Hcost start empty_int
                observed_sequence [] 0%nat m0 choices row_L Hinit Hex Hfwd)
    as [HlL Hleast].
  simpl in Hleast.
  destruct (viterbi_forward_paths fsm Hwf Hcons
              (fun y z => fnat (cost y z)) empty_int observed_sequence 0%nat
              m0 Hl0)
    as (choices' & row_L' & Hfwd' & Hlc & _ & _ & _ & Hpaths).
  rewrite Hfwd in Hfwd'. injection Hfwd' as <- <-.
  intros s Hs.
  destruct (Hleast s Hs) as [[Hinf Hnone] | (d & a & xa & Hd & Hpa & Hda & Hmin)].
  - left. split; [done |]. intros s_i xs ys Hadm.
    apply admissible_run_path in Hadm as [Hp _]; [| done | done].
    by apply (Hnone s_i (map Z.to_nat xs)).
  - right.
    assert (Hexd : exact d).
    { eapply exact_le; [| exact Hex]. rewrite Hda. unfold cost_of.
      by apply total_cost_bound. }
    assert (Hreached : reached row_L s).
    { unfold reached, metric_at. rewrite Hd. simpl.
      by apply fnat_below_inf. }
    destruct (Hpaths s Hreached)
      as (a0 & xs & xs' & Ha0 & Hlx & Hxs & Hfin & Hmet & Hsame & Hback).
    pose proof (reached_lt _ _ Ha0) as Ha0lt. rewrite Hl0 in Ha0lt.
    assert (xs' = xs) as ->
      by (by apply (same_moves_eq fsm a0 xs xs' Hnp Ha0lt Hwf Hxs)).
    assert (Hstart : m0 !! a0 = Some fzero).
    { destruct (lookup_lt_is_Some_2 m0 a0) as [v Hv]; [lia |].
      rewrite Forall_lookup in Hentries.
      destruct (Hentries _ _ Hv) as [-> | ->]; [done |].
      unfold reached, metric_at in Ha0. by rewrite Hv in Ha0. }
    (* the metric is the cost of the decoded run *)
    set (ys := outputs_along fsm a0 xs) in *.
    assert (Hd' : d = total_cost cost ys observed_sequence).
    { assert (Hat : metric_at m0 a0 = fnat 0)
        by (unfold metric_at; by rewrite Hstart).
      assert (Hat' : metric_at row_L s = fnat d)
        by (unfold metric_at; by rewrite Hd).
      rewrite Hat, Hat' in Hmet.
      rewrite (path_cost_fnat cost C) in Hmet by done.
      apply fnat_inj in Hmet; [done | done |].
      eapply exact_le; [| exact Hex]. simpl.
      by apply total_cost_bound. }
    (* the column is the decoded run *)
    specialize (Hback []). rewrite app_nil_r in Hback. simpl in Hback.
    apply mapM_Ok in Hcols as [_ Hall].
    destruct (Hall s s) as (col & Hcol & Hbt); [by apply lookup_seq_lt |].
    rewrite Hback in Hbt. injection Hbt as <-.
    assert (Hcolumn : column (from_columns L columns) s = map Z.of_nat xs).
    { apply column_from_columns; [done |]. rewrite length_map. done. }
    exists a0, ys. rewrite Hcolumn. split_and!.
    + split_and!; try done.
      * by rewrite length_map.
      * apply Forall_map. eapply Forall_impl; [exact Hxs |]. simpl. lia.
      * unfold process.
        by rewrite (process_from_nat fsm a0 xs Hwf Ha0lt Hxs), Hfin.
    + by rewrite Hd, Hd'.
    + intros s_i' xs'' ys' Hadm.
      apply admissible_run_path in Hadm as [Hp ->]; [| done | done].
      rewrite <- Hd'. by apply Hmin.
Qed.

(** The cost one for a symbol that differs from the observed one. *)
Definition symbol_cost (y z : Z) : nat := if decide (y = z) then 0 else 1.

Lemma example_fsm_no_parallel_edges : no_parallel_edges example_fsm.
Proof.
  intros s x x' Hs Hx Hx'. unfold num_states, num_input_symbols in *.
  simpl in Hs, Hx, Hx'.
  destruct s as [| [| [| [| s]]]]; try lia;
    destruct x as [| [| x]]; try lia; destruct x' as [| [| x']]; try lia;
    vm_compute; try done; discriminate.
Qed.

(** An observation one symbol away from the outputs [3; 2; 2]. *)
Definition noisy_observation : list Z := [3; 2; 1].

Lemma viterbi_least_cost_witness :
  exists metrics_0,
    initial_row example_fsm (Some [fzero; finf; finf; finf]) = Ok metrics_0 /\
    forall s, (s < num_states example_fsm)%nat ->
      (([fnat 2; fnat 2; fnat 1; fnat 0] : list float) !! s = Some finf /\
       forall s_i xs ys,
         ~ admissible_run example_fsm metrics_0 (length noisy_observation) s
             s_i xs ys) \/
      (exists s_i ys,
         admissible_run example_fsm metrics_0 (length noisy_observation) s
           s_i (column [[1; 1; 1; 1]; [0; 0; 1; 1]; [0; 1; 0; 1]] s) ys /\
         ([fnat 2; fnat 2; fnat 1; fnat 0] : list float) !! s =
           Some (fnat (total_cost symbol_cost ys noisy_observation)) /\
         forall s_i' xs' ys',
           admissible_run example_fsm metrics_0 (length noisy_observation) s
             s_i' xs' ys' ->
           (total_cost symbol_cost ys noisy_observation <=
            total_cost symbol_cost ys' noisy_observation)%nat).
Proof.
  apply (viterbi_least_cost example_fsm symbol_cost 1 (fun _ _ => 0)
           noisy_observation (Some [fzero; finf; finf; finf])
           [[1; 1; 1; 1]; [0; 0; 1; 1]; [0; 1; 0; 1]]
           [fnat 2; fnat 2; fnat 1; fnat 0]).
  - exact example_fsm_well_formed.
  - exact example_fsm_is_constructed.
  - exact example_fsm_no_parallel_edges.
  - intros y z. unfold symbol_cost. case_decide; lia.
  - vm_compute. reflexivity.
  - intros im [= <-].
    repeat (apply Forall_cons; split; [auto |]). constructor.
  - vm_compute. reflexivity.
Defined.

(** ** The metrics of the streaming decoder *)

Lemma path_admissible_run fsm metrics_0 L s s_i xs :
  well_formed fsm ->
  path fsm (fun a => metrics_0 !! a = Some fzero) L s s_i xs ->
  admissible_run fsm metrics_0 L s s_i (map Z.of_nat xs)
    (outputs_along fsm s_i xs).
Proof.
  intros Hwf (Hst & Hsi & Hlen & Hxs & Hfin). split_and!; try done.
  - by rewrite length_map.
  - apply Forall_map. eapply Forall_impl; [exact Hxs |]. simpl. lia.
  - unfold process. by rewrite (process_from_nat fsm s_i xs Hwf Hsi Hxs), Hfin.
Qed.

(** X17: the streaming decoder keeps least costs.  For a metric that
    counts a whole number of at most [C] per symbol, with [C * L < 2^53],
    and a memory whose last column of metrics holds [0.0] or [inf]: after
    [viterbi_streaming] on [L] observations, the last column of the metrics
    holds [inf] for a state that no admissible run of [L] steps reaches, and
    for every other state the least cost of the admissible runs to it. *)
Theorem viterbi_streaming_least_cost {Obs} (fsm : FiniteStateMachine)
    (cost : Z -> Obs -> nat) (C tau : nat) (observed_sequence : list Obs)
    (memory memory' : MetricMemory) (input_sequence_hat : list Z) :
  well_formed fsm -> constructed fsm ->
  (forall y z, (cost y z <= C)%nat) ->
  exact (C * length observed_sequence) ->
  memory_shape (num_states fsm) tau memory ->
  Forall (fun m => m = fzero \/ m = finf) (last_column (metrics memory)) ->
  viterbi_streaming fsm (fun y z => fnat (cost y z)) observed_sequence
    memory = Ok (input_sequence_hat, memory') ->
  forall s, (s < num_states fsm)%nat ->
    let metrics_0 := last_column (metrics memory) in
    let L := length observed_sequence in
    (last_column (metrics memory') !! s = Some finf /\
     forall s_i xs ys, ~ admissible_run fsm metrics_0 L s s_i xs ys) \/
    (exists s_i xs ys,
       admissible_run fsm metrics_0 L s s_i xs ys /\
       last_column (metrics memory') !! s =
         Some (fnat (total_cost cost ys observed_sequence)) /\
       forall s_i' xs' ys',
         admissible_run fsm metrics_0 L s s_i' xs' ys' ->
         (total_cost cost ys observed_sequence <=
          total_cost cost ys' observed_sequence)%nat).
Proof.
  intros Hwf Hcons Hcost Hex Hshape Hentries Hrun s Hs m0 L.
  assert (Hl0 : length m0 = num_states fsm).
  { unfold m0, last_column. rewrite length_map. by destruct Hshape as (_ & _ & ? & _). }
  set (start := fun a : nat => m0 !! a = Some fzero).
  (* the block decoder on the same observations *)
  destruct (viterbi_forward_paths fsm Hwf Hcons
              (fun y z => fnat (cost y z)) (fun _ _ => 0) observed_sequence
              0%nat m0 Hl0)
    as (choices & row_L & Hfwd & _).
  assert (Hin : in_step fsm tau m0 memory) by done.
  destruct (side_by_side fsm Hwf (fun y z => fnat (cost y z)) tau
              (fun _ _ => 0) observed_sequence 0%nat m0 memory choices row_L
              input_sequence_hat memory' Hin Hfwd Hrun)
    as ([_ Hlast] & _).
  rewrite Hlast.
  assert (Hinit : least_costs fsm cost start [] m0).
  { split; [done |]. intros j Hj.
    destruct (lookup_lt_is_Some_2 m0 j) as [v Hv]; [lia |].
    rewrite Forall_lookup in Hentries.
    destruct (Hentries _ _ Hv) as [-> | ->].
    - right. exists 0%nat, j, []. split_and!; try done.
      intros s_i' xs' _. unfold cost_of. simpl. lia.
    - left. split; [done |]. intros s_i xs (Hst & _ & Hlx & _ & Hfin).
      destruct xs; [| done]. simpl in Hfin. subst s_i.
      change (m0 !! j = Some fzero) in Hst. rewrite Hv in Hst.
      discriminate. }
  pose proof (least_costs_forward fsm Hwf cost C Hcost start (fun _ _ => 0)
                observed_sequence [] 0%nat m0 choices row_L Hinit Hex Hfwd)
    as [_ Hleast].
  simpl in Hleast.
  destruct (Hleast s Hs) as [[Hinf Hnone] | (d & a & xa & Hd & Hpa & Hda & Hmin)].
  - left. split; [done |]. intros s_i xs ys Hadm.
    apply admissible_run_path in Hadm as [Hp _]; [| done | done].
    by apply (Hnone s_i (map Z.to_nat xs)).
  - right. exists a, (map Z.of_nat xa), (outputs_along fsm a xa).
    split; [by apply path_admissible_run |].
    split; [by rewrite Hd, Hda |].
    intros s_i' xs' ys' Hadm.
    apply admissible_run_path in Hadm as [Hp ->]; [| done | done].
    fold (cost_of fsm cost a xa observed_sequence). rewrite <- Hda.
    by apply Hmin.
Qed.

Lemma viterbi_streaming_least_cost_witness :
  let metrics_0 := last_column (metrics example_memory) in
  let L := length noisy_observation in
  (last_column
     [[fnat 0; fnat 1; fnat 2; fnat 2]; [finf; fnat 0; fnat 2; fnat 2];
      [finf; finf; fnat 1; fnat 1]; [finf; finf; fnat 0; fnat 0]] !! 3%nat =
     Some finf /\
   forall s_i xs ys,
     ~ admissible_run example_fsm metrics_0 L 3 s_i xs ys) \/
  (exists s_i xs ys,
     admissible_run example_fsm metrics_0 L 3 s_i xs ys /\
     last_column
       [[fnat 0; fnat 1; fnat 2; fnat 2]; [finf; fnat 0; fnat 2; fnat 2];
        [finf; finf; fnat 1; fnat 1]; [finf; finf; fnat 0; fnat 0]] !! 3%nat =
       Some (fnat (total_cost symbol_cost ys noisy_observation)) /\
     forall s_i' xs' ys',
       admissible_run example_fsm metrics_0 L 3 s_i' xs' ys' ->
       (total_cost symbol_cost ys noisy_observation <=
        total_cost symbol_cost ys' noisy_observation)%nat).
Proof.
  apply (viterbi_streaming_least_cost example_fsm symbol_cost 1 3
           noisy_observation example_memory
           {| paths := [[0; 1; 2; 0]; [0; 1; 2; 1]; [0; 1; 3; 2]; [0; 1; 3; 3]];
              metrics :=
                [[fnat 0; fnat 1; fnat 2; fnat 2];
                 [finf; fnat 0; fnat 2; fnat 2];
                 [finf; finf; fnat 1; fnat 1];
                 [finf; finf; fnat 0; fnat 0]] |}
           [0; 0; 0]).
  - exact example_fsm_well_formed.
  - exact example_fsm_is_constructed.
  - intros y z. unfold symbol_cost. case_decide; lia.
  - vm_compute. reflexivity.
  - unfold memory_shape, num_states. simpl. repeat constructor.
  - simpl. repeat (apply Forall_cons; split; [auto |]). constructor.
  - vm_compute. reflexivity.
  - unfold num_states. simpl. lia.
Defined.

(** ** The metric of the stream decoder on hard decisions *)

(** [ConvolutionalStreamDecoder.cache_bit] for a code of [n] output bits:
    row [y] holds the [n] bits of [y]. *)
Definition cache_bit (n : nat) : list (list Z) :=
  map (fun y => int2binlist (Z.of_nat y) n) (seq 0 (2 ^ n)).

(** [a != b] on two arrays of one dimension: elementwise, an array of one
    element is stretched, other lengths do not broadcast. *)
Definition not_equal (a b : list Z) : result (list bool) :=
  if decide (length a = length b) then
    Ok (zip_with (fun x y => bool_decide (x <> y)) a b)
  else
    match a, b with
    | [x], _ => Ok (map (fun y => bool_decide (x <> y)) b)
    | _, [y] => Ok (map (fun x => bool_decide (x <> y)) a)
    | _, _ => Raise ValueError
    end.

Fixpoint count_nonzero (flags : list bool) : nat :=
  match flags with
  | [] => 0
  | flag :: flags => ((if flag then 1 else 0) + count_nonzero flags)%nat
  end.

(** [metric_function] for [input_type = "hard"]:
    [np.count_nonzero(self.cache_bit[y] != z)]. *)
Definition hard_metric (n : nat) (y : Z) (z : list Z) : result nat :=
  do row <- get1 (cache_bit n) y;
  do flags <- not_equal row z;
  Ok (count_nonzero flags).

Lemma length_cache_bit n : Z.of_nat (length (cache_bit n)) = 2 ^ Z.of_nat n.
Proof.
  unfold cache_bit. rewrite length_map, length_seq.
  by rewrite Nat2Z.inj_pow.
Qed.

Lemma cache_bit_row n y :
  0 <= y < 2 ^ Z.of_nat n -> get1 (cache_bit n) y = Ok (int2binlist y n).
Proof.
  intros Hy.
  assert (Hk : (Z.to_nat y < 2 ^ n)%nat).
  { apply Nat2Z.inj_lt. rewrite Nat2Z.inj_pow, Z2Nat.id by lia.
    change (Z.of_nat 2) with 2. lia. }
  rewrite <- (Z2Nat.id y) at 1 by lia. apply get1_nat.
  unfold cache_bit. rewrite list_lookup_fmap, lookup_seq_lt by done.
  simpl. by rewrite Z2Nat.id by lia.
Qed.

Lemma count_nonzero_differences (a b : list Z) :
  length a = length b ->
  (count_nonzero (zip_with (fun x y => bool_decide (x <> y)) a b)
     <= length a)%nat /\
  (count_nonzero (zip_with (fun x y => bool_decide (x <> y)) a b) = 0%nat
     <-> a = b).
Proof.
  revert b. induction a as [| x a IH]; intros [| y b] Hlen; simpl in *;
    try done.
  destruct (IH b) as [Hle Hiff]; [lia |]. case_bool_decide as Hxy.
  - split; [lia |]. split; [lia | congruence].
  - subst y. split; [lia |].
    rewrite Nat.add_0_l, Hiff. split; [by intros -> | congruence].
Qed.

(** X18: on hard decisions the metric of the stream decoder is a distance
    to the bits of the output symbol.  For an output symbol [y] in
    [0, 2^n) and an observation of [n] values it returns a count of at most
    [n], which is [0] exactly when the observation is the [n] bits of [y];
    for [y >= 2^n] it raises IndexError. *)
Theorem hard_metric_distance (n : nat) (y : Z) (z : list Z) :
  length z = n ->
  (0 <= y < 2 ^ Z.of_nat n ->
   exists d, hard_metric n y z = Ok d /\ (d <= n)%nat /\
     (d = 0%nat <-> z = int2binlist y n)) /\
  (2 ^ Z.of_nat n <= y -> hard_metric n y z = Raise IndexError).
Proof.
  intros Hz. split.
  - intros Hy. unfold hard_metric. rewrite cache_bit_row by done. simpl.
    unfold not_equal.
    rewrite decide_True by (by rewrite length_int2binlist). simpl.
    destruct (count_nonzero_differences (int2binlist y n) z) as [Hle Hiff];
      [by rewrite length_int2binlist |].
    rewrite length_int2binlist in Hle. eexists. split; [done |].
    split; [done |]. rewrite Hiff. split; congruence.
  - intros Hy. unfold hard_metric. rewrite get1_outside; [done |].
    right. by rewrite length_cache_bit.
Qed.

Lemma hard_metric_distance_witness :
  exists d, hard_metric 2 2 [1; 1] = Ok d /\ (d <= 2)%nat /\
    (d = 0%nat <-> [1; 1] = int2binlist 2 2).
Proof.
  apply (proj1 (hard_metric_distance 2 2 [1; 1] eq_refl)). simpl. lia.
Defined.

(** ** Zero termination of a code without memory, or of no block *)

(** X19: zero termination needs memory and at least one block.  With
    [memory_order = 0] or [num_blocks = 0] one of the two lists handed to
    [np.vstack] is empty and [pre_process_input] raises ValueError on every
    input, whatever [pseudo_inverse] does. *)
Theorem zero_termination_needs_memory_and_blocks
    (pseudo_inverse : list (list Z) -> list (list Z))
    (self : ZeroTermination.t) (input_bits : list Z) :
  ZeroTermination.memory_order self = 0%nat \/
  ZeroTermination.num_blocks self = 0%nat ->
  ZeroTermination.pre_process_input pseudo_inverse self input_bits =
    Raise ValueError.
Proof.
  intros H. unfold ZeroTermination.pre_process_input,
    ZeroTermination._tail_projector, ZeroTermination.AnB_message,
    ZeroTermination.AnB_tail.
  destruct H as [-> | ->]; simpl.
  - unfold vstack. by destruct (map _ _).
  - done.
Qed.

Lemma zero_termination_needs_memory_and_blocks_witness :
  ZeroTermination.pre_process_input (fun _ => [[0; 1]; [1; 0]])
    {| ZeroTermination.convolutional_code := example_code;
       ZeroTermination.memory_order := 0;
       ZeroTermination.num_blocks := 3 |} [1; 0; 1] = Raise ValueError.
Proof.
  apply zero_termination_needs_memory_and_blocks. left. reflexivity.
Defined.

(** * The forward-backward algorithm *)

(** ** [forward_backward] *)

Definition fsub : float -> float -> float := SFsub prec emax.
Definition fdiv : float -> float -> float := SFdiv prec emax.
Definition fneg_inf : float := S754_infinity true.

(** A value that is neither NaN nor infinite. *)
Definition is_finite (a : float) : bool :=
  match a with
  | S754_zero _ | S754_finite _ _ _ => true
  | _ => false
  end.

(** [np.maximum]: a NaN wins; otherwise the greater value and, of two equal
    ones, the first. *)
Definition fmaximum (a b : float) : float :=
  if is_nan a then a
  else if is_nan b then b
  else if flt a b then b else a.

(** [np.amax] along a row; a row of no entries has no maximum. *)
Definition row_max (row : list float) : result float :=
  match row with
  | [] => Raise ValueError
  | a :: r => Ok (foldl fmaximum a r)
  end.

(** What [np.sum] of a row may return.  NumPy adds the entries by pairwise
    summation, in blocks and with an order that depend on the length and on
    the build: any way of adding all entries, zeros thrown in, is
    allowed. *)
Inductive summation : list float -> float -> Prop :=
| summation_nil s : summation [] (S754_zero s)
| summation_one a : summation [a] a
| summation_app l1 l2 a b :
    summation l1 a -> summation l2 b -> summation (l1 ++ l2) (fadd a b)
| summation_perm l l' a : l ≡ₚ l' -> summation l a -> summation l' a.

Section ForwardBackward.
Context {Obs : Type}.
(** [np.exp], [np.log] and [np.logaddexp] on one [float64]: the functions
    of the C library, of which only named properties are used. *)
Variable exp log : float -> float.
Variable logaddexp : float -> float -> float.
Variable np_sum : list float -> float.
Variable fsm : FiniteStateMachine.
Variable metric_function : Z -> Obs -> float.

(** [np.logaddexp.reduce] of a 1-D array: from the first entry on, left to
    right; the identity [-inf] for no entry. *)
Definition logaddexp_reduce (v : list float) : float :=
  match v with
  | [] => fneg_inf
  | a :: r => foldl logaddexp a r
  end.

(** [self.num_input_symbols], that is [next_states.shape[1]]: the array of
    an empty list has one axis only. *)
Definition shape_1 : result nat :=
  match next_states fsm with
  | [] => Raise IndexError
  | row :: _ => Ok (length row)
  end.

(** [np.ones(n) / n]. *)
Definition uniform (n : nat) : float := fdiv fone (fnat n).

(** [np.log(input_priors)], by default of [np.ones((L, X)) / X]. *)
Definition log_priors (L X : nat) (input_priors : option (list (list float)))
  : result (list (list float)) :=
  match input_priors with
  | None => Ok (full L X (log (uniform X)))
  | Some p =>
      if decide (rectangular p) then Ok (map (map log) p)
      else Raise ValueError
  end.

(** [a[i, :] = np.log(distribution)]: a row of the right length, or one
    value for all entries. *)
Definition log_distribution (n : nat) (distribution : option (list float))
  : result (list float) :=
  match distribution with
  | None => Ok (replicate n (log (uniform n)))
  | Some d =>
      if decide (length d = n) then Ok (map log d)
      else match d with
           | [v] => Ok (replicate n (log v))
           | _ => Raise ValueError
           end
  end.

(** [np.ndindex(n, m)]: the first index varies slowest. *)
Definition ndindex (n m : nat) : list (nat * nat) :=
  x ← seq 0 n; (fun s0 => (x, s0)) <$> seq 0 m.

(** The body of the loop that fills [log_gamma[t]]. *)
Definition gamma_edge (log_input_priors : list (list float)) (t : nat)
    (z : Obs) (log_gamma_t : list (list float)) (e : nat * nat)
  : result (list (list float)) :=
  let '(x, s0) := e in
  do y <- get2 (outputs fsm) (Z.of_nat s0) (Z.of_nat x);
  do s1 <- get2 (next_states fsm) (Z.of_nat s0) (Z.of_nat x);
  do p <- get2 log_input_priors (Z.of_nat t) (Z.of_nat x);
  set2 log_gamma_t (Z.of_nat s0) s1 (fadd p (metric_function y z)).

Definition log_gamma (X : nat) (log_input_priors : list (list float))
    (observed_sequence : list Obs) : result (list (list (list float))) :=
  mapM (fun tz =>
          for_each (gamma_edge log_input_priors tz.1 tz.2)
            (ndindex X (num_states fsm))
            (full (num_states fsm) (num_states fsm) fneg_inf))
    (enumerate observed_sequence).

(** [a[:, j]] of a square array. *)
Definition column_of (a : list (list float)) (j : nat) : list float :=
  map (fun row => default S754_nan (row !! j)) a.

(** [log_alpha[t + 1, :]] from [log_gamma[t]] and [log_alpha[t, :]]. *)
Definition alpha_step (log_gamma_t : list (list float))
    (log_alpha_t : list float) : list float :=
  map (fun s1 =>
         logaddexp_reduce
           (zip_with fadd (column_of log_gamma_t s1) log_alpha_t))
    (seq 0 (num_states fsm)).

Fixpoint forward (gammas : list (list (list float)))
    (log_alpha_t : list float) : list (list float) :=
  match gammas with
  | [] => []
  | g :: gammas' =>
      let next := alpha_step g log_alpha_t in next :: forward gammas' next
  end.

(** [log_alpha]: row [0] is given, the loop over [range(0, L - 1)] fills
    the rows up to [L - 1], and row [L] keeps the [-inf] of [np.full]. *)
Definition log_alpha (gammas : list (list (list float)))
    (log_alpha_0 : list float) : list (list float) :=
  match gammas with
  | [] => [log_alpha_0]
  | _ =>
      log_alpha_0 :: forward (removelast gammas) log_alpha_0
        ++ [replicate (num_states fsm) fneg_inf]
  end.

(** [log_beta[t, :]] from [log_gamma[t]] and [log_beta[t + 1, :]]. *)
Definition beta_step (log_gamma_t : list (list float))
    (log_beta_t1 : list float) : list float :=
  map (fun row => logaddexp_reduce (zip_with fadd row log_beta_t1))
    log_gamma_t.

(** [log_beta]: row [L] is given, the loop fills the rows from [L - 1]
    down to [0]. *)
Fixpoint log_beta (gammas : list (list (list float)))
    (log_beta_L : list float) : list (list float) :=
  match gammas with
  | [] => [log_beta_L]
  | g :: gammas' =>
      let later := log_beta gammas' log_beta_L in
      beta_step g (default [] (head later)) :: later
  end.

(** [edge_labels[s0]] for the input [x]. *)
Definition edge_label (log_alpha_t : list float)
    (log_gamma_t : list (list float)) (log_beta_t1 : list float)
    (x s0 : nat) : result float :=
  do s1 <- get2 (next_states fsm) (Z.of_nat s0) (Z.of_nat x);
  do a <- item log_alpha_t s0;
  do g <- get2 log_gamma_t (Z.of_nat s0) s1;
  do b <- get1 log_beta_t1 s1;
  Ok (fadd (fadd a g) b).

(** One row of [log_input_posteriors]. *)
Definition log_posterior_row (X : nat) (log_alpha_t : list float)
    (log_gamma_t : list (list float)) (log_beta_t1 : list float)
  : result (list float) :=
  mapM (fun x =>
          do edge_labels <-
            mapM (edge_label log_alpha_t log_gamma_t log_beta_t1 x)
              (seq 0 (num_states fsm));
          Ok (logaddexp_reduce edge_labels))
    (seq 0 X).

(** [forward_backward] up to [log_input_posteriors]. *)
Definition log_input_posteriors (observed_sequence : list Obs)
    (input_priors : option (list (list float)))
    (initial_state_distribution final_state_distribution
       : option (list float))
  : result (nat * list (list float)) :=
  let L := length observed_sequence in
  do X <- shape_1;
  do log_input_priors <- log_priors L X input_priors;
  do log_alpha_0 <-
    log_distribution (num_states fsm) initial_state_distribution;
  do log_beta_L <- log_distribution (num_states fsm) final_state_distribution;
  do gammas <- log_gamma X log_input_priors observed_sequence;
  let alphas := log_alpha gammas log_alpha_0 in
  let betas := log_beta gammas log_beta_L in
  do rows <-
    mapM (fun t =>
            do a <- item alphas t;
            do g <- item gammas t;
            do b <- item betas (S t);
            log_posterior_row X a g b)
      (seq 0 L);
  Ok (X, rows).

(** The last two statements on one row: [np.exp] of the row less its
    maximum, divided by the sum. *)
Definition normalise (row : list float) : result (list float) :=
  do greatest <- row_max row;
  let weights := map (fun v => exp (fsub v greatest)) row in
  Ok (map (fun w => fdiv w (np_sum weights)) weights).

(** [np.amax] along axis 1 raises on rows of no entries, also when there is
    no row. *)
Definition forward_backward (observed_sequence : list Obs)
    (input_priors : option (list (list float)))
    (initial_state_distribution final_state_distribution
       : option (list float))
  : result (list (list float)) :=
  do '(X, rows) <-
    log_input_posteriors observed_sequence input_priors
      initial_state_distribution final_state_distribution;
  if decide (X = 0%nat) then Raise ValueError else mapM normalise rows.
End ForwardBackward.

(** *** NaN, zeros and ones *)

Lemma is_nan_eq a : is_nan a = true -> a = S754_nan.
Proof. by destruct a. Qed.

Lemma fadd_nan_l a : fadd S754_nan a = S754_nan.
Proof. done. Qed.

Lemma fadd_nan_r a : fadd a S754_nan = S754_nan.
Proof. by destruct a. Qed.

Lemma fdiv_nan_r a : fdiv a S754_nan = S754_nan.
Proof. by destruct a. Qed.

Lemma fsub_self a :
  fsub a a = if is_finite a then fzero else S754_nan.
Proof.
  destruct a as [[] | [] | | s m e]; try done.
  unfold fsub, SFsub. cbv zeta. by rewrite Z.sub_diag.
Qed.

Lemma fsub_neg_inf a : is_finite a = true -> fsub fneg_inf a = fneg_inf.
Proof. by destruct a as [[] | [] | | s m e]. Qed.

Lemma fnat_one : fnat 1 = fone.
Proof. vm_compute. reflexivity. Qed.

Lemma fnat_finite k :
  (0 < k)%nat -> exact k -> exists m e, fnat k = S754_finite false m e.
Proof.
  intros Hk Hex. rewrite fnat_canon by (done || lia).
  unfold canon. eauto.
Qed.

Lemma fdiv_zero_fnat k :
  (0 < k)%nat -> exact k -> fdiv fzero (fnat k) = fzero.
Proof.
  intros Hk Hex. destruct (fnat_finite k Hk Hex) as (m & e & ->). done.
Qed.

Lemma fdiv_one_one : fdiv fone fone = fone.
Proof. vm_compute. reflexivity. Qed.

(** *** Sums *)

Lemma summation_nan l r : summation l r -> S754_nan ∈ l -> r = S754_nan.
Proof.
  induction 1 as [s | a | l1 l2 a b _ IH1 _ IH2 | l l' a Hp _ IH].
  - by intros ?%elem_of_nil.
  - by intros ->%list_elem_of_singleton.
  - intros [H | H]%elem_of_app.
    + by rewrite IH1.
    + rewrite IH2 by done. apply fadd_nan_r.
  - intros H. apply IH. by rewrite Hp.
Qed.

(** The entries that are above zero. *)
Definition positives (l : list float) : nat :=
  length (filter (fun w => flt fzero w = true) l).

Lemma positives_app l1 l2 :
  positives (l1 ++ l2) = (positives l1 + positives l2)%nat.
Proof. unfold positives. by rewrite filter_app, length_app. Qed.

Lemma positives_le l : (positives l <= length l)%nat.
Proof. apply length_filter. Qed.

(** A sum of ones and zeros is the number of ones, whatever the order. *)
Lemma summation_ones l r :
  summation l r ->
  Forall (fun w => w = fone \/ w = fzero) l -> exact (length l) ->
  (positives l = 0%nat /\ exists s, r = S754_zero s) \/
  ((0 < positives l)%nat /\ r = fnat (positives l)).
Proof.
  induction 1 as [s | a | l1 l2 a b _ IH1 _ IH2 | l l' a Hp _ IH].
  - intros _ _. left. eauto.
  - intros [[-> | ->] _]%Forall_cons _.
    + right. assert (H1 : positives [fone] = 1%nat) by done.
      rewrite H1. split; [lia |]. by rewrite fnat_one.
    + left. split; [done |]. by exists false.
  - intros [H1 H2]%Forall_app Hex. rewrite length_app in Hex.
    pose proof (positives_le l1). pose proof (positives_le l2).
    assert (He1 : exact (length l1)) by (unfold exact in *; lia).
    assert (He2 : exact (length l2)) by (unfold exact in *; lia).
    rewrite positives_app.
    destruct (IH1 H1 He1) as [[-> [s1 ->]] | [Hk1 ->]];
      destruct (IH2 H2 He2) as [[-> [s2 ->]] | [Hk2 ->]].
    + left. split; [done |]. destruct s1, s2; eauto.
    + right. split; [lia |]. rewrite Nat.add_0_l.
      destruct (fnat_finite (positives l2)) as (m & e & ->);
        [done | unfold exact in *; lia |]. done.
    + right. split; [lia |]. rewrite Nat.add_0_r.
      destruct (fnat_finite (positives l1)) as (m & e & ->);
        [done | unfold exact in *; lia |]. done.
    + right. split; [lia |]. apply fnat_add. unfold exact in *. lia.
  - intros H Hex. rewrite <- Hp in H. rewrite <- Hp in Hex.
    assert (positives l' = positives l) as ->
      by (unfold positives; by rewrite <- Hp).
    by apply IH.
Qed.

(** *** The greatest entry of a row *)

Lemma foldl_fmaximum_elem a r :
  foldl fmaximum a r = a \/ foldl fmaximum a r ∈ r.
Proof.
  revert a. induction r as [| b r IH]; intros a; simpl; [by left |].
  destruct (IH (fmaximum a b)) as [-> | H].
  - unfold fmaximum. destruct (is_nan a); [by left |].
    destruct (is_nan b); [right; left |].
    destruct (flt a b); [right; left | by left].
  - right. by right.
Qed.

Lemma row_max_elem row greatest :
  row_max row = Ok greatest -> greatest ∈ row.
Proof.
  destruct row as [| a r]; [done |]. simpl. intros [= <-].
  destruct (foldl_fmaximum_elem a r) as [-> | H]; [left | by right].
Qed.

Lemma foldl_fmaximum_tie greatest a r :
  is_finite greatest = true ->
  (a = greatest \/ a = fneg_inf) ->
  Forall (fun v => v = greatest \/ v = fneg_inf) r ->
  (foldl fmaximum a r = greatest /\ greatest ∈ a :: r) \/
  (foldl fmaximum a r = fneg_inf /\ Forall (fun v => v = fneg_inf) (a :: r)).
Proof.
  intros Hfin Ha Hr. revert a Ha.
  induction Hr as [| b r Hb Hr IH]; intros a Ha; simpl.
  - destruct Ha as [-> | ->]; [left | right]; split; try done.
    + left.
    + by constructor.
  - assert (Hstep : fmaximum a b = greatest /\ (a = greatest \/ b = greatest)
                    \/ fmaximum a b = fneg_inf /\ a = fneg_inf /\
                       b = fneg_inf).
    { unfold fmaximum.
      destruct Ha as [-> | ->], Hb as [-> | ->];
        destruct greatest as [[] | [] | | [] m e]; try done;
        simpl; rewrite ?flt_irrefl; eauto.
      all: unfold flt, SFltb; simpl;
        repeat match goal with
          | |- context [PosDef.Pos.compare_cont Eq ?p ?q] =>
              change (PosDef.Pos.compare_cont Eq p q) with (Pos.compare p q)
          end;
        rewrite ?Z.compare_refl, ?Pos.compare_refl; simpl; eauto. }
    destruct Hstep as [[Hm Hwhich] | (Hm & -> & ->)].
    + rewrite Hm. destruct (IH greatest) as [[-> Hin] | [_ Hall]];
        [by left | |].
      * left. split; [done |].
        destruct Hwhich as [-> | ->]; [left | right; left].
      * apply Forall_cons in Hall as [Habs _]. by rewrite Habs in Hfin.
    + rewrite Hm. destruct (IH fneg_inf) as [[-> Hin] | [-> Hall]];
        [by right | |].
      * left. split; [done |].
        apply elem_of_cons in Hin as [-> | Hin]; [left | by do 2 right].
      * right. split; [done |]. by constructor.
Qed.

Lemma foldl_fmaximum_nan a r :
  is_nan a = true \/ S754_nan ∈ r -> foldl fmaximum a r = S754_nan.
Proof.
  revert a. induction r as [| b r IH]; intros a; simpl.
  - intros [H | H%elem_of_nil]; [by apply is_nan_eq | done].
  - intros H. apply IH. unfold fmaximum.
    destruct (is_nan a) eqn:Ha; [by left |].
    destruct H as [H | [<- | H]%elem_of_cons]; [done | by left | by right].
Qed.

Lemma row_max_nan row : S754_nan ∈ row -> row_max row = Ok S754_nan.
Proof.
  destruct row as [| a r]; [by intros ?%elem_of_nil |]. simpl.
  intros [<- | H]%elem_of_cons; f_equal; apply foldl_fmaximum_nan; eauto.
Qed.

Lemma set2_inv {A} (a : list (list A)) (i j : Z) (v : A) a' :
  set2 a i j v = Ok a' ->
  exists ki row kj,
    np_index (length a) i = Ok ki /\ a !! ki = Some row /\
    np_index (length row) j = Ok kj /\ a' = <[ki:=<[kj:=v]> row]> a.
Proof.
  unfold set2, set1.
  intros (ki & Hki & (row & Hrow%item_Ok &
            (row' & (kj & Hkj & [= <-])%bind_Ok & [= <-])%bind_Ok
          )%bind_Ok)%bind_Ok.
  by exists ki, row, kj.
Qed.

(** *** The last two statements of [forward_backward] *)

Section Normalise.
Variable exp : float -> float.
Variable np_sum : list float -> float.
Hypothesis exp_nan : exp S754_nan = S754_nan.
Hypothesis exp_zero : exp fzero = fone.
Hypothesis exp_neg_inf : exp fneg_inf = fzero.
Hypothesis np_sum_adds : forall l, summation l (np_sum l).

Lemma normalise_length row out :
  normalise exp np_sum row = Ok out -> length out = length row.
Proof.
  unfold normalise. intros (greatest & _ & [= <-])%bind_Ok.
  by rewrite !length_map.
Qed.

(** A row whose greatest entry is NaN or infinite comes out as NaN. *)
Lemma normalise_degenerate row greatest out :
  row_max row = Ok greatest -> is_finite greatest = false ->
  normalise exp np_sum row = Ok out ->
  Forall (fun p => p = S754_nan) out.
Proof.
  intros Hmax Hinf. unfold normalise. rewrite Hmax. simpl. intros [= <-].
  set (weights := map (fun v => exp (fsub v greatest)) row).
  assert (Hnan : S754_nan ∈ weights).
  { apply list_elem_of_fmap. exists greatest.
    split; [| by apply row_max_elem].
    by rewrite fsub_self, Hinf. }
  rewrite (summation_nan _ _ (np_sum_adds weights) Hnan).
  apply Forall_map, Forall_forall. intros w _. apply fdiv_nan_r.
Qed.

Lemma normalise_nan row out :
  S754_nan ∈ row -> normalise exp np_sum row = Ok out ->
  Forall (fun p => p = S754_nan) out.
Proof.
  intros Hnan. apply (normalise_degenerate row S754_nan); [| done].
  by apply row_max_nan.
Qed.

(** An entry of [-inf] or NaN does not come out above zero. *)
Lemma normalise_not_positive row out i v p :
  normalise exp np_sum row = Ok out ->
  row !! i = Some v -> v = fneg_inf \/ v = S754_nan -> out !! i = Some p ->
  flt fzero p = false.
Proof.
  unfold normalise. intros (greatest & _ & [= <-])%bind_Ok Hv Hcase.
  rewrite !list_lookup_fmap, Hv. simpl. intros [= <-].
  assert (Hw : exp (fsub v greatest) = fzero \/
               exp (fsub v greatest) = S754_nan).
  { destruct Hcase as [-> | ->]; [| by right].
    destruct greatest as [[] | [] | | [] m e]; simpl; eauto. }
  destruct Hw as [-> | ->]; [| done].
  by destruct (np_sum _) as [[] | [] | | [] m e].
Qed.

(** The finite entries of a row. *)
Definition finite_entries (row : list float) : nat :=
  length (filter (fun v => is_finite v = true) row).

Lemma tie_weights greatest row :
  is_finite greatest = true ->
  Forall (fun v => v = greatest \/ v = fneg_inf) row ->
  map (fun v => exp (fsub v greatest)) row =
    map (fun v => if is_finite v then fone else fzero) row.
Proof.
  intros Hfin Hrow. apply map_ext_Forall.
  eapply Forall_impl; [exact Hrow |]. intros v [-> | ->].
  - by rewrite fsub_self, Hfin.
  - by rewrite fsub_neg_inf.
Qed.

Lemma positives_indicator row :
  positives (map (fun v => if is_finite v then fone else fzero) row) =
    finite_entries row.
Proof.
  unfold positives, finite_entries.
  induction row as [| v row IH]; [done |]. simpl.
  rewrite !filter_cons. destruct (is_finite v) eqn:Hv.
  - rewrite decide_True by done. rewrite decide_True by done.
    simpl. by rewrite IH.
  - rewrite decide_False by done. by rewrite decide_False by done.
Qed.

(** A row whose entries are one finite value or [-inf]: the [k] finite
    entries come out as [1 / k], the others as [0.0]. *)
Lemma normalise_tie row greatest out :
  is_finite greatest = true -> greatest ∈ row ->
  Forall (fun v => v = greatest \/ v = fneg_inf) row ->
  exact (length row) ->
  normalise exp np_sum row = Ok out ->
  out = map (fun v => if is_finite v
                      then fdiv fone (fnat (finite_entries row)) else fzero)
          row.
Proof.
  intros Hfin Hin Hrow Hex. unfold normalise.
  assert (Hmax : row_max row = Ok greatest).
  { destruct row as [| a r]; [by apply elem_of_nil in Hin |]. simpl.
    apply Forall_cons in Hrow as [Ha Hr].
    destruct (foldl_fmaximum_tie greatest a r Hfin Ha Hr)
      as [[-> _] | [_ Hall]]; [done |].
    rewrite Forall_forall in Hall. specialize (Hall _ Hin).
    by rewrite Hall in Hfin. }
  rewrite Hmax. simpl. intros [= <-].
  rewrite (tie_weights greatest row Hfin Hrow).
  set (weights := map (fun v => if is_finite v then fone else fzero) row).
  assert (Hk : (0 < finite_entries row)%nat).
  { unfold finite_entries.
    assert (H : greatest ∈ filter (fun v => is_finite v = true) row)
      by (by apply list_elem_of_filter).
    destruct (filter _ row); [by apply elem_of_nil in H | simpl; lia]. }
  destruct (summation_ones weights _ (np_sum_adds weights))
    as [[H0 _] | [_ ->]].
  - apply Forall_map, Forall_forall. intros v _. destruct (is_finite v); eauto.
  - unfold weights. by rewrite length_map.
  - unfold weights in H0. rewrite positives_indicator in H0. lia.
  - unfold weights. rewrite positives_indicator, map_map.
    apply map_ext. intros v. destruct (is_finite v); [done |].
    apply fdiv_zero_fnat; [done |].
    pose proof (length_filter (fun v => is_finite v = true) row).
    unfold exact, finite_entries in *. lia.
Qed.

(** With one finite entry the row comes out one-hot and sums to [1.0]. *)
Lemma normalise_one_hot row greatest out total :
  is_finite greatest = true -> greatest ∈ row ->
  Forall (fun v => v = greatest \/ v = fneg_inf) row ->
  exact (length row) -> finite_entries row = 1%nat ->
  normalise exp np_sum row = Ok out ->
  out = map (fun v => if is_finite v then fone else fzero) row /\
  (summation out total -> total = fone).
Proof.
  intros Hfin Hin Hrow Hex Hone Hout.
  rewrite (normalise_tie row greatest out Hfin Hin Hrow Hex Hout), Hone.
  rewrite fnat_one, fdiv_one_one. split; [done |]. intros Hsum.
  apply summation_ones in Hsum as [[H0 _] | [_ ->]].
  - rewrite positives_indicator in H0. lia.
  - by rewrite positives_indicator, Hone, fnat_one.
  - apply Forall_map, Forall_forall. intros v _. destruct (is_finite v); eauto.
  - by rewrite length_map.
Qed.
End Normalise.

(** *** A metric that is NaN *)

Lemma elem_of_ndindex n m x s0 :
  (x, s0) ∈ ndindex n m <-> (x < n)%nat /\ (s0 < m)%nat.
Proof.
  unfold ndindex. rewrite list_elem_of_bind. split.
  - intros (x' & Hin & Hx). apply list_elem_of_fmap in Hin as (s & [= -> ->] & Hs).
    apply elem_of_seq in Hx, Hs. lia.
  - intros [Hx Hs]. exists x. split; [| apply elem_of_seq; lia].
    apply list_elem_of_fmap. exists s0. split; [done |]. apply elem_of_seq. lia.
Qed.

Section NanMetric.
Context {Obs : Type}.
Variable logaddexp : float -> float -> float.
Variable fsm : FiniteStateMachine.
Variable metric_function : Z -> Obs -> float.
Hypothesis logaddexp_nan : logaddexp S754_nan S754_nan = S754_nan.

(** The cell of [log_gamma[t]] of every edge holds NaN. *)
Definition edges_nan (X : nat) (g : list (list float)) : Prop :=
  forall x s0 s1 k,
    (x < X)%nat -> (s0 < num_states fsm)%nat ->
    get2 (next_states fsm) (Z.of_nat s0) (Z.of_nat x) = Ok s1 ->
    np_index (num_states fsm) s1 = Ok k ->
    exists row, g !! s0 = Some row /\ row !! k = Some S754_nan.

Lemma log_gamma_nan log_input_priors t (z : Obs) X g :
  (forall y, is_nan (metric_function y z) = true) ->
  for_each (gamma_edge fsm metric_function log_input_priors t z)
    (ndindex X (num_states fsm))
    (full (num_states fsm) (num_states fsm) fneg_inf) = Ok g ->
  Forall (fun row => length row = num_states fsm) g /\ edges_nan X g.
Proof.
  intros Hnan Hrun. set (n := num_states fsm) in *.
  pose (I := fun (i : nat) (g : list (list float)) =>
    length g = n /\ Forall (fun row => length row = n) g /\
    forall j x s0 s1 k,
      (j < i)%nat -> ndindex X n !! j = Some (x, s0) ->
      get2 (next_states fsm) (Z.of_nat s0) (Z.of_nat x) = Ok s1 ->
      np_index n s1 = Ok k ->
      exists row, g !! s0 = Some row /\ row !! k = Some S754_nan).
  assert (Hend : I (length (ndindex X n)) g).
  { eapply (for_each_invariant_run I); [| | exact Hrun].
    - split; [apply length_replicate |]. split.
      + apply Forall_replicate. apply length_replicate.
      + intros j x s0 s1 k Hj. lia.
    - intros i [x' s0'] g0 g' Hi (Hlen & Hrows & Hinv) Hbody.
      assert (Hs0' : (s0' < n)%nat).
      { pose proof (list_elem_of_lookup_2 _ _ _ Hi) as Hin.
        by apply elem_of_ndindex in Hin as [_ ?]. }
      unfold gamma_edge in Hbody.
      apply bind_Ok in Hbody as (y & _ & (s1' & Hs1' & (p & _ & Hset)%bind_Ok
                                          )%bind_Ok).
      rewrite (is_nan_eq _ (Hnan y)), fadd_nan_r in Hset.
      apply set2_inv in Hset as (ki & row & kj & Hki & Hrow & Hkj & ->).
      rewrite Hlen, np_index_nat in Hki by done. injection Hki as <-.
      assert (Hlrow : length row = n) by (rewrite Forall_lookup in Hrows; eauto).
      rewrite Hlrow in Hkj.
      assert (Hkjlt : (kj < n)%nat) by (by apply np_index_Ok in Hkj as [? _]).
      split; [by rewrite length_insert |]. split.
      { apply Forall_insert; [done | by rewrite length_insert]. }
      intros j x s0 s1 k Hj Hlook Hs1 Hk.
      destruct (decide (j = i)) as [-> | Hne].
      + assert (x = x' /\ s0 = s0') as [-> ->] by (split; congruence).
        assert (s1 = s1') as -> by congruence.
        assert (k = kj) as -> by congruence.
        exists (<[kj:=S754_nan]> row).
        rewrite !list_lookup_insert_eq by lia. done.
      + destruct (Hinv j x s0 s1 k ltac:(lia) Hlook Hs1 Hk)
          as (row0 & Hrow0 & Hnan0).
        destruct (decide (s0 = s0')) as [-> | Hs].
        * assert (row0 = row) as -> by congruence.
          exists (<[kj:=S754_nan]> row).
          rewrite list_lookup_insert_eq by lia. split; [done |].
          destruct (decide (k = kj)) as [-> | Hk'].
          -- by rewrite list_lookup_insert_eq by lia.
          -- by rewrite list_lookup_insert_ne.
        * exists row0. by rewrite list_lookup_insert_ne. }
  destruct Hend as (_ & Hrows & Hinv). split; [done |].
  intros x s0 s1 k Hx Hs0 Hs1 Hk.
  assert (Hin : (x, s0) ∈ ndindex X n) by (by apply elem_of_ndindex).
  apply list_elem_of_lookup_1 in Hin as [j Hj].
  apply (Hinv j x s0 s1 k); try done. by eapply lookup_lt_Some.
Qed.

Lemma logaddexp_reduce_nan labels :
  labels <> [] -> Forall (fun v => v = S754_nan) labels ->
  logaddexp_reduce logaddexp labels = S754_nan.
Proof.
  destruct labels as [| a r]; [done |]. intros _ [-> Hr]%Forall_cons. simpl.
  induction Hr as [| b r -> _ IH]; simpl; [done |].
  by rewrite logaddexp_nan.
Qed.

Lemma log_posterior_row_nan X log_alpha_t g log_beta_t1 row :
  (0 < num_states fsm)%nat ->
  Forall (fun r => length r = num_states fsm) g -> edges_nan X g ->
  log_posterior_row logaddexp fsm X log_alpha_t g log_beta_t1 = Ok row ->
  row = replicate X S754_nan.
Proof.
  intros Hpos Hrows Hg Hrow. apply mapM_Ok in Hrow as [Hlen Hrow].
  rewrite length_seq in Hlen.
  apply list_eq_same_length with X; [by rewrite length_replicate | done |].
  intros x v w Hx Hv Hw. apply lookup_replicate in Hw as [-> _].
  destruct (Hrow x x) as (v' & Hv' & Hlab); [by apply lookup_seq_lt |].
  assert (v' = v) as -> by congruence.
  apply bind_Ok in Hlab as (labels & Hlabels & [= <-]).
  apply mapM_Ok in Hlabels as [Hll Hlabels]. rewrite length_seq in Hll.
  apply logaddexp_reduce_nan.
  { destruct labels; [simpl in Hll; lia | done]. }
  apply Forall_lookup. intros s0 lab Hlab.
  assert (Hs0 : (s0 < num_states fsm)%nat)
    by (rewrite <- Hll; by eapply lookup_lt_Some).
  destruct (Hlabels s0 s0) as (lab' & Hlab' & Hedge);
    [by apply lookup_seq_lt |].
  assert (lab' = lab) as -> by congruence.
  unfold edge_label in Hedge.
  apply bind_Ok in Hedge as (s1 & Hs1 & (a & _ & (gv & Hgv & (b & _ & [= <-]
                               )%bind_Ok)%bind_Ok)%bind_Ok).
  apply get2_Ok in Hgv as (ki & r & kj & Hki & Hr & Hkj & Hval).
  assert (Hlr : length r = num_states fsm)
    by (rewrite Forall_lookup in Hrows; eauto).
  rewrite Hlr in Hkj.
  destruct (Hg x s0 s1 kj Hx Hs0 Hs1 Hkj) as (r' & Hr' & Hnan).
  rewrite np_index_nat in Hki by (by eapply lookup_lt_Some).
  injection Hki as <-.
  assert (r' = r) as -> by congruence.
  assert (gv = S754_nan) as -> by congruence.
  by rewrite fadd_nan_r.
Qed.
End NanMetric.

(** *** [forward_backward] returns *)

(** The shapes the docstring asks of the optional arguments: [L] rows of
    one prior per input symbol, and one probability per state (or a single
    one, which NumPy repeats). *)
Definition priors_shape (L X : nat)
    (input_priors : option (list (list float))) : Prop :=
  match input_priors with
  | None => True
  | Some p => length p = L /\ Forall (fun row => length row = X) p
  end.

Definition distribution_shape (n : nat) (distribution : option (list float))
  : Prop :=
  match distribution with
  | None => True
  | Some d => length d = n \/ length d = 1%nat
  end.

Section Returns.
Context {Obs : Type}.
Variable exp log : float -> float.
Variable logaddexp : float -> float -> float.
Variable np_sum : list float -> float.
Variable fsm : FiniteStateMachine.
Variable metric_function : Z -> Obs -> float.
Hypothesis Hwf : well_formed fsm.
Hypothesis Hinputs : (0 < num_input_symbols fsm)%nat.

Definition square_array (g : list (list float)) : Prop :=
  length g = num_states fsm /\
  Forall (fun row => length row = num_states fsm) g.

Lemma shape_1_well_formed : shape_1 fsm = Ok (num_input_symbols fsm).
Proof.
  unfold shape_1, num_input_symbols, shape1 in *.
  destruct (next_states fsm); [simpl in Hinputs; lia | done].
Qed.

Lemma log_priors_returns L input_priors :
  priors_shape L (num_input_symbols fsm) input_priors ->
  exists log_input_priors,
    log_priors log L (num_input_symbols fsm) input_priors =
      Ok log_input_priors /\
    forall t x, (t < L)%nat -> (x < num_input_symbols fsm)%nat ->
      exists p, get2 log_input_priors (Z.of_nat t) (Z.of_nat x) = Ok p.
Proof.
  destruct input_priors as [p |]; simpl.
  - intros [Hlen Hrows]. case_decide as Hrect.
    + eexists. split; [done |]. intros t x Ht Hx.
      destruct (lookup_lt_is_Some_2 p t) as [row Hrow]; [lia |].
      assert (Hl : length row = num_input_symbols fsm)
        by (rewrite Forall_lookup in Hrows; eauto).
      destruct (lookup_lt_is_Some_2 row x) as [v Hv]; [lia |].
      exists (log v). apply (get2_nat _ t x (map log row)).
      * by rewrite list_lookup_fmap, Hrow.
      * by rewrite list_lookup_fmap, Hv.
    + destruct Hrect. unfold rectangular.
      destruct p as [| row p]; [constructor |]. simpl.
      apply Forall_cons in Hrows as Hrows'. destruct Hrows' as [Hrow _].
      eapply Forall_impl; [exact Hrows |]. simpl. intros r Hr. congruence.
  - intros _. eexists. split; [done |]. intros t x Ht Hx. eexists.
    apply (get2_nat _ t x (replicate (num_input_symbols fsm)
                              (log (uniform (num_input_symbols fsm))))).
    + unfold full. by apply lookup_replicate_2.
    + by apply lookup_replicate_2.
Qed.

Lemma log_distribution_returns distribution :
  distribution_shape (num_states fsm) distribution ->
  exists row,
    log_distribution log (num_states fsm) distribution = Ok row /\
    length row = num_states fsm.
Proof.
  destruct distribution as [d |]; simpl.
  - intros Hd. case_decide as Hlen.
    + eexists. split; [done |]. by rewrite length_map.
    + destruct Hd as [Hd | Hd]; [done |].
      destruct d as [| v [| ? ?]]; try done.
      eexists. split; [done |]. by rewrite length_replicate.
  - intros _. eexists. split; [done |]. by rewrite length_replicate.
Qed.

Lemma gamma_edge_returns log_input_priors t (z : Obs) g x s0 :
  square_array g ->
  (exists p, get2 log_input_priors (Z.of_nat t) (Z.of_nat x) = Ok p) ->
  (x < num_input_symbols fsm)%nat -> (s0 < num_states fsm)%nat ->
  exists g',
    gamma_edge fsm metric_function log_input_priors t z g (x, s0) = Ok g' /\
    square_array g'.
Proof.
  intros [Hlen Hrows] [p Hp] Hx Hs0. unfold gamma_edge.
  rewrite (get2_outputs fsm Hwf s0 x Hs0 Hx). simpl.
  rewrite (get2_next_states fsm Hwf s0 x Hs0 Hx). simpl.
  destruct (next_states_lookup fsm Hwf s0 x Hs0 Hx) as (_ & _ & _ & _ & Hs1).
  rewrite Hp. simpl.
  destruct (lookup_lt_is_Some_2 g s0) as [row Hrow]; [lia |].
  assert (Hlrow : length row = num_states fsm)
    by (rewrite Forall_lookup in Hrows; eauto).
  unfold set2. rewrite np_index_nat by lia. simpl.
  replace (item g s0) with (Ok row) by (symmetry; by apply item_Ok).
  simpl. rewrite set1_nat by lia. simpl. eexists. split; [done |].
  split; [by rewrite length_insert |].
  apply Forall_insert; [done | by rewrite length_insert].
Qed.

Lemma log_gamma_returns log_input_priors (observed_sequence : list Obs) :
  (forall t x, (t < length observed_sequence)%nat ->
     (x < num_input_symbols fsm)%nat ->
     exists p, get2 log_input_priors (Z.of_nat t) (Z.of_nat x) = Ok p) ->
  exists gammas,
    log_gamma fsm metric_function (num_input_symbols fsm) log_input_priors
      observed_sequence = Ok gammas /\
    length gammas = length observed_sequence /\
    Forall square_array gammas.
Proof.
  intros Hpriors.
  assert (Hstep : forall tz, tz ∈ enumerate observed_sequence ->
            exists g,
              for_each
                (gamma_edge fsm metric_function log_input_priors tz.1 tz.2)
                (ndindex (num_input_symbols fsm) (num_states fsm))
                (full (num_states fsm) (num_states fsm) fneg_inf) = Ok g /\
              square_array g).
  { intros [t z] Hin. apply list_elem_of_lookup_1 in Hin as [i Hi].
    apply lookup_enumerate in Hi as [Ht Hz]. simpl in Ht, Hz. subst i.
    apply lookup_lt_Some in Hz.
    destruct (for_each_invariant (fun _ => square_array)
                (gamma_edge fsm metric_function log_input_priors t z)
                (ndindex (num_input_symbols fsm) (num_states fsm))
                (full (num_states fsm) (num_states fsm) fneg_inf))
      as (g & Hg & Hsq).
    - split; [apply length_replicate |].
      apply Forall_replicate, length_replicate.
    - intros n [x s0] g0 Hn Hg0.
      pose proof (list_elem_of_lookup_2 _ _ _ Hn) as Hin.
      apply elem_of_ndindex in Hin as [Hx Hs0].
      apply gamma_edge_returns; auto.
    - by exists g. }
  destruct (mapM_total
              (fun tz =>
                 for_each
                   (gamma_edge fsm metric_function log_input_priors
                      tz.1 tz.2)
                   (ndindex (num_input_symbols fsm) (num_states fsm))
                   (full (num_states fsm) (num_states fsm) fneg_inf))
              (enumerate observed_sequence)) as [gammas Hgammas].
  { apply Forall_forall. intros tz Hin.
    destruct (Hstep tz Hin) as (g & Hg & _). eauto. }
  exists gammas. split; [done |].
  apply mapM_Ok in Hgammas as [Hlen Hall].
  split.
  { rewrite Hlen. unfold enumerate.
    rewrite length_zip_with, length_seq. lia. }
  apply Forall_lookup. intros i g Hg.
  destruct (lookup_lt_is_Some_2 (enumerate observed_sequence) i) as [tz Htz].
  { rewrite <- Hlen. by eapply lookup_lt_Some. }
  destruct (Hall i tz Htz) as (g' & Hg' & Hrun).
  destruct (Hstep tz (list_elem_of_lookup_2 _ _ _ Htz)) as (g'' & Hrun' & Hsq).
  congruence.
Qed.

Lemma length_alpha_step g a :
  length (alpha_step logaddexp fsm g a) = num_states fsm.
Proof. unfold alpha_step. by rewrite length_map, length_seq. Qed.

Lemma forward_rows gammas a :
  length (forward logaddexp fsm gammas a) = length gammas /\
  Forall (fun row => length row = num_states fsm)
    (forward logaddexp fsm gammas a).
Proof.
  revert a. induction gammas as [| g gammas IH]; intros a; simpl; [done |].
  destruct (IH (alpha_step logaddexp fsm g a)) as [-> Hall].
  split; [done |]. constructor; [apply length_alpha_step | done].
Qed.

Lemma removelast_shorter {A} (l : list A) :
  length (removelast l) = pred (length l).
Proof.
  induction l as [| a [| b l] IH]; [done | done |].
  change (removelast (a :: b :: l)) with (a :: removelast (b :: l)).
  simpl in *. by rewrite IH.
Qed.

Lemma log_alpha_rows gammas a :
  length a = num_states fsm ->
  length (log_alpha logaddexp fsm gammas a) = S (length gammas) /\
  Forall (fun row => length row = num_states fsm)
    (log_alpha logaddexp fsm gammas a).
Proof.
  intros Ha. unfold log_alpha. destruct gammas as [| g gammas].
  { split; [done | by constructor]. }
  destruct (forward_rows (removelast (g :: gammas)) a) as [Hlen Hall].
  split.
  - cbn [length]. rewrite length_app, Hlen, removelast_shorter. simpl. lia.
  - constructor; [done |]. apply Forall_app. split; [done |].
    constructor; [apply length_replicate | constructor].
Qed.

Lemma log_beta_rows gammas b :
  length b = num_states fsm -> Forall square_array gammas ->
  length (log_beta logaddexp gammas b) = S (length gammas) /\
  Forall (fun row => length row = num_states fsm)
    (log_beta logaddexp gammas b).
Proof.
  intros Hb. induction 1 as [| g gammas [Hg _] _ [IHlen IHall]]; simpl.
  { split; [done | by constructor]. }
  split; [by rewrite IHlen |]. constructor; [| done].
  unfold beta_step. by rewrite length_map.
Qed.

Lemma log_posterior_row_returns a g b :
  length a = num_states fsm -> square_array g -> length b = num_states fsm ->
  exists row,
    log_posterior_row logaddexp fsm (num_input_symbols fsm) a g b = Ok row /\
    length row = num_input_symbols fsm.
Proof.
  intros Ha [Hg Hrows] Hb.
  destruct (mapM_total
              (fun x =>
                 do edge_labels <-
                   mapM (edge_label fsm a g b x) (seq 0 (num_states fsm));
                 Ok (logaddexp_reduce logaddexp edge_labels))
              (seq 0 (num_input_symbols fsm))) as [row Hrow].
  { apply Forall_forall. intros x [_ Hx]%elem_of_seq. simpl in Hx.
    destruct (mapM_total (edge_label fsm a g b x) (seq 0 (num_states fsm)))
      as [labels ->]; [| simpl; eauto].
    apply Forall_forall. intros s0 [_ Hs0]%elem_of_seq. simpl in Hs0.
    unfold edge_label.
    rewrite (get2_next_states fsm Hwf s0 x Hs0 Hx). simpl.
    destruct (next_states_lookup fsm Hwf s0 x Hs0 Hx)
      as (_ & _ & _ & _ & Hs1).
    destruct (item_lt a s0) as (va & -> & _); [lia |]. simpl.
    destruct (lookup_lt_is_Some_2 g s0) as [grow Hgrow]; [lia |].
    assert (Hl : length grow = num_states fsm)
      by (rewrite Forall_lookup in Hrows; eauto).
    destruct (lookup_lt_is_Some_2 grow (next_state fsm s0 x)) as [vg Hvg];
      [lia |].
    rewrite (get2_nat _ _ _ _ _ Hgrow Hvg). simpl.
    destruct (lookup_lt_is_Some_2 b (next_state fsm s0 x)) as [vb Hvb];
      [lia |].
    rewrite (get1_nat _ _ _ Hvb). simpl. eauto. }
  exists row. split; [done |].
  apply mapM_Ok in Hrow as [-> _]. apply length_seq.
Qed.

Lemma normalise_returns row :
  row <> [] -> exists out, normalise exp np_sum row = Ok out.
Proof. destruct row; [done |]. intros _. unfold normalise. simpl. eauto. Qed.

Lemma forward_backward_returns observed_sequence input_priors
    initial_state_distribution final_state_distribution :
  priors_shape (length observed_sequence) (num_input_symbols fsm)
    input_priors ->
  distribution_shape (num_states fsm) initial_state_distribution ->
  distribution_shape (num_states fsm) final_state_distribution ->
  exists posteriors,
    forward_backward exp log logaddexp np_sum fsm metric_function
      observed_sequence input_priors initial_state_distribution
      final_state_distribution = Ok posteriors.
Proof.
  intros Hp Hi Hf. unfold forward_backward, log_input_posteriors.
  rewrite shape_1_well_formed. simpl.
  destruct (log_priors_returns _ _ Hp) as (lip & -> & Hlip). simpl.
  destruct (log_distribution_returns _ Hi) as (a0 & -> & Ha0). simpl.
  destruct (log_distribution_returns _ Hf) as (bL & -> & HbL). simpl.
  destruct (log_gamma_returns lip observed_sequence Hlip)
    as (gammas & -> & Hlen & Hsq). simpl.
  destruct (log_alpha_rows gammas a0 Ha0) as [Halen Harows].
  destruct (log_beta_rows gammas bL HbL Hsq) as [Hblen Hbrows].
  set (stage := fun t : nat =>
         do a <- item (log_alpha logaddexp fsm gammas a0) t;
         do g <- item gammas t;
         do b <- item (log_beta logaddexp gammas bL) (S t);
         log_posterior_row logaddexp fsm (num_input_symbols fsm) a g b).
  assert (Hstage : forall t, (t < length observed_sequence)%nat ->
            exists row, stage t = Ok row /\
                        length row = num_input_symbols fsm).
  { intros t Ht. unfold stage.
    destruct (item_lt (log_alpha logaddexp fsm gammas a0) t)
      as (a & -> & Ha); [lia |]. simpl.
    destruct (item_lt gammas t) as (g & -> & Hg); [lia |]. simpl.
    destruct (item_lt (log_beta logaddexp gammas bL) (S t))
      as (b & -> & Hb); [lia |]. simpl.
    apply log_posterior_row_returns.
    - rewrite Forall_lookup in Harows. eauto.
    - rewrite Forall_lookup in Hsq. eauto.
    - rewrite Forall_lookup in Hbrows. eauto. }
  destruct (mapM_total stage (seq 0 (length observed_sequence)))
    as [rows Hrows].
  { apply Forall_forall. intros t [_ Ht]%elem_of_seq. simpl in Ht.
    destruct (Hstage t Ht) as (row & Hrow & _). eauto. }
  rewrite Hrows. simpl. case_decide; [lia |].
  apply mapM_total. apply Forall_lookup. intros t row Hrow.
  apply mapM_Ok in Hrows as [Hl Hall].
  destruct (lookup_lt_is_Some_2 (seq 0 (length observed_sequence)) t)
    as [t' Ht'].
  { rewrite <- Hl. by eapply lookup_lt_Some. }
  destruct (Hall t t' Ht') as (row' & Hrow' & Hrun).
  apply lookup_seq in Ht' as [-> Ht]. simpl in Hrun.
  destruct (Hstage t Ht) as (row'' & Hrun' & Hlrow).
  assert (row = row'') as -> by congruence.
  apply normalise_returns. intros ->. simpl in Hlrow. lia.
Qed.
End Returns.

(** *** The rows of [forward_backward] *)

Lemma enumerate_lookup {A} (l : list A) t a :
  l !! t = Some a -> enumerate l !! t = Some (t, a).
Proof.
  intros Ha. unfold enumerate. apply lookup_zip_with_Some.
  exists t, a. split; [done |]. split; [| done].
  apply lookup_seq_lt. by eapply lookup_lt_Some.
Qed.

Section Rows.
Context {Obs : Type}.
Variable exp log : float -> float.
Variable logaddexp : float -> float -> float.
Variable np_sum : list float -> float.
Variable fsm : FiniteStateMachine.
Variable metric_function : Z -> Obs -> float.

Lemma forward_backward_stages observed_sequence input_priors
    initial_state_distribution final_state_distribution posteriors :
  forward_backward exp log logaddexp np_sum fsm metric_function
    observed_sequence input_priors initial_state_distribution
    final_state_distribution = Ok posteriors ->
  exists X rows,
    log_input_posteriors log logaddexp fsm metric_function observed_sequence
      input_priors initial_state_distribution final_state_distribution =
      Ok (X, rows) /\
    X <> 0%nat /\ mapM (normalise exp np_sum) rows = Ok posteriors.
Proof.
  unfold forward_backward. intros ([X rows] & Hrows & H)%bind_Ok.
  case_decide; [done |]. by exists X, rows.
Qed.

Lemma log_input_posteriors_rows observed_sequence input_priors
    initial_state_distribution final_state_distribution X rows :
  log_input_posteriors log logaddexp fsm metric_function observed_sequence
    input_priors initial_state_distribution final_state_distribution =
    Ok (X, rows) ->
  (0 < num_states fsm)%nat /\ length rows = length observed_sequence /\
  forall t z, observed_sequence !! t = Some z ->
    exists log_input_priors a g b row,
      for_each (gamma_edge fsm metric_function log_input_priors t z)
        (ndindex X (num_states fsm))
        (full (num_states fsm) (num_states fsm) fneg_inf) = Ok g /\
      log_posterior_row logaddexp fsm X a g b = Ok row /\
      rows !! t = Some row /\ length row = X.
Proof.
  unfold log_input_posteriors.
  intros (X' & HX & (lip & _ & (a0 & _ & (bL & _ & (gammas & Hg &
           (rows' & Hrows & [= <- <-])%bind_Ok)%bind_Ok)%bind_Ok)%bind_Ok
         )%bind_Ok)%bind_Ok.
  split.
  { unfold shape_1, num_states in *.
    destruct (next_states fsm); [done | simpl; lia]. }
  apply mapM_Ok in Hg as [_ Hg]. apply mapM_Ok in Hrows as [Hlen Hrows].
  rewrite length_seq in Hlen. split; [done |].
  intros t z Hz.
  destruct (Hg t (t, z) (enumerate_lookup _ _ _ Hz)) as (g & Hgt & Hrun).
  destruct (Hrows t t) as (row & Hrow & Hstage).
  { apply lookup_seq_lt. by eapply lookup_lt_Some. }
  apply bind_Ok in Hstage as (a & _ & (g' & Hg'%item_Ok & (b & _ & Hlp
                                )%bind_Ok)%bind_Ok).
  assert (g' = g) as -> by congruence.
  exists lip, a, g, b, row. split_and!; try done.
  apply mapM_Ok in Hlp as [Hl _]. by rewrite length_seq in Hl.
Qed.
End Rows.

(** The claim on a row: it sums to one within a tolerance, and every entry
    is above zero (the tables are total, so every input symbol is on an
    edge at every time). *)
Definition sums_to_one (tolerance : float) (row : list float) : Prop :=
  exists total,
    summation row total /\ SFleb (SFabs (fsub total fone)) tolerance = true.

Definition posterior_sanity (tolerance : float)
    (posteriors : list (list float)) : Prop :=
  Forall (fun row => sums_to_one tolerance row /\
                     Forall (fun p => flt fzero p = true) row) posteriors.


(** *** A run *)

(** Stand-ins with the named properties, to run the model: [exp] and [log]
    by their values at [0], [1] and the infinities and by the side of it
    they fall on elsewhere, [logaddexp] by its max-log approximation, and
    [np.sum] from left to right. *)
Definition fhalf : float := Eval vm_compute in fdiv fone (fnat 2).
Definition ftwo : float := Eval vm_compute in fnat 2.
Definition fminus_one : float := Eval vm_compute in fsub fzero fone.

Definition sided_exp (a : float) : float :=
  match a with
  | S754_nan => S754_nan
  | S754_zero _ => fone
  | S754_infinity true => fzero
  | S754_infinity false => finf
  | S754_finite true _ _ => fhalf
  | S754_finite false _ _ => ftwo
  end.

Definition sided_log (a : float) : float :=
  match a with
  | S754_zero _ => fneg_inf
  | S754_infinity false => finf
  | S754_finite false _ _ =>
      if flt a fone then fminus_one else if flt fone a then fone else fzero
  | _ => S754_nan
  end.

Definition max_log (a b : float) : float := fmaximum a b.

Definition sum_left (l : list float) : float :=
  match l with
  | [] => fzero
  | a :: r => foldl fadd a r
  end.

Lemma foldl_fadd_summation pre acc r :
  summation pre acc -> summation (pre ++ r) (foldl fadd acc r).
Proof.
  revert pre acc. induction r as [| b r IH]; intros pre acc Hpre; simpl.
  - by rewrite app_nil_r.
  - change (pre ++ b :: r) with (pre ++ [b] ++ r). rewrite app_assoc.
    apply IH. apply summation_app; [done | constructor].
Qed.

Lemma sum_left_adds l : summation l (sum_left l).
Proof.
  destruct l as [| a r]; [constructor |]. simpl.
  apply (foldl_fadd_summation [a]). constructor.
Qed.

(** A log-likelihood without noise: [0.0] on the observed output, [-inf]
    on the others. *)
Definition noiseless_likelihood (y z : Z) : float :=
  if decide (y = z) then fzero else fneg_inf.


(** A metric that cannot score the observation. *)
Definition nan_metric (y z : Z) : float := S754_nan.

